(** * MAP-Elites / FI-2Pop spaceship generator: a shallow embedding

    The Python sources embedded here are
    - [pcgsepy/lsystem/solution.py]   (CandidateSolution, its JSON form and
                                       [merge_solutions]),
    - [pcgsepy/hullbuilder.py]        (HullBuilder.intersect_planes, the
                                       placement checks, the rotation names
                                       of [enforce_symmetry]),
    - [pcgsepy/fi2pop/fi2pop.py]      (FI2PopSolver._generate_initial_populations
                                       and [initialize]),
    - [pcgsepy/mapelites/map.py]      (MAPElites, the reward functions and
                                       [get_fitness_metrics]).

    Conventions.
    - Python [float]s are modelled as exact rationals [Q]; Python [int]s
      that are counted or compared (ages, constraint counts, indices) as [Z]
      or [nat].  No property below depends on rounding: the divisions that
      matter divide by a quantity that is either exactly zero or not.
    - A Python call that may raise returns a [PyResult]; mutation of [self]
      is explicit state passing, and the state reached when an exception
      propagates is kept.
    - Collaborators whose code lives outside the embedded files (grammar
      engine, genetic operators, hull post-processing, estimator training,
      buffer, emitter, bandit agent, random generator) are the fields of the
      class [Collaborators]. *)

From Stdlib Require Import ZArith QArith Lqa Lia List String Bool Permutation Sorted.
From stdpp Require Import base list.
Import ListNotations.

(** ** Python-level helpers *)

Module Py.

(** The exceptions raised or caught by the embedded code. *)
Inductive PyErr : Type :=
| Exception (msg : String.string)
| NotImplementedError (msg : String.string)
| AssertionError (msg : String.string)
| EvoException (msg : String.string)
| EmptyBufferException
| IndexError
| TypeError
| AttributeError
| ZeroDivisionError.

(** Outcome of a call: a value, a raised exception, or a loop that was
    still running when its fuel ran out. *)
Inductive PyResult (A : Type) : Type :=
| Return (a : A)
| Raise (e : PyErr)
| OutOfFuel.
Arguments Return {A} a.
Arguments Raise {A} e.
Arguments OutOfFuel {A}.

Definition is_return {A} (r : PyResult A) : bool :=
  match r with Return _ => true | _ => false end.

(** [l[i]] for a Python list: negative indices count from the end, and an
    index outside [-len, len) raises [IndexError]. *)
Definition py_index {A} (l : list A) (i : Z) : PyResult A :=
  let n := Z.of_nat (length l) in
  let k := if (i <? 0)%Z then (i + n)%Z else i in
  if ((0 <=? k) && (k <? n))%Z
  then match l !! Z.to_nat k with
       | Some a => Return a
       | None => Raise IndexError
       end
  else Raise IndexError.

(** [l.insert(i, x)] for a non-negative [i]: positions past the end append. *)
Definition py_insert {A} (l : list A) (i : nat) (a : A) : list A :=
  take i l ++ a :: drop i l.

Definition Qltb (a b : Q) : bool := negb (Qle_bool b a).

(** [max(a, b)] and [min(a, b)] return the first argument on ties. *)
Definition py_max (a b : Q) : Q := if Qltb a b then b else a.
Definition py_min (a b : Q) : Q := if Qltb b a then b else a.

(** [sum(l)] over numbers. *)
Definition py_sum (l : list Q) : Q := fold_left Qplus l 0%Q.

(** [a / b] on numbers. *)
Definition py_div (a b : Q) : PyResult Q :=
  if Qeq_bool b 0 then Raise ZeroDivisionError else Return (a / b)%Q.

(** [numpy.cumsum]. *)
Fixpoint cumsum_from (acc : Q) (l : list Q) : list Q :=
  match l with
  | [] => []
  | a :: l' => (acc + a)%Q :: cumsum_from (acc + a)%Q l'
  end.
Definition cumsum (l : list Q) : list Q := cumsum_from 0%Q l.

(** A list comprehension whose element expression may raise. *)
Fixpoint map_result {A B} (g : A -> PyResult B) (l : list A) : PyResult (list B) :=
  match l with
  | [] => Return []
  | a :: rest =>
      match g a with
      | Return b =>
          match map_result g rest with
          | Return bs => Return (b :: bs)
          | Raise e => Raise e
          | OutOfFuel => OutOfFuel
          end
      | Raise e => Raise e
      | OutOfFuel => OutOfFuel
      end
  end.

(** [numpy.digitize(x=[v], bins=b, right=False)[0]] for a non-decreasing
    [b]: the number of boundaries that are [<= v]. *)
Definition digitize (v : Q) (b : list Q) : nat :=
  length (List.filter (fun c => Qle_bool c v) b).

End Py.
Import Py.

(** ** pcgsepy/lsystem/solution.py *)

(** [pcgsepy.structure.Structure], as far as the embedded code reads it:
    the block dictionary (position to block type) and the bounding-box
    dimensions. *)
Record Structure : Type := {
  _blocks : list ((Z * Z * Z) * String.string);
  _max_dims : Z * Z * Z
}.

(** [CandidateSolution] with the slots the embedded code reads or writes
    ([hls_mod], [parents], [base_color] and the offspring counters are
    not touched by it and are left out). *)
Record CandidateSolution : Type := {
  string : String.string;
  _content : option Structure;
  age : Z;
  b_descs : Q * Q;
  c_fitness : Q;
  fitness : list Q;
  is_feasible : bool;
  ll_string : String.string;
  ncv : Z;
  representation : list Q;
  n_blocks : nat;
  content_size : Z * Z * Z
}.

(** [CandidateSolution(string=s, content=c)]. *)
Definition CandidateSolution_init (s : String.string) (c : option Structure)
  : CandidateSolution :=
  {| string := s; _content := c; age := 0%Z; b_descs := (0%Q, 0%Q);
     c_fitness := 0%Q; fitness := []; is_feasible := true;
     ll_string := EmptyString; ncv := 0%Z; representation := [];
     n_blocks := 0; content_size := (0%Z, 0%Z, 0%Z) |}.

(** [CandidateSolution.__eq__]: equality is equality of [string]. *)
Definition cs_eq (a b : CandidateSolution) : bool :=
  String.eqb (string a) (string b).

(** [cs in pop] on a Python list. *)
Definition cs_in (cs : CandidateSolution) (pop : list CandidateSolution) : bool :=
  existsb (fun other => cs_eq other cs) pop.

(** Truth value of [self._content]: [None] is false, a [Structure]
    object (which defines neither [__bool__] nor [__len__]) is true. *)
Definition content_truthy (cs : CandidateSolution) : bool :=
  match _content cs with Some _ => true | None => false end.

(** Assignment to one slot of a solution. *)
Definition cs_set_content (cs : CandidateSolution) (v : option Structure) : CandidateSolution :=
  {| string := string cs; _content := v; age := age cs; b_descs := b_descs cs;
     c_fitness := c_fitness cs; fitness := fitness cs; is_feasible := is_feasible cs;
     ll_string := ll_string cs; ncv := ncv cs; representation := representation cs;
     n_blocks := n_blocks cs; content_size := content_size cs |}.

Definition cs_set_age (cs : CandidateSolution) (v : Z) : CandidateSolution :=
  {| string := string cs; _content := _content cs; age := v; b_descs := b_descs cs;
     c_fitness := c_fitness cs; fitness := fitness cs; is_feasible := is_feasible cs;
     ll_string := ll_string cs; ncv := ncv cs; representation := representation cs;
     n_blocks := n_blocks cs; content_size := content_size cs |}.

Definition cs_set_b_descs (cs : CandidateSolution) (v : Q * Q) : CandidateSolution :=
  {| string := string cs; _content := _content cs; age := age cs; b_descs := v;
     c_fitness := c_fitness cs; fitness := fitness cs; is_feasible := is_feasible cs;
     ll_string := ll_string cs; ncv := ncv cs; representation := representation cs;
     n_blocks := n_blocks cs; content_size := content_size cs |}.

Definition cs_set_c_fitness (cs : CandidateSolution) (v : Q) : CandidateSolution :=
  {| string := string cs; _content := _content cs; age := age cs;
     b_descs := b_descs cs; c_fitness := v; fitness := fitness cs;
     is_feasible := is_feasible cs; ll_string := ll_string cs; ncv := ncv cs;
     representation := representation cs; n_blocks := n_blocks cs;
     content_size := content_size cs |}.

Definition cs_set_fitness (cs : CandidateSolution) (v : list Q) : CandidateSolution :=
  {| string := string cs; _content := _content cs; age := age cs;
     b_descs := b_descs cs; c_fitness := c_fitness cs; fitness := v;
     is_feasible := is_feasible cs; ll_string := ll_string cs; ncv := ncv cs;
     representation := representation cs; n_blocks := n_blocks cs;
     content_size := content_size cs |}.

Definition cs_set_representation (cs : CandidateSolution) (v : list Q) : CandidateSolution :=
  {| string := string cs; _content := _content cs; age := age cs;
     b_descs := b_descs cs; c_fitness := c_fitness cs; fitness := fitness cs;
     is_feasible := is_feasible cs; ll_string := ll_string cs; ncv := ncv cs;
     representation := v; n_blocks := n_blocks cs; content_size := content_size cs |}.

Definition cs_set_n_blocks (cs : CandidateSolution) (v : nat) : CandidateSolution :=
  {| string := string cs; _content := _content cs; age := age cs;
     b_descs := b_descs cs; c_fitness := c_fitness cs; fitness := fitness cs;
     is_feasible := is_feasible cs; ll_string := ll_string cs; ncv := ncv cs;
     representation := representation cs; n_blocks := v;
     content_size := content_size cs |}.

Definition cs_set_content_size (cs : CandidateSolution) (v : Z * Z * Z) : CandidateSolution :=
  {| string := string cs; _content := _content cs; age := age cs;
     b_descs := b_descs cs; c_fitness := c_fitness cs; fitness := fitness cs;
     is_feasible := is_feasible cs; ll_string := ll_string cs; ncv := ncv cs;
     representation := representation cs; n_blocks := n_blocks cs; content_size := v |}.

(** [CandidateSolution.set_content]: the solution after the call and the
    outcome of the call. *)
Definition set_content (cs : CandidateSolution) (content : Structure)
  : CandidateSolution * PyResult unit :=
  if content_truthy cs
  then (cs, Raise (Exception "Structure already exists for this CandidateSolution."))
  else (cs_set_n_blocks (cs_set_content cs (Some content)) (length (_blocks content)),
        Return tt).

(** The [content] property. *)
Definition content (cs : CandidateSolution) : PyResult Structure :=
  match _content cs with
  | Some s => Return s
  | None => Raise (NotImplementedError "Structure has not been set yet.")
  end.

(** A run of [set_content] calls on one solution; a failed call is
    survived by the caller and the next call is made on the same object. *)
Fixpoint set_content_all (cs : CandidateSolution) (cs_contents : list Structure)
  : CandidateSolution :=
  match cs_contents with
  | [] => cs
  | c :: rest => set_content_all (fst (set_content cs c)) rest
  end.

(** ** Method calls on a mutable object

    A method of an object with state [S] that returns an [A]: it is given
    the object and hands back the object as the call left it, together
    with the outcome. *)

Definition M (S A : Type) : Type := S -> S * PyResult A.

Definition ret {S A} (a : A) : M S A := fun s => (s, Return a).

Definition bind {S A B} (m : M S A) (k : A -> M S B) : M S B :=
  fun s =>
    match m s with
    | (s', Return a) => k a s'
    | (s', Raise e) => (s', Raise e)
    | (s', OutOfFuel) => (s', OutOfFuel)
    end.

Definition raise {S A} (e : PyErr) : M S A := fun s => (s, Raise e).
Definition get {S} : M S S := fun s => (s, Return s).
Definition modify {S} (g : S -> S) : M S unit := fun s => (g s, Return tt).
Definition lift {S A} (r : PyResult A) : M S A := fun s => (s, r).

Declare Scope method_scope.
Delimit Scope method_scope with method.
Notation "x <- m ;; k" := (bind m (fun x => k))
  (at level 100, m at next level, right associativity) : method_scope.
Notation "m ;; k" := (bind m (fun _ => k))
  (at level 100, right associativity) : method_scope.
Open Scope method_scope.

(** [for a in l: body(a)]. *)
Fixpoint for_each {S A} (l : list A) (body : A -> M S unit) : M S unit :=
  match l with
  | [] => ret tt
  | a :: rest => body a ;; for_each rest body
  end.

(** [try: body  except EvoException as e: handler(e)]. *)
Definition try_except_EvoException {S A} (body : M S A) (handler : String.string -> M S A)
  : M S A :=
  fun s =>
    match body s with
    | (s', Raise (EvoException msg)) => handler msg s'
    | other => other
    end.

(** The method [m] called on each object of the list [l] in turn, in
    place; when a call raises, the objects after it are left as they were. *)
Fixpoint on_each {S} (m : M S unit) (l : list S) : list S * PyResult unit :=
  match l with
  | [] => ([], Return tt)
  | a :: rest =>
      match m a with
      | (a', Return _) => let '(rest', r) := on_each m rest in (a' :: rest', r)
      | (a', Raise e) => (a' :: rest, Raise e)
      | (a', OutOfFuel) => (a' :: rest, OutOfFuel)
      end
  end.

(** The property [P] of the object survives the call, however it ends. *)
Definition preserves {S A} (P : S -> Prop) (m : M S A) : Prop :=
  forall s, P s -> P (fst (m s)).

(** An outcome other than a raised [EvoException]. *)
Definition not_EvoException {A} (r : PyResult A) : Prop :=
  forall msg, r <> Raise (EvoException msg).

(** A call that never ends in an [EvoException]. *)
Definition never_EvoException {S A} (m : M S A) : Prop :=
  forall s, not_EvoException (snd (m s)).

(** ** pcgsepy/hullbuilder.py *)

Module HullBuilder.

(** [pcgsepy.common.vecs.Vec], its three coordinates. *)
Record Vec : Type := { x : Q; y : Q; z : Q }.

(** The term one pair of mountpoint boxes adds to [intersect_bbox]
    (body of the inner loop of [intersect_planes]). *)
Definition intersect_term (start1 end1 start2 end2 : Vec) : Q :=
  let x1 := py_max (x start1) (x start2) in
  let y1 := py_max (y start1) (y start2) in
  let z1 := py_max (z start1) (z start2) in
  let x2 := py_min (x end1) (x end2) in
  let y2 := py_min (y end1) (y end2) in
  let z2 := py_min (z end1) (z end2) in
  if Qltb x1 x2 && Qltb y1 y2 && Qltb z2 z1
  then ((x2 - x1) * (y2 - y1))%Q
  else if Qltb x1 x2 && Qle_bool y2 y1 && Qltb z1 z2
  then ((x2 - x1) * (z2 - z1))%Q
  else if Qle_bool x2 x1 && Qltb y1 y2 && Qltb z1 z2
  then ((y2 - y1) * (z2 - z1))%Q
  else 0%Q.

(** The two nested loops over [zip(starts1, ends1)] and
    [zip(starts2, ends2)]. *)
Definition intersect_inner (start1 end1 : Vec) (mps2 : list (Vec * Vec)) (acc : Q) : Q :=
  fold_left (fun a '(start2, end2) => (a + intersect_term start1 end1 start2 end2)%Q)
            mps2 acc.

Definition intersect_bbox (starts1 ends1 starts2 ends2 : list Vec) : Q :=
  fold_left (fun a '(start1, end1) =>
               intersect_inner start1 end1 (combine starts2 ends2) a)
            (combine starts1 ends1) 0%Q.

(** [HullBuilder.intersect_planes]. *)
Definition intersect_planes (starts1 ends1 starts2 ends2 : list Vec) : PyResult Q :=
  py_div 1 (intersect_bbox starts1 ends1 starts2 ends2).

(** Reading of the accumulation used to state its properties: the terms
    of all pairs in loop order, and their sum. *)
Definition pair_terms (starts1 ends1 starts2 ends2 : list Vec) : list Q :=
  flat_map (fun '(s1, e1) =>
              List.map (fun '(s2, e2) => intersect_term s1 e1 s2 e2)
                       (combine starts2 ends2))
           (combine starts1 ends1).

Definition Qsum (l : list Q) : Q := fold_right Qplus 0%Q l.

(** Some pair of mountpoint boxes adds a positive term. *)
Definition some_pair_overlaps (starts1 ends1 starts2 ends2 : list Vec) : Prop :=
  exists s1 e1 s2 e2,
    In (s1, e1) (combine starts1 ends1) /\ In (s2, e2) (combine starts2 ends2)
    /\ (0 < intersect_term s1 e1 s2 e2)%Q.

End HullBuilder.

(** ** Fitness objects and outside collaborators *)

(** [pcgsepy.evo.fitness.Fitness]: a named objective with bounds and a
    mutable weight; calling it evaluates [f]. *)
Record Fitness : Type := {
  name : String.string;
  f : CandidateSolution -> Q;
  bounds : Q * Q;
  weight : Q
}.

(** [pcgsepy.config]: the constants the embedded code imports. *)
Class Config : Type := {
  CS_MAX_AGE : Z;
  BIN_POP_SIZE : nat;
  EPSILON_F : Q;
  ALIGNMENT_INTERVAL : Z;
  MAX_X_SIZE : Q;
  MAX_Y_SIZE : Q;
  MAX_Z_SIZE : Q;
  USE_TORCH : bool
}.

(** [pcgsepy.mapelites.bin.MAPBin], its data: the two populations, the
    position and size in behavior space and the per-population new-elite
    marker ([new_elite['feasible']], [new_elite['infeasible']]). *)
Record MAPBin : Type := {
  _feasible : list CandidateSolution;
  _infeasible : list CandidateSolution;
  bin_idx : nat * nat;
  bin_size : Q * Q;
  bin_initial_size : option (Q * Q);
  new_elite : bool * bool
}.

(** A two-dimensional numpy array of bins: its [shape] and its cells in C
    (row-major) order, the order of [numpy.ndenumerate] and [flatten]. *)
Record Grid : Type := {
  shape : nat * nat;
  flat : list MAPBin
}.

(** What [Emitter.pick_bin] may hand back: a flat list of bins, a pair
    (bins for the feasible pool, bins for the infeasible pool), or a
    non-empty list of anything else. *)
Inductive Selection : Type :=
| SelectedBins (selected : list MAPBin)
| SelectedPair (for_feasible for_infeasible : list MAPBin)
| SelectedOther.

(** The estimator classes [MAPElites] dispatches on with [isinstance];
    [OtherEstimator] stands for an object of any other class. *)
Inductive EstimatorKind : Type :=
| GaussianEstimator
| MLPEstimator
| QuantileEstimator
| OtherEstimator.

(** A surrogate estimator: its class, its [is_trained] flag and its
    [predict], which yields one number for the point estimators and the
    (min, median, max) array for the quantile estimator. *)
Record Estimator : Type := {
  kind : EstimatorKind;
  is_trained : bool;
  predict : list Q -> Q;
  predict_quantiles : list Q -> list Q
}.

(** Everything the embedded code calls but does not define. [Env] is the
    state of the outside world (random generators, grammar engine); calls
    that draw random numbers thread it. *)
Class Collaborators : Type := {
  Env : Type;
  (** [lsystem.apply_rules(starting_strings=['head', 'body', 'tail'],
      iterations=[1, N_ITERATIONS, 1], create_structures=b, make_graph=False)] *)
  apply_rules : bool -> Env -> Env * list CandidateSolution;
  (** [pcgsepy.fi2pop.utils.subdivide_solutions]: marks each solution of
      the list, in place, as feasible or not. *)
  subdivide_solutions : list CandidateSolution -> list CandidateSolution;
  (** [pcgsepy.fi2pop.utils.create_new_pool(population, generation,
      n_individuals, minimize)]; may raise [EvoException]. *)
  create_new_pool : list CandidateSolution -> nat -> nat -> bool -> Env
                    -> Env * PyResult (list CandidateSolution);
  _add_ll_strings : CandidateSolution -> CandidateSolution;
  _set_structure : CandidateSolution -> CandidateSolution;
  (** [HullBuilder.add_external_hull], and [set_color] followed by
      [rotate(along=1, k=3)], on a structure. *)
  add_external_hull : Structure -> Structure;
  set_color_and_rotate : Structure -> Structure;
  (** The four proxy objectives of [pcgsepy.evo.fitness]. *)
  box_filling_fitness : CandidateSolution -> Q;
  func_blocks_fitness : CandidateSolution -> Q;
  mame_fitness : CandidateSolution -> Q;
  mami_fitness : CandidateSolution -> Q;
  (** [pcgsepy.nn.estimators]: dataset preparation and one round of
      fitting ([GaussianEstimator.fit] or [train_estimator]). *)
  prepare_dataset : list CandidateSolution -> list (list Q * Q);
  fit : Estimator -> list (list Q) -> list Q -> Estimator;
  (** [pcgsepy.mapelites.buffer.Buffer]; [buffer_get] is [None] when the
      buffer raises [EmptyBufferException]. *)
  Buffer : Type;
  buffer_insert : Buffer -> list Q -> Q -> Buffer;
  buffer_get : Buffer -> option (list (list Q) * list Q);
  (** [MAPBin.subdividable] and the retention rule of [MAPBin.remove_old]
      on the pair (feasible, infeasible) of populations of a bin. *)
  subdividable : MAPBin -> bool;
  remove_old_pops : list CandidateSolution -> list CandidateSolution
                    -> list CandidateSolution * list CandidateSolution;
  (** [MAPBin.check_new_elite] on both populations: the new markers. *)
  check_new_elite : MAPBin -> bool * bool;
  (** [random.choice] on a sequence of [n > 0] elements: the position drawn;
      [numpy.random.shuffle] on the eight offsets of the neighbour search. *)
  random_below : nat -> Env -> Env * nat;
  shuffle_offsets : list (Z * Z) -> Env -> Env * list (Z * Z);
  (** [pcgsepy.mapelites.emitters.Emitter]. *)
  Emitter : Type;
  is_HumanPrefMatrixEmitter : Emitter -> bool;
  requires_init : Emitter -> bool;
  requires_pre : Emitter -> bool;
  requires_post : Emitter -> bool;
  pick_bin : Emitter -> Grid -> Env -> Env * (Emitter * Selection);
  init_emitter : Emitter -> Grid -> Emitter;
  pre_step : Emitter -> Grid -> list (Z * Z) -> list (Z * Z) -> Emitter;
  post_step : Emitter -> Grid -> Emitter;
  _increase_preferences_res : Emitter -> nat * nat -> Emitter;
  get_emitter_by_str : String.string -> Emitter;
  (** [pcgsepy.mapelites.bandit.EpsilonGreedyAgent]; a bandit is known by
      the two halves of its [action], split at the semicolon. *)
  Agent : Type;
  choose_bandit : Agent -> Env -> Env * (String.string * String.string);
  reward_bandit : Agent -> String.string * String.string -> Q -> Agent
}.

(** ** pcgsepy/fi2pop/fi2pop.py *)

Module FI2PopSolver.
Section WithCollaborators.
Context `{Collaborators}.

(** The solver object, its fields read by initialisation. *)
Record FI2PopSolver : Type := {
  feasible_fitnesses : list Fitness;
  nsc : Q
}.

(** [FI2PopSolver._compute_fitness]. *)
Definition _compute_fitness (self : FI2PopSolver) (cs : CandidateSolution) : list Q :=
  List.map (fun fit => f fit cs) (feasible_fitnesses self).

(** Body of [for cs in solutions] in [_generate_initial_populations]:
    the two populations after looking at [cs]. *)
Definition place_solution (self : FI2PopSolver) (pops_size : nat)
           (pops : list CandidateSolution * list CandidateSolution)
           (cs : CandidateSolution)
  : list CandidateSolution * list CandidateSolution :=
  let '(feasible_pop, infeasible_pop) := pops in
  if is_feasible cs && (length feasible_pop <? pops_size)
     && negb (cs_in cs feasible_pop)
  then
    let fs := _compute_fitness self cs in
    (feasible_pop
       ++ [cs_set_c_fitness (cs_set_fitness cs fs)
                            (py_sum fs + (nsc self - inject_Z (ncv cs)))%Q],
     infeasible_pop)
  else if negb (is_feasible cs) && (length infeasible_pop <? pops_size)
          && negb (cs_in cs feasible_pop)
  then (feasible_pop,
        infeasible_pop ++ [cs_set_c_fitness cs (inject_Z (ncv cs))])
  else pops.

(** The retry loop [for i in iterations]: [retries] iterations are left.
    The test [i == n_retries] of the source is never true inside
    [range(n_retries)], so the loop ends early only when both
    populations are full. *)
Fixpoint initial_populations_loop (self : FI2PopSolver) (pops_size retries : nat)
         (env : Env) (pops : list CandidateSolution * list CandidateSolution)
  : Env * (list CandidateSolution * list CandidateSolution) :=
  match retries with
  | O => (env, pops)
  | S retries' =>
      let '(env', solutions) := apply_rules false env in
      let solutions := subdivide_solutions solutions in
      let pops' := fold_left (place_solution self pops_size) solutions pops in
      if (length (fst pops') =? pops_size) && (length (snd pops') =? pops_size)
      then (env', pops')
      else initial_populations_loop self pops_size retries' env' pops'
  end.

(** [FI2PopSolver._generate_initial_populations]. *)
Definition _generate_initial_populations (self : FI2PopSolver)
           (pops_size n_retries : nat) (env : Env)
  : Env * (list CandidateSolution * list CandidateSolution) :=
  initial_populations_loop self pops_size n_retries env ([], []).

End WithCollaborators.
End FI2PopSolver.

(** ** pcgsepy/mapelites/map.py *)

Module MAPElites.
Section WithCollaborators.
Context `{Config} `{Collaborators}.

(** *** MAPBin methods *)

(** Modelled from the spec: [MAPBin.__init__], whose source is not among
    the embedded files.  A bin is created empty, with no new elite. *)
Definition MAPBin_init (idx : nat * nat) (size : Q * Q) (initial_size : option (Q * Q))
  : MAPBin :=
  {| _feasible := []; _infeasible := []; bin_idx := idx; bin_size := size;
     bin_initial_size := initial_size; new_elite := (false, false) |}.

Definition set_populations (b : MAPBin) (feas infeas : list CandidateSolution) : MAPBin :=
  {| _feasible := feas; _infeasible := infeas; bin_idx := bin_idx b;
     bin_size := bin_size b; bin_initial_size := bin_initial_size b;
     new_elite := new_elite b |}.

Definition set_new_elite (b : MAPBin) (v : bool * bool) : MAPBin :=
  {| _feasible := _feasible b; _infeasible := _infeasible b; bin_idx := bin_idx b;
     bin_size := bin_size b; bin_initial_size := bin_initial_size b;
     new_elite := v |}.

(** Modelled from the spec: [MAPBin.insert_cs], whose source is not among
    the embedded files.  The solution is appended to the feasible or to the
    infeasible list according to [is_feasible], unless a solution with the
    same string is already there. *)
Definition insert_cs (cs : CandidateSolution) (b : MAPBin) : MAPBin :=
  if is_feasible cs
  then if cs_in cs (_feasible b) then b
       else set_populations b (_feasible b ++ [cs]) (_infeasible b)
  else if cs_in cs (_infeasible b) then b
       else set_populations b (_feasible b) (_infeasible b ++ [cs]).

(** Modelled from the spec: [MAPBin.age], whose source is not among the
    embedded files.  Every individual of both populations ages by [diff]. *)
Definition MAPBin_age (diff : Z) (b : MAPBin) : MAPBin :=
  set_populations b
    (List.map (fun cs => cs_set_age cs (age cs + diff)%Z) (_feasible b))
    (List.map (fun cs => cs_set_age cs (age cs + diff)%Z) (_infeasible b)).

(** Modelled from the spec: [MAPBin.remove_old], whose source is not among
    the embedded files.  It only drops individuals from the two
    populations; which ones is left to [remove_old_pops]. *)
Definition remove_old (b : MAPBin) : MAPBin :=
  let '(feas, infeas) := remove_old_pops (_feasible b) (_infeasible b) in
  set_populations b feas infeas.

(** *** Grids *)

(** Position in [flat] of the cell [(i, j)] for indices already known to
    be in range. *)
Definition flat_position (g : Grid) (i j : nat) : nat := i * snd (shape g) + j.

(** One axis of a numpy index: negative values count from the end. *)
Definition axis_index (len : nat) (i : Z) : PyResult nat :=
  let n := Z.of_nat len in
  let k := if (i <? 0)%Z then (i + n)%Z else i in
  if ((0 <=? k) && (k <? n))%Z then Return (Z.to_nat k) else Raise IndexError.

(** [bins[i, j]] as a position in [flat]. *)
Definition grid_position (g : Grid) (idx : Z * Z) : PyResult nat :=
  match axis_index (fst (shape g)) (fst idx), axis_index (snd (shape g)) (snd idx) with
  | Return i, Return j =>
      if flat_position g i j <? length (flat g)
      then Return (flat_position g i j)
      else Raise IndexError
  | _, _ => Raise IndexError
  end.

(** [bins[i, j]]. *)
Definition grid_get (g : Grid) (idx : Z * Z) : PyResult MAPBin :=
  match grid_position g idx with
  | Return k =>
      match flat g !! k with
      | Some b => Return b
      | None => Raise IndexError
      end
  | Raise e => Raise e
  | OutOfFuel => OutOfFuel
  end.

Definition Zidx (idx : nat * nat) : Z * Z := (Z.of_nat (fst idx), Z.of_nat (snd idx)).

(** The index pairs of a [(m, n)] array in [numpy.ndenumerate] order. *)
Definition ndindex (m n : nat) : list (nat * nat) :=
  flat_map (fun i => List.map (fun j => (i, j)) (seq 0 n)) (seq 0 m).

(** The same method applied to every cell. *)
Definition grid_map (g : Grid) (method : MAPBin -> MAPBin) : Grid :=
  {| shape := shape g; flat := List.map method (flat g) |}.

Definition grid_set (g : Grid) (k : nat) (b : MAPBin) : Grid :=
  {| shape := shape g; flat := <[k := b]> (flat g) |}.

(** *** The archive *)

(** [pcgsepy.mapelites.behaviors.BehaviorCharacterization]: calling it
    evaluates [func]; [bc_bounds] is its [bounds], possibly [None]. *)
Record BehaviorCharacterization : Type := {
  bc_name : String.string;
  func : CandidateSolution -> Q;
  bc_bounds : option (Q * Q)
}.

(** The two reward functions of [agent_rewards]. *)
Inductive RewardFunction : Type :=
| coverage_reward_function
| fitness_reward_function.

(** The attributes of a [MAPElites] object read or written by the
    embedded methods ([behavior_descriptors] is [self.b_descs];
    [hull_builder] tells whether one is set; [env] is the outside world,
    [error_log] what was logged at error level and
    [create_new_pool_calls] the arguments of the calls made to
    [create_new_pool], both latest last). *)
Record MAPElites : Type := {
  feasible_fitnesses : list Fitness;
  behavior_descriptors : BehaviorCharacterization * BehaviorCharacterization;
  emitter : option Emitter;
  agent : option Agent;
  agent_rewards : list RewardFunction;
  estimator : option Estimator;
  buffer : Buffer;
  nsc : Q;
  bin_qnt : nat * nat;
  bin_sizes : list Q * list Q;
  bins : Grid;
  enforce_qnt : bool;
  hull_builder : bool;
  max_f_fitness : Q;
  infeas_fitness_idx : Z;
  allow_res_increase : bool;
  allow_aging : bool;
  n_new_solutions : nat;
  x_range : Z * Z;
  y_range : Z * Z;
  z_range : Z * Z;
  env : Env;
  error_log : list String.string;
  create_new_pool_calls : list (list CandidateSolution * nat * nat * bool)
}.

(** Assignment to one attribute of the archive. *)
Definition set_emitter (self : MAPElites) (v : option Emitter) : MAPElites :=
  {| feasible_fitnesses := feasible_fitnesses self;
     behavior_descriptors := behavior_descriptors self; emitter := v;
     agent := agent self; agent_rewards := agent_rewards self;
     estimator := estimator self; buffer := buffer self; nsc := nsc self;
     bin_qnt := bin_qnt self; bin_sizes := bin_sizes self; bins := bins self;
     enforce_qnt := enforce_qnt self; hull_builder := hull_builder self;
     max_f_fitness := max_f_fitness self;
     infeas_fitness_idx := infeas_fitness_idx self;
     allow_res_increase := allow_res_increase self; allow_aging := allow_aging self;
     n_new_solutions := n_new_solutions self; x_range := x_range self;
     y_range := y_range self; z_range := z_range self; env := env self;
     error_log := error_log self;
     create_new_pool_calls := create_new_pool_calls self |}.

Definition set_agent (self : MAPElites) (v : option Agent) : MAPElites :=
  {| feasible_fitnesses := feasible_fitnesses self;
     behavior_descriptors := behavior_descriptors self; emitter := emitter self;
     agent := v; agent_rewards := agent_rewards self; estimator := estimator self;
     buffer := buffer self; nsc := nsc self; bin_qnt := bin_qnt self;
     bin_sizes := bin_sizes self; bins := bins self; enforce_qnt := enforce_qnt self;
     hull_builder := hull_builder self; max_f_fitness := max_f_fitness self;
     infeas_fitness_idx := infeas_fitness_idx self;
     allow_res_increase := allow_res_increase self; allow_aging := allow_aging self;
     n_new_solutions := n_new_solutions self; x_range := x_range self;
     y_range := y_range self; z_range := z_range self; env := env self;
     error_log := error_log self;
     create_new_pool_calls := create_new_pool_calls self |}.

Definition set_estimator (self : MAPElites) (v : option Estimator) : MAPElites :=
  {| feasible_fitnesses := feasible_fitnesses self;
     behavior_descriptors := behavior_descriptors self; emitter := emitter self;
     agent := agent self; agent_rewards := agent_rewards self; estimator := v;
     buffer := buffer self; nsc := nsc self; bin_qnt := bin_qnt self;
     bin_sizes := bin_sizes self; bins := bins self; enforce_qnt := enforce_qnt self;
     hull_builder := hull_builder self; max_f_fitness := max_f_fitness self;
     infeas_fitness_idx := infeas_fitness_idx self;
     allow_res_increase := allow_res_increase self; allow_aging := allow_aging self;
     n_new_solutions := n_new_solutions self; x_range := x_range self;
     y_range := y_range self; z_range := z_range self; env := env self;
     error_log := error_log self;
     create_new_pool_calls := create_new_pool_calls self |}.

Definition set_buffer (self : MAPElites) (v : Buffer) : MAPElites :=
  {| feasible_fitnesses := feasible_fitnesses self;
     behavior_descriptors := behavior_descriptors self; emitter := emitter self;
     agent := agent self; agent_rewards := agent_rewards self;
     estimator := estimator self; buffer := v; nsc := nsc self;
     bin_qnt := bin_qnt self; bin_sizes := bin_sizes self; bins := bins self;
     enforce_qnt := enforce_qnt self; hull_builder := hull_builder self;
     max_f_fitness := max_f_fitness self;
     infeas_fitness_idx := infeas_fitness_idx self;
     allow_res_increase := allow_res_increase self; allow_aging := allow_aging self;
     n_new_solutions := n_new_solutions self; x_range := x_range self;
     y_range := y_range self; z_range := z_range self; env := env self;
     error_log := error_log self;
     create_new_pool_calls := create_new_pool_calls self |}.

Definition set_bin_qnt (self : MAPElites) (v : nat * nat) : MAPElites :=
  {| feasible_fitnesses := feasible_fitnesses self;
     behavior_descriptors := behavior_descriptors self; emitter := emitter self;
     agent := agent self; agent_rewards := agent_rewards self;
     estimator := estimator self; buffer := buffer self; nsc := nsc self; bin_qnt := v;
     bin_sizes := bin_sizes self; bins := bins self; enforce_qnt := enforce_qnt self;
     hull_builder := hull_builder self; max_f_fitness := max_f_fitness self;
     infeas_fitness_idx := infeas_fitness_idx self;
     allow_res_increase := allow_res_increase self; allow_aging := allow_aging self;
     n_new_solutions := n_new_solutions self; x_range := x_range self;
     y_range := y_range self; z_range := z_range self; env := env self;
     error_log := error_log self;
     create_new_pool_calls := create_new_pool_calls self |}.

Definition set_bin_sizes (self : MAPElites) (v : list Q * list Q) : MAPElites :=
  {| feasible_fitnesses := feasible_fitnesses self;
     behavior_descriptors := behavior_descriptors self; emitter := emitter self;
     agent := agent self; agent_rewards := agent_rewards self;
     estimator := estimator self; buffer := buffer self; nsc := nsc self;
     bin_qnt := bin_qnt self; bin_sizes := v; bins := bins self;
     enforce_qnt := enforce_qnt self; hull_builder := hull_builder self;
     max_f_fitness := max_f_fitness self;
     infeas_fitness_idx := infeas_fitness_idx self;
     allow_res_increase := allow_res_increase self; allow_aging := allow_aging self;
     n_new_solutions := n_new_solutions self; x_range := x_range self;
     y_range := y_range self; z_range := z_range self; env := env self;
     error_log := error_log self;
     create_new_pool_calls := create_new_pool_calls self |}.

Definition set_bins (self : MAPElites) (v : Grid) : MAPElites :=
  {| feasible_fitnesses := feasible_fitnesses self;
     behavior_descriptors := behavior_descriptors self; emitter := emitter self;
     agent := agent self; agent_rewards := agent_rewards self;
     estimator := estimator self; buffer := buffer self; nsc := nsc self;
     bin_qnt := bin_qnt self; bin_sizes := bin_sizes self; bins := v;
     enforce_qnt := enforce_qnt self; hull_builder := hull_builder self;
     max_f_fitness := max_f_fitness self;
     infeas_fitness_idx := infeas_fitness_idx self;
     allow_res_increase := allow_res_increase self; allow_aging := allow_aging self;
     n_new_solutions := n_new_solutions self; x_range := x_range self;
     y_range := y_range self; z_range := z_range self; env := env self;
     error_log := error_log self;
     create_new_pool_calls := create_new_pool_calls self |}.

Definition set_infeas_fitness_idx (self : MAPElites) (v : Z) : MAPElites :=
  {| feasible_fitnesses := feasible_fitnesses self;
     behavior_descriptors := behavior_descriptors self; emitter := emitter self;
     agent := agent self; agent_rewards := agent_rewards self;
     estimator := estimator self; buffer := buffer self; nsc := nsc self;
     bin_qnt := bin_qnt self; bin_sizes := bin_sizes self; bins := bins self;
     enforce_qnt := enforce_qnt self; hull_builder := hull_builder self;
     max_f_fitness := max_f_fitness self; infeas_fitness_idx := v;
     allow_res_increase := allow_res_increase self; allow_aging := allow_aging self;
     n_new_solutions := n_new_solutions self; x_range := x_range self;
     y_range := y_range self; z_range := z_range self; env := env self;
     error_log := error_log self;
     create_new_pool_calls := create_new_pool_calls self |}.

Definition set_n_new_solutions (self : MAPElites) (v : nat) : MAPElites :=
  {| feasible_fitnesses := feasible_fitnesses self;
     behavior_descriptors := behavior_descriptors self; emitter := emitter self;
     agent := agent self; agent_rewards := agent_rewards self;
     estimator := estimator self; buffer := buffer self; nsc := nsc self;
     bin_qnt := bin_qnt self; bin_sizes := bin_sizes self; bins := bins self;
     enforce_qnt := enforce_qnt self; hull_builder := hull_builder self;
     max_f_fitness := max_f_fitness self;
     infeas_fitness_idx := infeas_fitness_idx self;
     allow_res_increase := allow_res_increase self; allow_aging := allow_aging self;
     n_new_solutions := v; x_range := x_range self; y_range := y_range self;
     z_range := z_range self; env := env self; error_log := error_log self;
     create_new_pool_calls := create_new_pool_calls self |}.

Definition set_env (self : MAPElites) (v : Env) : MAPElites :=
  {| feasible_fitnesses := feasible_fitnesses self;
     behavior_descriptors := behavior_descriptors self; emitter := emitter self;
     agent := agent self; agent_rewards := agent_rewards self;
     estimator := estimator self; buffer := buffer self; nsc := nsc self;
     bin_qnt := bin_qnt self; bin_sizes := bin_sizes self; bins := bins self;
     enforce_qnt := enforce_qnt self; hull_builder := hull_builder self;
     max_f_fitness := max_f_fitness self;
     infeas_fitness_idx := infeas_fitness_idx self;
     allow_res_increase := allow_res_increase self; allow_aging := allow_aging self;
     n_new_solutions := n_new_solutions self; x_range := x_range self;
     y_range := y_range self; z_range := z_range self; env := v;
     error_log := error_log self;
     create_new_pool_calls := create_new_pool_calls self |}.

Definition set_error_log (self : MAPElites) (v : list String.string) : MAPElites :=
  {| feasible_fitnesses := feasible_fitnesses self;
     behavior_descriptors := behavior_descriptors self; emitter := emitter self;
     agent := agent self; agent_rewards := agent_rewards self;
     estimator := estimator self; buffer := buffer self; nsc := nsc self;
     bin_qnt := bin_qnt self; bin_sizes := bin_sizes self; bins := bins self;
     enforce_qnt := enforce_qnt self; hull_builder := hull_builder self;
     max_f_fitness := max_f_fitness self;
     infeas_fitness_idx := infeas_fitness_idx self;
     allow_res_increase := allow_res_increase self; allow_aging := allow_aging self;
     n_new_solutions := n_new_solutions self; x_range := x_range self;
     y_range := y_range self; z_range := z_range self; env := env self; error_log := v;
     create_new_pool_calls := create_new_pool_calls self |}.

Definition set_create_new_pool_calls (self : MAPElites) (v : list (list CandidateSolution * nat * nat * bool)) : MAPElites :=
  {| feasible_fitnesses := feasible_fitnesses self;
     behavior_descriptors := behavior_descriptors self; emitter := emitter self;
     agent := agent self; agent_rewards := agent_rewards self;
     estimator := estimator self; buffer := buffer self; nsc := nsc self;
     bin_qnt := bin_qnt self; bin_sizes := bin_sizes self; bins := bins self;
     enforce_qnt := enforce_qnt self; hull_builder := hull_builder self;
     max_f_fitness := max_f_fitness self;
     infeas_fitness_idx := infeas_fitness_idx self;
     allow_res_increase := allow_res_increase self; allow_aging := allow_aging self;
     n_new_solutions := n_new_solutions self; x_range := x_range self;
     y_range := y_range self; z_range := z_range self; env := env self;
     error_log := error_log self; create_new_pool_calls := v |}.

(** *** Fitness *)

Definition isinstance (e : Estimator) (k : EstimatorKind) : bool :=
  match kind e, k with
  | GaussianEstimator, GaussianEstimator
  | MLPEstimator, MLPEstimator
  | QuantileEstimator, QuantileEstimator => true
  | _, _ => false
  end.

(** [MAPElites.compute_fitness], a call that mutates [cs]. *)
Definition compute_fitness (self : MAPElites) : M CandidateSolution Q :=
  cs <- get ;;
  if is_feasible cs then
    modify (fun c => cs_set_fitness c (List.map (fun fit => f fit cs) (feasible_fitnesses self))) ;;
    modify (fun c => cs_set_representation c (fitness c)) ;;
    s <- lift (content cs) ;;
    let '(x, y, z) := _max_dims s in
    rx <- lift (py_div (inject_Z x) MAX_X_SIZE) ;;
    ry <- lift (py_div (inject_Z y) MAX_Y_SIZE) ;;
    rz <- lift (py_div (inject_Z z) MAX_Z_SIZE) ;;
    modify (fun c => cs_set_representation c (representation c ++ [rx; ry; rz])) ;;
    c <- get ;;
    ret (py_sum (List.map (fun '(fit, v) => (weight fit * v)%Q)
                          (combine (feasible_fitnesses self) (fitness c))))
  else
    modify (fun c => cs_set_representation c
                       [box_filling_fitness cs; func_blocks_fitness cs;
                        mame_fitness cs; mami_fitness cs]) ;;
    match estimator self with
    | Some est =>
        if isinstance est GaussianEstimator then
          c <- get ;;
          ret (if is_trained est then predict est (representation c) else EPSILON_F)
        else if USE_TORCH && isinstance est MLPEstimator then
          c <- get ;;
          ret (if is_trained est then predict est (representation c) else EPSILON_F)
        else if USE_TORCH && isinstance est QuantileEstimator then
          if is_trained est then
            modify (fun c => cs_set_fitness c (predict_quantiles est (representation c))) ;;
            c <- get ;;
            lift (py_index (fitness c) (infeas_fitness_idx self))
          else
            modify (fun c => cs_set_fitness c [EPSILON_F; EPSILON_F; EPSILON_F]) ;;
            c <- get ;;
            lift (py_index (fitness c) (infeas_fitness_idx self))
        else raise (NotImplementedError "Unrecognized estimator type.")
    | None => ret (inject_Z (ncv cs))
    end.

(** The estimator is of a class [compute_fitness] dispatches on: a
    Gaussian estimator, or, with torch, an MLP or a quantile estimator. *)
Definition supported (est : Estimator) : Prop :=
  kind est = GaussianEstimator
  \/ (USE_TORCH = true /\ (kind est = MLPEstimator \/ kind est = QuantileEstimator)).

(** The representation [compute_fitness] gives an infeasible solution. *)
Definition proxy_representation (cs : CandidateSolution) : list Q :=
  [box_filling_fitness cs; func_blocks_fitness cs; mame_fitness cs; mami_fitness cs].

(** [MAPElites._set_behavior_descriptors]. *)
Definition _set_behavior_descriptors (self : MAPElites) : M CandidateSolution unit :=
  modify (fun c => cs_set_b_descs c (func (fst (behavior_descriptors self)) c,
                                     func (snd (behavior_descriptors self)) c)).

(** [MAPElites._assign_fitness]. *)
Definition _assign_fitness (self : MAPElites) : M CandidateSolution unit :=
  v <- compute_fitness self ;;
  modify (fun c => cs_set_c_fitness c
            (v + (if is_feasible c then nsc self - inject_Z (ncv c) else 0))%Q) ;;
  _set_behavior_descriptors self ;;
  modify (fun c => cs_set_age c CS_MAX_AGE).

(** [MAPElites._prepare_cs_content]. *)
Definition _prepare_cs_content (self : MAPElites) (add_hull : bool)
  : M CandidateSolution unit :=
  (if hull_builder self && add_hull
   then c <- get ;; s <- lift (content c) ;;
        modify (fun c => cs_set_content c (Some (add_external_hull s)))
   else ret tt) ;;
  c <- get ;; s <- lift (content c) ;;
  modify (fun c => cs_set_content c (Some (set_color_and_rotate s))) ;;
  c <- get ;; s <- lift (content c) ;;
  modify (fun c => cs_set_content_size c (_max_dims s)).

(** [MAPElites._within_range]. *)
Definition _within_range (self : MAPElites) (cs : CandidateSolution) : bool :=
  let '(d0, d1, d2) :=
    match _content cs with
    | Some s => _max_dims s
    | None => content_size cs
    end in
  ((fst (x_range self) <=? d0) && (d0 <=? snd (x_range self))
   && (fst (y_range self) <=? d1) && (d1 <=? snd (y_range self))
   && (fst (z_range self) <=? d2) && (d2 <=? snd (z_range self)))%Z.

(** *** Bin bookkeeping *)

Definition modify_bins (g : Grid -> Grid) : M MAPElites unit :=
  modify (fun self => set_bins self (g (bins self))).

(** Lower bound of a behavior descriptor, [b_desc.bounds[0]]; subscripting
    [None] is a [TypeError]. *)
Definition lower_bound (bc : BehaviorCharacterization) : PyResult Q :=
  match bc_bounds bc with
  | Some b => Return (fst b)
  | None => Raise TypeError
  end.

(** [numpy.cumsum([0] + sizes[:-1]) + lower]. *)
Definition boundaries (sizes : list Q) (lower : Q) : list Q :=
  List.map (fun c => (c + lower)%Q) (cumsum (0%Q :: removelast sizes)).

(** [numpy.digitize(x=[v], bins=bc, right=False)[0] - 1]. *)
Definition bin_index (v : Q) (bc : list Q) : Z := (Z.of_nat (digitize v bc) - 1)%Z.

(** [self.bins[i, j].insert_cs(cs)]. *)
Definition insert_at (idx : Z * Z) (cs : CandidateSolution) : M MAPElites unit :=
  self <- get ;;
  k <- lift (grid_position (bins self) idx) ;;
  match flat (bins self) !! k with
  | Some b => modify_bins (fun g => grid_set g k (insert_cs cs b))
  | None => raise IndexError
  end.

(** [MAPElites._update_bins]. *)
Definition _update_bins (lcs : list CandidateSolution) : M MAPElites unit :=
  self <- get ;;
  lower0 <- lift (lower_bound (fst (behavior_descriptors self))) ;;
  let bc0 := boundaries (fst (bin_sizes self)) lower0 in
  lower1 <- lift (lower_bound (snd (behavior_descriptors self))) ;;
  let bc1 := boundaries (snd (bin_sizes self)) lower1 in
  for_each lcs (fun cs =>
    let '(b0, b1) := b_descs cs in
    insert_at (bin_index b0 bc0, bin_index b1 bc1) cs) ;;
  if allow_aging self then modify_bins (fun g => grid_map g remove_old) else ret tt.

(** [MAPElites._age_bins]. *)
Definition _age_bins (diff : Z) : M MAPElites unit :=
  self <- get ;;
  if allow_aging self then modify_bins (fun g => grid_map g (MAPBin_age diff)) else ret tt.

(** [MAPElites._valid_bins]. *)
Definition _valid_bins (self : MAPElites) : list MAPBin :=
  List.filter (fun cbin => 0 <? length (_feasible cbin)) (flat (bins self)).

(** *** Resolution increase *)

(** Every archived solution, bin by bin, feasible before infeasible. *)
Definition all_solutions (g : Grid) : list CandidateSolution :=
  flat_map (fun cbin => _feasible cbin ++ _infeasible cbin) (flat g).

(** The bin sizes of one axis after the bin at [i], of size [v], is split:
    [sizes[i] = v / 2] followed by [sizes.insert(i + 1, v / 2)]. *)
Definition split_sizes (sizes : list Q) (i : nat) (v : Q) : list Q :=
  py_insert (<[i := (v / 2)%Q]> sizes) (i + 1) (v / 2)%Q.

(** The old cell whose [new_elite] the new cell [(m, n)] copies. *)
Definition elite_source (i j m n : nat) : nat * nat :=
  if negb (m =? i + 1) || negb (n =? j + 1)
  then (if m <=? i then m else m - 1, if n <=? j then n else n - 1)
  else (i, j).

(** One cell of the new bin map. *)
Definition new_bin (self : MAPElites) (old_bins : Grid) (i j : nat) (v : Q * Q)
           (mn : nat * nat) : PyResult MAPBin :=
  let '(m, n) := mn in
  match py_index (fst (bin_sizes self)) (Z.of_nat m),
        py_index (snd (bin_sizes self)) (Z.of_nat n),
        grid_get old_bins (Zidx (elite_source i j m n)) with
  | Return s0, Return s1, Return old =>
      Return (set_new_elite (MAPBin_init (m, n) (s0, s1) (Some v)) (new_elite old))
  | _, _, _ => Raise IndexError
  end.

(** [if isinstance(self.emitter, HumanPrefMatrixEmitter):
    self.emitter._increase_preferences_res(idx=bin_idx)]. *)
Definition increase_preferences (idx : nat * nat) : M MAPElites unit :=
  self <- get ;;
  match emitter self with
  | Some em =>
      if is_HumanPrefMatrixEmitter em
      then modify (fun self => set_emitter self (Some (_increase_preferences_res em idx)))
      else ret tt
  | None => ret tt
  end.

(** The archive [subdivide_range] has built when it starts re-inserting
    the solutions: new bin sizes, one more bin on each axis, and the new
    bin map [cells]. *)
Definition regridded (self : MAPElites) (i j : nat) (v_i v_j : Q) (cells : list MAPBin)
  : MAPElites :=
  let resized := set_bin_sizes self (split_sizes (fst (bin_sizes self)) i v_i,
                                     split_sizes (snd (bin_sizes self)) j v_j) in
  let counted := set_bin_qnt resized (fst (bin_qnt resized) + 1, snd (bin_qnt resized) + 1) in
  set_bins counted {| shape := bin_qnt counted; flat := cells |}.

(** [MAPElites.subdivide_range]. *)
Definition subdivide_range (idx : nat * nat) : M MAPElites unit :=
  let '(i, j) := idx in
  self <- get ;;
  let all_cs := all_solutions (bins self) in
  v_i <- lift (py_index (fst (bin_sizes self)) (Z.of_nat i)) ;;
  v_j <- lift (py_index (snd (bin_sizes self)) (Z.of_nat j)) ;;
  modify (fun self => set_bin_sizes self (split_sizes (fst (bin_sizes self)) i v_i,
                                          split_sizes (snd (bin_sizes self)) j v_j)) ;;
  modify (fun self => set_bin_qnt self (fst (bin_qnt self) + 1, snd (bin_qnt self) + 1)) ;;
  self <- get ;;
  cells <- lift (map_result (new_bin self (bins self) i j (v_i, v_j))
                            (ndindex (fst (bin_qnt self)) (snd (bin_qnt self)))) ;;
  modify (fun self => set_bins self {| shape := bin_qnt self; flat := cells |}) ;;
  _update_bins all_cs ;;
  increase_preferences idx.

(** The bins that have reached capacity in both populations and may be
    subdivided (the comprehension of [_check_res_trigger]). *)
Definition to_increase_res (self : MAPElites) : list (nat * nat) :=
  List.map bin_idx
    (List.filter (fun cbin => (BIN_POP_SIZE <=? length (_feasible cbin))
                              && (BIN_POP_SIZE <=? length (_infeasible cbin))
                              && subdividable cbin)
                 (flat (bins self))).

(** [MAPElites._check_res_trigger]. *)
Definition _check_res_trigger : M MAPElites (list (nat * nat)) :=
  self <- get ;;
  if allow_res_increase self then
    let triggered := to_increase_res self in
    for_each (rev triggered) subdivide_range ;;
    ret triggered
  else ret [].

(** [MAPElites._process_expanded_idxs]. *)
Definition _process_expanded_idxs (expanded_idxs selected_idxs : list (Z * Z))
  : list (Z * Z) :=
  let processed_idxs :=
    selected_idxs ++
    flat_map (fun '(m, n) =>
      flat_map (fun '(i, j) =>
        (if (m =? i)%Z then [((m + 1)%Z, n)] else [])
        ++ (if (n =? j)%Z then [(m, (n + 1)%Z)] else [])
        ++ (if ((m =? i) && (n =? j))%Z then [((m + 1)%Z, (n + 1)%Z)] else []))
        expanded_idxs) selected_idxs in
  List.map (fun '(m, n) =>
    let lm := length (List.filter (fun e => (fst e <? m)%Z) expanded_idxs) in
    let ln := length (List.filter (fun e => (snd e <? n)%Z) expanded_idxs) in
    ((m + Z.of_nat lm)%Z, (n + Z.of_nat ln)%Z)) processed_idxs.

(** *** One generation of FI-2Pop *)

(** A call to a collaborator that draws on the outside world. *)
Definition with_env {A} (call : Env -> Env * A) : M MAPElites A :=
  fun self => let '(env', a) := call (env self) in (set_env self env', Return a).

Definition log_error (msg : String.string) : M MAPElites unit :=
  modify (fun self => set_error_log self (error_log self ++ [msg])).

(** A method run on each of a list of freshly made objects. *)
Definition on_each_new {S} (method : M S unit) (l : list S) : M MAPElites (list S) :=
  match on_each method l with
  | (l', Return _) => ret l'
  | (_, Raise e) => raise e
  | (_, OutOfFuel) => lift OutOfFuel
  end.

(** The [minimize] argument [_step] passes to [create_new_pool]:
    [False if pop[0].is_feasible else False if self.estimator is not None
    else True]. *)
Definition minimize_flag (self : MAPElites) (first : CandidateSolution) : bool :=
  if is_feasible first then false
  else match estimator self with
       | Some _ => false
       | None => true
       end.

(** [create_new_pool(population=pop, generation=gen, n_individuals=n,
    minimize=minimize)]: the call is noted, then made. *)
Definition call_create_new_pool (pop : list CandidateSolution) (gen n : nat)
           (minimize : bool) : M MAPElites (list CandidateSolution) :=
  modify (fun self => set_create_new_pool_calls self
            (create_new_pool_calls self ++ [(pop, gen, n, minimize)])) ;;
  created <- with_env (create_new_pool pop gen n minimize) ;;
  lift created.

(** Body of [for pop in populations] in [_step]: what the population adds
    to [generated].  The two [Parallel] maps are run in list order. *)
Definition generate_from (pop : list CandidateSolution) (gen : nat)
  : M MAPElites (list CandidateSolution) :=
  match pop with
  | [] => ret []
  | first :: _ =>
      try_except_EvoException
        (self <- get ;;
         let minimize := minimize_flag self first in
         new_pool <- call_create_new_pool pop gen BIN_POP_SIZE minimize ;;
         let new_pool := List.map _add_ll_strings new_pool in
         let new_pool := List.map _set_structure new_pool in
         let new_pool := subdivide_solutions new_pool in
         new_pool <- on_each_new (_prepare_cs_content self true) new_pool ;;
         on_each_new (_assign_fitness self) new_pool)
        (fun msg => log_error msg ;; ret [])
  end.

Fixpoint generate_all (populations : list (list CandidateSolution)) (gen : nat)
         (generated : list CandidateSolution) : M MAPElites (list CandidateSolution) :=
  match populations with
  | [] => ret generated
  | pop :: rest =>
      new_pool <- generate_from pop gen ;;
      generate_all rest gen (generated ++ new_pool)
  end.

(** [train_estimator]: without torch it is the stub that raises. *)
Definition train_estimator (est : Estimator) (xs : list (list Q)) (ys : list Q)
  : M MAPElites unit :=
  if USE_TORCH
  then modify (fun self => set_estimator self (Some (fit est xs ys)))
  else raise (NotImplementedError "This function should never be called").

(** Re-evaluation of one archived infeasible solution during realignment. *)
Definition realign_cs (self : MAPElites) : M CandidateSolution unit :=
  c <- get ;;
  if (ALIGNMENT_INTERVAL <? age c)%Z then
    (match _content c with
     | None => modify _set_structure
     | Some _ => ret tt
     end) ;;
    _prepare_cs_content self true ;;
    v <- compute_fitness self ;;
    modify (fun c => cs_set_c_fitness c v)
  else ret tt.

Definition realign_bin (self : MAPElites) : M MAPBin unit :=
  fun cbin =>
    let '(infeas, r) := on_each (realign_cs self) (_infeasible cbin) in
    (set_populations cbin (_feasible cbin) infeas, r).

Definition realign : M MAPElites unit :=
  fun self =>
    let '(cells, r) := on_each (realign_bin self) (flat (bins self)) in
    (set_bins self {| shape := shape (bins self); flat := cells |}, r).

(** The estimator part of [_step]: buffer filling, training, realignment. *)
Definition update_estimator (est : Estimator) (generated : list CandidateSolution)
           (gen : nat) : M MAPElites unit :=
  for_each (prepare_dataset (List.filter is_feasible generated))
    (fun '(x, y) =>
       self <- get ;;
       target <- lift (py_div y (max_f_fitness self)) ;;
       modify (fun self => set_buffer self (buffer_insert (buffer self) x target))) ;;
  self <- get ;;
  (match buffer_get (buffer self) with
   | Some (xs, ys) =>
       if isinstance est GaussianEstimator
       then modify (fun self => set_estimator self (Some (fit est xs ys)))
       else if (USE_TORCH && isinstance est MLPEstimator) || isinstance est QuantileEstimator
       then train_estimator est xs ys
       else raise (NotImplementedError "Unrecognized estimator type.")
   | None => ret tt
   end) ;;
  self <- get ;;
  match estimator self with
  | Some est' =>
      if is_trained est' then
        if (ALIGNMENT_INTERVAL =? 0)%Z then raise ZeroDivisionError
        else if (Z.of_nat gen mod ALIGNMENT_INTERVAL =? 0)%Z then realign
        else ret tt
      else ret tt
  | None => ret tt
  end.

(** What [_step] does once the offspring of all populations are in
    [generated]: range filter, estimator update, bookkeeping. *)
Definition finish_step (generated : list CandidateSolution) (gen : nat)
  : M MAPElites (list CandidateSolution) :=
  self <- get ;;
  let generated := List.filter (_within_range self) generated in
  (match estimator self with
   | Some est => update_estimator est generated gen
   | None => ret tt
   end) ;;
  modify (fun self => set_n_new_solutions self (n_new_solutions self + length generated)) ;;
  ret generated.

(** [MAPElites._step]. *)
Definition _step (populations : list (list CandidateSolution)) (gen : nat)
  : M MAPElites (list CandidateSolution) :=
  generated <- generate_all populations gen [] ;;
  finish_step generated gen.

(** The archive once the call [create_new_pool(pop, gen, BIN_POP_SIZE,
    minimize)] has been noted. *)
Definition note_call (self : MAPElites) (pop : list CandidateSolution) (gen : nat)
           (minimize : bool) : MAPElites :=
  set_create_new_pool_calls self
    (create_new_pool_calls self ++ [(pop, gen, BIN_POP_SIZE, minimize)]).

(** The archive after [_step] has caught the [EvoException] with message
    [msg] that [create_new_pool] raised on [pop], leaving the outside
    world in state [env']. *)
Definition after_EvoException (self : MAPElites) (pop : list CandidateSolution)
           (first : CandidateSolution) (gen : nat) (env' : Env) (msg : String.string)
  : MAPElites :=
  let noted := set_env (note_call self pop gen (minimize_flag self first)) env' in
  set_error_log noted (error_log noted ++ [msg]).

(** The calls to [create_new_pool] that [_step] is to make for its
    populations: one for each non-empty population, in order. *)
Definition expected_call (self : MAPElites) (gen : nat) (pop : list CandidateSolution)
  : list (list CandidateSolution * nat * nat * bool) :=
  match pop with
  | [] => []
  | first :: _ => [(pop, gen, BIN_POP_SIZE, minimize_flag self first)]
  end.

Definition expected_calls (self : MAPElites) (gen : nat)
           (populations : list (list CandidateSolution))
  : list (list CandidateSolution * nat * nat * bool) :=
  flat_map (expected_call self gen) populations.

(** The direction of optimisation a call asks for is the one stated for
    its population: maximise a feasible population; minimise an infeasible
    one exactly when no estimator is configured. *)
Definition direction_as_stated (self : MAPElites)
           (call : list CandidateSolution * nat * nat * bool) : Prop :=
  let '(pop, _, _, minimize) := call in
  exists first rest,
    pop = first :: rest
    /\ (is_feasible first = true -> minimize = false)
    /\ (is_feasible first = false -> (minimize = true <-> estimator self = None))
    /\ (is_feasible first = false -> estimator self <> None -> minimize = false).

(** The outside world once the calls [calls] to [create_new_pool] have
    been made on it, one after the other. *)
Definition world_after_calls (calls : list (list CandidateSolution * nat * nat * bool))
           (e : Env) : Env :=
  fold_left (fun e '(pop, gen, n, minimize) => fst (create_new_pool pop gen n minimize e))
            calls e.

(** What is left of the body of [for pop in populations] once
    [create_new_pool] has answered [created]: the offspring are completed,
    marked, prepared and scored, and an [EvoException] is logged. *)
Definition offspring_of (self : MAPElites) (created : PyResult (list CandidateSolution))
  : M MAPElites (list CandidateSolution) :=
  try_except_EvoException
    (new_pool <- lift created ;;
     let new_pool := List.map _add_ll_strings new_pool in
     let new_pool := List.map _set_structure new_pool in
     let new_pool := subdivide_solutions new_pool in
     new_pool <- on_each_new (_prepare_cs_content self true) new_pool ;;
     on_each_new (_assign_fitness self) new_pool)
    (fun msg => log_error msg ;; ret []).

(** *** Step entry points *)

(** [random.choice(l)]: an empty sequence is an [IndexError]. *)
Definition random_choice {A} (l : list A) : M MAPElites A :=
  match l with
  | [] => raise IndexError
  | a :: _ =>
      k <- with_env (random_below (length l)) ;;
      ret (nth (k mod length l) l a)
  end.

(** What happens after [_step] in [rand_step] and [emitter_step]. *)
Definition archive_generated (generated : list CandidateSolution)
  : M MAPElites (list (nat * nat)) :=
  _update_bins generated ;;
  _check_res_trigger.

(** [MAPElites.rand_step]. *)
Definition rand_step (gen : nat) : M MAPElites unit :=
  _age_bins (-1) ;;
  self <- get ;;
  rnd_bin <- random_choice (_valid_bins self) ;;
  generated <- _step [_feasible rnd_bin; _infeasible rnd_bin] gen ;;
  match generated with
  | _ :: _ => archive_generated generated ;; ret tt
  | [] => _age_bins 1
  end.

(** The eight neighbour offsets of [seek_nearest_valid], as written. *)
Definition offsets8 : list (Z * Z) :=
  [(-1, -1); (-1, 0); (-1, 1); (0, -1); (0, 1); (1, -1); (1, 0); (1, 1)]%Z.

Definition in_shape (g : Grid) (idx : Z * Z) : bool :=
  ((0 <=? fst idx) && (fst idx <? Z.of_nat (fst (shape g)))
   && (0 <=? snd idx) && (snd idx <? Z.of_nat (snd (shape g))))%Z.

(** The population of a bin named by [pop]: [feasible] stands for
    [pop == 'feasible'], anything else reads the infeasible one. *)
Definition pool_of (feasible : bool) (cbin : MAPBin) : list CandidateSolution :=
  if feasible then _feasible cbin else _infeasible cbin.

Definition shift (idx offset : Z * Z) : Z * Z :=
  ((fst idx + fst offset)%Z, (snd idx + snd offset)%Z).

(** The in-range neighbours of [idx], in the order of [offsets]. *)
Definition neighbours (g : Grid) (offsets : list (Z * Z)) (idx : Z * Z) : list (Z * Z) :=
  List.filter (in_shape g) (List.map (shift idx) offsets).

(** [for offset in offsets] for one inspected index: the loop stops at the
    first neighbour with a non-empty pool.  [past_idxs] is never added to
    in the source, so [idx not in past_idxs] is always true. *)
Fixpoint seek_offsets (g : Grid) (feasible : bool) (idx : Z * Z) (offsets : list (Z * Z))
         (new_pop : list CandidateSolution) (to_inspect : list (Z * Z))
  : PyResult (list CandidateSolution * list (Z * Z)) :=
  match offsets with
  | [] => Return (new_pop, to_inspect)
  | offset :: rest =>
      let new_idx := ((fst idx + fst offset)%Z, (snd idx + snd offset)%Z) in
      if in_shape g new_idx then
        match grid_get g new_idx with
        | Return cbin =>
            match pool_of feasible cbin with
            | _ :: _ => Return (new_pop ++ pool_of feasible cbin, to_inspect)
            | [] => seek_offsets g feasible idx rest new_pop (to_inspect ++ [new_idx])
            end
        | Raise e => Raise e
        | OutOfFuel => OutOfFuel
        end
      else seek_offsets g feasible idx rest new_pop to_inspect
  end.

(** [for idx in inspecting]. *)
Fixpoint seek_inspecting (g : Grid) (feasible : bool) (offsets : list (Z * Z))
         (inspecting : list (Z * Z))
         (new_pop : list CandidateSolution) (to_inspect : list (Z * Z))
  : PyResult (list CandidateSolution * list (Z * Z)) :=
  match inspecting with
  | [] => Return (new_pop, to_inspect)
  | idx :: rest =>
      match seek_offsets g feasible idx offsets new_pop to_inspect with
      | Return (new_pop', to_inspect') =>
          seek_inspecting g feasible offsets rest new_pop' to_inspect'
      | other => other
      end
  end.

(** [while new_pop == []], with [fuel] bounding the number of rounds. *)
Fixpoint seek_loop (fuel : nat) (g : Grid) (feasible : bool) (offsets : list (Z * Z))
         (inspecting : list (Z * Z)) (new_pop : list CandidateSolution)
  : PyResult (list CandidateSolution) :=
  match new_pop with
  | _ :: _ => Return new_pop
  | [] =>
      match fuel with
      | O => OutOfFuel
      | S fuel' =>
          match seek_inspecting g feasible offsets inspecting new_pop [] with
          | Return (new_pop', to_inspect) =>
              match to_inspect with
              | [] => Return new_pop'
              | _ :: _ => seek_loop fuel' g feasible offsets to_inspect new_pop'
              end
          | Raise e => Raise e
          | OutOfFuel => OutOfFuel
          end
      end
  end.

(** [MAPElites.seek_nearest_valid]. *)
Definition seek_nearest_valid (fuel : nat) (bin_idxs : list (Z * Z)) (feasible : bool)
  : M MAPElites (list CandidateSolution) :=
  offsets <- with_env (shuffle_offsets offsets8) ;;
  self <- get ;;
  lift (seek_loop fuel (bins self) feasible offsets bin_idxs []).

(** [for chosen_bin in chosen_bins] of [interactive_step].  A bin is in
    [_valid_bins()] when its own feasible population is non-empty. *)
Fixpoint collect_chosen (enforce : bool) (chosen_bins : list MAPBin)
         (f_pop i_pop : list CandidateSolution)
  : PyResult (list CandidateSolution * list CandidateSolution) :=
  match chosen_bins with
  | [] => Return (f_pop, i_pop)
  | chosen_bin :: rest =>
      if enforce && negb (0 <? length (_feasible chosen_bin))
      then Raise (AssertionError "Bin is not a valid bin.")
      else collect_chosen enforce rest (f_pop ++ _feasible chosen_bin)
                          (i_pop ++ _infeasible chosen_bin)
  end.

(** [MAPElites.interactive_step] (the elapsed time it returns is left out). *)
Definition interactive_step (fuel : nat) (bin_idxs : list (Z * Z)) (gen : nat)
  : M MAPElites unit :=
  _age_bins (-1) ;;
  self <- get ;;
  chosen_bins <- lift (map_result (grid_get (bins self)) bin_idxs) ;;
  pops <- lift (collect_chosen (enforce_qnt self) chosen_bins [] []) ;;
  let '(f_pop, i_pop) := pops in
  i_pop <- (match i_pop with
            | [] => seek_nearest_valid fuel bin_idxs false
            | _ :: _ => ret i_pop
            end) ;;
  generated <- _step [f_pop; i_pop] gen ;;
  expanded_idxs <- (match generated with
                    | _ :: _ =>
                        expanded <- archive_generated generated ;;
                        ret (_process_expanded_idxs (List.map Zidx expanded) bin_idxs)
                    | [] => _age_bins 1 ;; ret []
                    end) ;;
  self <- get ;;
  match emitter self with
  | Some em =>
      if requires_pre em
      then modify (fun self => set_emitter self
                                 (Some (pre_step em (bins self) bin_idxs expanded_idxs)))
      else ret tt
  | None => ret tt
  end.

(** *** Rewards *)

Definition all_feasible (g : Grid) : list CandidateSolution :=
  flat_map _feasible (flat g).

(** [coverage_reward]. *)
Definition coverage_reward (self : MAPElites) : PyResult Q :=
  let tot_coverage := fst (shape (bins self)) * snd (shape (bins self)) in
  let inc_coverage :=
    length (List.filter (fun map_bin => existsb (fun cs => (age cs =? CS_MAX_AGE)%Z)
                                                (_feasible map_bin))
                        (flat (bins self))) in
  py_div (inject_Z (Z.of_nat inc_coverage)) (inject_Z (Z.of_nat tot_coverage)).

(** Body of the inner loop of [fitness_reward] on the pair
    [(prev_best, current_best)]. *)
Definition fitness_reward_visit (bests : Q * Q) (cs : CandidateSolution) : Q * Q :=
  let '(prev_best, current_best) := bests in
  if (age cs =? CS_MAX_AGE)%Z && Qltb prev_best (c_fitness cs)
  then (prev_best, c_fitness cs)
  else if negb (age cs =? CS_MAX_AGE)%Z && Qltb prev_best (c_fitness cs)
  then (c_fitness cs, current_best)
  else bests.

(** [prev_best] and [current_best] when the loops of [fitness_reward] end. *)
Definition fitness_reward_bests (self : MAPElites) : Q * Q :=
  fold_left fitness_reward_visit (all_feasible (bins self)) (0%Q, 0%Q).

(** [fitness_reward]. *)
Definition fitness_reward (self : MAPElites) : PyResult Q :=
  let '(prev_best, current_best) := fitness_reward_bests self in
  let fit_diff := (current_best - prev_best)%Q in
  py_div fit_diff prev_best.

Definition call_reward (r : RewardFunction) (self : MAPElites) : PyResult Q :=
  match r with
  | coverage_reward_function => coverage_reward self
  | fitness_reward_function => fitness_reward self
  end.

(** [sum([f(self) for f in self.agent_rewards])]. *)
Definition total_reward (self : MAPElites) : PyResult Q :=
  match map_result (fun r => call_reward r self) (agent_rewards self) with
  | Return rewards => Return (py_sum rewards)
  | Raise e => Raise e
  | OutOfFuel => OutOfFuel
  end.

(** *** Emitter step *)

(** [cs.c_fitness = cs.fitness[self.infeas_fitness_idx]]. *)
Definition select_quantile (idx : Z) : M CandidateSolution unit :=
  c <- get ;;
  v <- lift (py_index (fitness c) idx) ;;
  modify (fun c => cs_set_c_fitness c v).

Definition select_quantile_bin (idx : Z) : M MAPBin unit :=
  fun cbin =>
    let '(infeas, r) := on_each (select_quantile idx) (_infeasible cbin) in
    (set_populations cbin (_feasible cbin) infeas, r).

(** The bin [rescored] is the bin [cbin] with every infeasible solution
    given the composite fitness [cs.fitness[idx]] and nothing else
    changed. *)
Definition rescored_bin (idx : Z) (cbin rescored : MAPBin) : Prop :=
  rescored = set_populations cbin (_feasible cbin) (_infeasible rescored)
  /\ Forall2 (fun cs cs' => exists v, py_index (fitness cs) idx = Return v
                                       /\ cs' = cs_set_c_fitness cs v)
             (_infeasible cbin) (_infeasible rescored).

(** The agent part of [emitter_step]: emitter and merge method are set
    from the chosen bandit and the archived infeasible solutions
    re-scored. *)
Definition apply_bandit (bandit : String.string * String.string) : M MAPElites unit :=
  let '(emitter_str, method_str) := bandit in
  modify (fun self => set_emitter self (Some (get_emitter_by_str emitter_str))) ;;
  (if String.eqb method_str "max" then modify (fun self => set_infeas_fitness_idx self 0)
   else if String.eqb method_str "median" then modify (fun self => set_infeas_fitness_idx self 1)
   else if String.eqb method_str "min" then modify (fun self => set_infeas_fitness_idx self 2)
   else raise (NotImplementedError "Unrecognized merge method from bandit action.")) ;;
  fun self =>
    let '(cells, r) := on_each (select_quantile_bin (infeas_fitness_idx self))
                               (flat (bins self)) in
    (set_bins self {| shape := shape (bins self); flat := cells |}, r).

(** The populations and the starting points of the neighbour search read
    off the emitter's selection. *)
Definition selected_populations (sel : Selection)
  : PyResult (list CandidateSolution * list CandidateSolution * list (Z * Z)) :=
  match sel with
  | SelectedBins selected =>
      Return (flat_map _feasible selected, flat_map _infeasible selected,
              List.map (fun b => Zidx (bin_idx b)) selected)
  | SelectedPair for_feasible for_infeasible =>
      Return (flat_map _feasible for_feasible, flat_map _infeasible for_infeasible,
              List.map (fun b => Zidx (bin_idx b)) for_infeasible)
  | SelectedOther => Raise (NotImplementedError "Unrecognized emitter output.")
  end.

(** Truth value of the emitter's selection. *)
Definition selection_truthy (sel : Selection) : bool :=
  match sel with
  | SelectedBins [] => false
  | _ => true
  end.

(** [MAPElites.emitter_step] (the elapsed time it returns is left out). *)
Definition emitter_step (fuel : nat) (gen : nat) : M MAPElites unit :=
  self <- get ;;
  match agent self, emitter self with
  | None, None =>
      raise (AssertionError "MAP-Elites requires either a fixed emitter or a MultiArmed Bandit Agent, but neither were provided.")
  | _, _ =>
      bandit <- (match agent self with
                 | Some ag =>
                     bandit <- with_env (choose_bandit ag) ;;
                     apply_bandit bandit ;;
                     ret (Some bandit)
                 | None => ret None
                 end) ;;
      self <- get ;;
      match emitter self with
      | None => raise AttributeError
      | Some em =>
          picked <- with_env (pick_bin em (bins self)) ;;
          let '(em', selected_bins) := picked in
          modify (fun self => set_emitter self (Some em')) ;;
          if selection_truthy selected_bins then
            pops <- lift (selected_populations selected_bins) ;;
            let '(fpop, ipop, seek_from) := pops in
            ipop <- (match ipop with
                     | [] => seek_nearest_valid fuel seek_from false
                     | _ :: _ => ret ipop
                     end) ;;
            generated <- _step [fpop; ipop] gen ;;
            (match generated with
             | _ :: _ => archive_generated generated ;; ret tt
             | [] => ret tt
             end) ;;
            self <- get ;;
            (match emitter self with
             | Some em =>
                 if requires_post em
                 then modify (fun self => set_emitter self (Some (post_step em (bins self))))
                 else ret tt
             | None => ret tt
             end) ;;
            self <- get ;;
            match agent self, bandit with
            | Some ag, Some b =>
                reward <- lift (total_reward self) ;;
                modify (fun self => set_agent self (Some (reward_bandit ag b reward)))
            | _, _ => ret tt
            end
          else ret tt
      end
  end.

(** *** Initial populations *)

(** Body of [for cs in solutions] in [generate_initial_populations]: the
    two populations after looking at [cs]. *)
Definition place_initial (self : MAPElites) (pop_size : nat)
           (pops : list CandidateSolution * list CandidateSolution)
           (cs : CandidateSolution)
  : PyResult (list CandidateSolution * list CandidateSolution) :=
  let '(feasible_pop, infeasible_pop) := pops in
  match _prepare_cs_content self false cs with
  | (cs, Return _) =>
      if _within_range self cs then
        if is_feasible cs && (length feasible_pop <? pop_size)
           && negb (cs_in cs feasible_pop)
        then
          let cs := if hull_builder self
                    then cs_set_content cs (option_map add_external_hull (_content cs))
                    else cs in
          match _assign_fitness self cs with
          | (cs, Return _) => Return (feasible_pop ++ [cs], infeasible_pop)
          | (_, Raise e) => Raise e
          | (_, OutOfFuel) => OutOfFuel
          end
        else if negb (is_feasible cs) && (length infeasible_pop <? pop_size)
                && negb (cs_in cs feasible_pop)
        then
          match _assign_fitness self cs with
          | (cs, Return _) => Return (feasible_pop, infeasible_pop ++ [cs])
          | (_, Raise e) => Raise e
          | (_, OutOfFuel) => OutOfFuel
          end
        else Return pops
      else Return pops
  | (_, Raise e) => Raise e
  | (_, OutOfFuel) => OutOfFuel
  end.

Fixpoint place_all_initial (self : MAPElites) (pop_size : nat)
         (solutions : list CandidateSolution)
         (pops : list CandidateSolution * list CandidateSolution)
  : PyResult (list CandidateSolution * list CandidateSolution) :=
  match solutions with
  | [] => Return pops
  | cs :: rest =>
      match place_initial self pop_size pops cs with
      | Return pops' => place_all_initial self pop_size rest pops'
      | other => other
      end
  end.

(** The retry loop of [generate_initial_populations], [retries] iterations
    being left; as in [FI2PopSolver], it ends early only when both
    populations are full. *)
Fixpoint initial_populations_loop (pop_size retries : nat)
         (pops : list CandidateSolution * list CandidateSolution)
  : M MAPElites (list CandidateSolution * list CandidateSolution) :=
  match retries with
  | O => ret pops
  | S retries' =>
      solutions <- with_env (apply_rules true) ;;
      let solutions := subdivide_solutions solutions in
      self <- get ;;
      pops' <- lift (place_all_initial self pop_size solutions pops) ;;
      if (length (fst pops') =? pop_size) && (length (snd pops') =? pop_size)
      then ret pops'
      else initial_populations_loop pop_size retries' pops'
  end.

(** The populations [generate_initial_populations] builds before it
    hands them to the bins. *)
Definition initial_populations (pop_size n_retries : nat)
  : M MAPElites (list CandidateSolution * list CandidateSolution) :=
  initial_populations_loop pop_size n_retries ([], []).

(** [MAPElites.update_elites(reset=False)]. *)
Definition update_elites : M MAPElites unit :=
  modify_bins (fun g => grid_map g (fun b => set_new_elite b (check_new_elite b))).

(** [MAPElites.generate_initial_populations]. *)
Definition generate_initial_populations (pop_size n_retries : nat) : M MAPElites unit :=
  pops <- initial_populations pop_size n_retries ;;
  _update_bins (fst pops ++ snd pops) ;;
  update_elites ;;
  self <- get ;;
  match emitter self with
  | Some em =>
      if requires_init em
      then modify (fun self => set_emitter self (Some (init_emitter em (bins self))))
      else ret tt
  | None => ret tt
  end.

(** *** Runs of steps *)

(** One call of a step entry point by the driver. *)
Inductive StepCall : Type :=
| RandStep (gen : nat)
| InteractiveStep (bin_idxs : list (Z * Z)) (gen : nat)
| EmitterStep (gen : nat).

Definition run_step (fuel : nat) (call : StepCall) : M MAPElites unit :=
  match call with
  | RandStep gen => rand_step gen
  | InteractiveStep bin_idxs gen => interactive_step fuel bin_idxs gen
  | EmitterStep gen => emitter_step fuel gen
  end.

(** The archive after a run of step calls.  A step that raises leaves the
    archive as it was when the exception left it, and the driver may go on
    calling. *)
Fixpoint run_steps (fuel : nat) (calls : list StepCall) (self : MAPElites) : MAPElites :=
  match calls with
  | [] => self
  | call :: rest => run_steps fuel rest (fst (run_step fuel call self))
  end.

(** Number of bins of the archive. *)
Definition bin_count (self : MAPElites) : nat :=
  fst (shape (bins self)) * snd (shape (bins self)).

(** *** Predicates on archives used in the statements *)

(** No feasible individual of an earlier generation (age other than
    [CS_MAX_AGE]) has a positive composite fitness. *)
Definition no_previous_best (self : MAPElites) : bool :=
  forallb (fun cs => (age cs =? CS_MAX_AGE)%Z || Qle_bool (c_fitness cs) 0)
          (all_feasible (bins self)).

(** The grid has as many cells as its shape says. *)
Definition grid_full (g : Grid) : Prop :=
  length (flat g) = fst (shape g) * snd (shape g).

(** The bin tables agree: [bins.shape] is [bin_qnt], there is one bin
    size per index on each axis, and the grid is full. *)
Definition grid_ok (self : MAPElites) : Prop :=
  shape (bins self) = bin_qnt self
  /\ length (fst (bin_sizes self)) = fst (bin_qnt self)
  /\ length (snd (bin_sizes self)) = snd (bin_qnt self)
  /\ grid_full (bins self).

(** [g'] has the shape and the number of cells of [g]. *)
Definition grid_like (g g' : Grid) : Prop :=
  shape g' = shape g /\ length (flat g') = length (flat g).

(** A property of the archive that looks at nothing but [bin_qnt],
    [bin_sizes] and the shape and number of cells of [bins]. *)
Record geometric (P : MAPElites -> Prop) : Prop := {
  geometric_bins : forall s g', P s -> grid_like (bins s) g' -> P (set_bins s g');
  geometric_buffer : forall s v, P s -> P (set_buffer s v);
  geometric_estimator : forall s v, P s -> P (set_estimator s v);
  geometric_emitter : forall s v, P s -> P (set_emitter s v);
  geometric_agent : forall s v, P s -> P (set_agent s v);
  geometric_idx : forall s v, P s -> P (set_infeas_fitness_idx s v);
  geometric_count : forall s v, P s -> P (set_n_new_solutions s v);
  geometric_env : forall s v, P s -> P (set_env s v);
  geometric_log : forall s v, P s -> P (set_error_log s v);
  geometric_calls : forall s v, P s -> P (set_create_new_pool_calls s v)
}.

(** The tables are consistent and the archive has at least [k] bins. *)
Definition at_least (k : nat) (self : MAPElites) : Prop :=
  grid_ok self /\ k <= bin_count self.

(** The tables are consistent, with these bin sizes and bin quantities. *)
Definition geometry_is (sizes : list Q * list Q) (qnt : nat * nat) (self : MAPElites)
  : Prop :=
  grid_ok self /\ bin_sizes self = sizes /\ bin_qnt self = qnt.

(** A bin that holds no solution. *)
Definition empty_bin (cbin : MAPBin) : Prop :=
  _feasible cbin = [] /\ _infeasible cbin = [].

(** Every infeasible population of the grid is empty. *)
Definition no_infeasible (g : Grid) : Prop :=
  Forall (fun cbin => _infeasible cbin = []) (flat g).

(** The solution [cs] is in one of the two populations of some bin of the
    grid. *)
Definition archived (g : Grid) (cs : CandidateSolution) : Prop :=
  exists cbin, In cbin (flat g) /\ (In cs (_feasible cbin) \/ In cs (_infeasible cbin)).

(** [cs in pop] for the population of the bin that takes [cs]: the
    feasible one for a feasible solution, the infeasible one otherwise. *)
Definition bin_holds (cbin : MAPBin) (cs : CandidateSolution) : bool :=
  cs_in cs (if is_feasible cs then _feasible cbin else _infeasible cbin).

(** The index [_update_bins] computes for [cs] from the bin sizes [sizes]
    and the lower bounds [lower] of the two behavior descriptors. *)
Definition target_idx (sizes : list Q * list Q) (lower : Q * Q) (cs : CandidateSolution)
  : Z * Z :=
  (bin_index (fst (b_descs cs)) (boundaries (fst sizes) (fst lower)),
   bin_index (snd (b_descs cs)) (boundaries (snd sizes) (snd lower))).

(** The grid holds [cs] in the bin [bins[idx]]. *)
Definition held_at (g : Grid) (idx : Z * Z) (cs : CandidateSolution) : Prop :=
  exists cbin, grid_get g idx = Return cbin /\ bin_holds cbin cs = true.

End WithCollaborators.

Arguments geometric_bins {_ P}.
Arguments geometric_buffer {_ P}.
Arguments geometric_estimator {_ P}.
Arguments geometric_emitter {_ P}.
Arguments geometric_agent {_ P}.
Arguments geometric_idx {_ P}.
Arguments geometric_count {_ P}.
Arguments geometric_env {_ P}.
Arguments geometric_log {_ P}.
Arguments geometric_calls {_ P}.

End MAPElites.

(** ** A scripted outside world

    A concrete configuration and concrete collaborators on which the
    embedded code can be run: the grammar engine and the genetic operators
    replay a script, and everything else is as plain as its interface
    allows. *)

Module Scenario.

#[local] Instance config : Config :=
  {| CS_MAX_AGE := 5; BIN_POP_SIZE := 2; EPSILON_F := (1 # 100000)%Q;
     ALIGNMENT_INTERVAL := 5; MAX_X_SIZE := 100%Q; MAX_Y_SIZE := 100%Q;
     MAX_Z_SIZE := 100%Q; USE_TORCH := true |}.

(** What the outside world will answer: the batches of [apply_rules], the
    outcomes of [create_new_pool] and the draws of the random generator. *)
Record Script : Type := {
  batches : list (list CandidateSolution);
  pools : list (PyResult (list CandidateSolution));
  draws : list nat
}.

Definition one_block : Structure :=
  {| _blocks := [((0, 0, 0)%Z, "MyObjectBuilder_CubeBlock_LargeBlockArmorBlock"%string)];
     _max_dims := (10, 10, 10)%Z |}.

#[local] Instance world : Collaborators :=
  {| Env := Script;
     apply_rules := fun _ e =>
       ({| batches := tl (batches e); pools := pools e; draws := draws e |},
        hd [] (batches e));
     subdivide_solutions := fun lcs => lcs;
     create_new_pool := fun _ _ _ _ e =>
       ({| batches := batches e; pools := tl (pools e); draws := draws e |},
        hd (Raise (EvoException "No offspring could be generated."%string)) (pools e));
     _add_ll_strings := fun cs => cs;
     _set_structure := fun cs =>
       match _content cs with
       | Some _ => cs
       | None => cs_set_content cs (Some one_block)
       end;
     add_external_hull := fun s => s;
     set_color_and_rotate := fun s => s;
     box_filling_fitness := fun _ => (1 # 2)%Q;
     func_blocks_fitness := fun _ => (1 # 4)%Q;
     mame_fitness := fun _ => (1 # 3)%Q;
     mami_fitness := fun _ => (1 # 5)%Q;
     prepare_dataset := fun pop => List.map (fun cs => (representation cs, c_fitness cs)) pop;
     fit := fun est _ _ =>
       {| kind := kind est; is_trained := true; predict := predict est;
          predict_quantiles := predict_quantiles est |};
     Buffer := list (list Q * Q);
     buffer_insert := fun b x y => b ++ [(x, y)];
     buffer_get := fun b =>
       match b with
       | [] => None
       | _ :: _ => Some (List.map fst b, List.map snd b)
       end;
     subdividable := fun _ => true;
     remove_old_pops := fun feas infeas => (feas, infeas);
     check_new_elite := new_elite;
     random_below := fun _ e =>
       ({| batches := batches e; pools := pools e; draws := tl (draws e) |},
        hd 0 (draws e));
     shuffle_offsets := fun offsets e => (e, offsets);
     Emitter := unit;
     is_HumanPrefMatrixEmitter := fun _ => false;
     requires_init := fun _ => false;
     requires_pre := fun _ => false;
     requires_post := fun _ => false;
     pick_bin := fun em g e => (e, (em, SelectedBins (List.filter
                   (fun b => 0 <? length (_feasible b)) (flat g))));
     init_emitter := fun em _ => em;
     pre_step := fun em _ _ _ => em;
     post_step := fun em _ => em;
     _increase_preferences_res := fun em _ => em;
     get_emitter_by_str := fun _ => tt;
     Agent := unit;
     choose_bandit := fun _ e => (e, ("random-emitter"%string, "median"%string));
     reward_bandit := fun ag _ _ => ag |}.

Import MAPElites.

Definition silence : Script := {| batches := []; pools := []; draws := [] |}.

(** An infeasible and a feasible solution as the grammar engine hands
    them over. *)
Definition infeasible_cs (s : String.string) (violated : Z) : CandidateSolution :=
  {| string := s; _content := Some one_block; age := 0%Z; b_descs := (0%Q, 0%Q);
     c_fitness := 0%Q; fitness := []; is_feasible := false;
     ll_string := EmptyString; ncv := violated; representation := [];
     n_blocks := 1; content_size := (10, 10, 10)%Z |}.

Definition feasible_cs (s : String.string) : CandidateSolution :=
  {| string := s; _content := Some one_block; age := 0%Z; b_descs := (0%Q, 0%Q);
     c_fitness := 0%Q; fitness := []; is_feasible := true;
     ll_string := EmptyString; ncv := 0%Z; representation := [];
     n_blocks := 1; content_size := (10, 10, 10)%Z |}.

(** A feasible solution archived with the given age and composite fitness. *)
Definition archived_cs (s : String.string) (a : Z) (c : Q) : CandidateSolution :=
  cs_set_c_fitness (cs_set_age (feasible_cs s) a) c.

Definition axis : BehaviorCharacterization :=
  {| bc_name := "axis"%string; func := fun cs => inject_Z (Z.of_nat (n_blocks cs));
     bc_bounds := Some (0%Q, 20%Q) |}.

Definition quantile_estimator (trained : bool) : Estimator :=
  {| kind := QuantileEstimator; is_trained := trained;
     predict := fun _ => (1 # 2)%Q;
     predict_quantiles := fun _ => [(1 # 10)%Q; (1 # 2)%Q; (9 # 10)%Q] |}.

Definition gaussian_estimator (trained : bool) : Estimator :=
  {| kind := GaussianEstimator; is_trained := trained;
     predict := fun _ => (1 # 2)%Q;
     predict_quantiles := fun _ => [] |}.

(** The grid [__init__] builds for [n_bins = (m, n)] and limits 20. *)
Definition initial_grid (m n : nat) : Grid :=
  {| shape := (m, n);
     flat := List.map (fun idx => MAPBin_init idx
                         ((20 / inject_Z (Z.of_nat m))%Q, (20 / inject_Z (Z.of_nat n))%Q) None)
                      (ndindex m n) |}.

(** The archive [__init__] builds for [n_bins = (m, n)], with the given
    estimator and outside world, one objective, and no agent. *)
Definition archive (m n : nat) (est : option Estimator) (e : Script) : MAPElites :=
  {| feasible_fitnesses :=
       [{| name := "BoxFilling"%string; f := fun _ => (1 # 2)%Q; bounds := (0%Q, 1%Q);
           weight := 1%Q |}];
     behavior_descriptors := (axis, axis);
     emitter := Some tt; agent := None; agent_rewards := [];
     estimator := est; buffer := []; nsc := 0%Q;
     bin_qnt := (m, n);
     bin_sizes := (repeat (20 / inject_Z (Z.of_nat m))%Q m,
                   repeat (20 / inject_Z (Z.of_nat n))%Q n);
     bins := initial_grid m n;
     enforce_qnt := true; hull_builder := true; max_f_fitness := 1%Q;
     infeas_fitness_idx := 1%Z; allow_res_increase := true; allow_aging := true;
     n_new_solutions := 0; x_range := (0, 1000)%Z; y_range := (0, 1000)%Z;
     z_range := (0, 1000)%Z; env := e; error_log := [];
     create_new_pool_calls := [] |}.

(** The same archive holding the given bins. *)
Definition archive_with (m n : nat) (cells : list MAPBin) (est : option Estimator)
           (e : Script) : MAPElites :=
  set_bins (archive m n est e) {| shape := (m, n); flat := cells |}.

Definition bin_with (idx : nat * nat) (feas infeas : list CandidateSolution) : MAPBin :=
  set_populations (MAPBin_init idx (10%Q, 10%Q) None) feas infeas.

(** The grammar engine produces the same infeasible string twice in its
    first batch. *)
Definition repeating : Script :=
  {| batches := [[infeasible_cs "corridor" 1; infeasible_cs "corridor" 1]];
     pools := []; draws := [] |}.

Definition plain_solver : FI2PopSolver.FI2PopSolver :=
  {| FI2PopSolver.feasible_fitnesses := []; FI2PopSolver.nsc := 0%Q |}.

(** The genetic operators fail on their first call and breed one feasible
    child on their second. *)
Definition failing_first : Script :=
  {| batches := [];
     pools := [Raise (EvoException "No offspring could be generated."%string);
               Return [feasible_cs "child"%string]];
     draws := [0] |}.

(** The grammar engine yields one feasible and one infeasible solution. *)
Definition first_batch : Script :=
  {| batches := [[feasible_cs "cockpit"%string; infeasible_cs "corridor"%string 1]];
     pools := []; draws := [] |}.

(** A 2 x 2 archive one generation into a run: its first bin holds a
    feasible and an infeasible solution of age 3. *)
Definition seeded (est : option Estimator) (e : Script) : MAPElites :=
  archive_with 2 2
    [bin_with (0, 0) [archived_cs "cockpit"%string 3 (1 # 2)%Q]
                     [cs_set_age (infeasible_cs "corridor"%string 1) 3];
     bin_with (0, 1) [] []; bin_with (1, 0) [] []; bin_with (1, 1) [] []]
    est e.

End Scenario.

(** No two solutions of a population carry the same [string]. *)
Definition unique_strings (pop : list CandidateSolution) : Prop :=
  NoDup (List.map string pop).

(** ** pcgsepy/mapelites/map.py: archive maintenance and metrics *)

Module Maintenance.
Import MAPElites.
Section WithCollaborators.
Context `{Config} `{Collaborators}.

(** Assignment to [self.feasible_fitnesses] (the weights are attributes of
    its members). *)
Definition set_feasible_fitnesses (self : MAPElites) (v : list Fitness) : MAPElites :=
  {| feasible_fitnesses := v; behavior_descriptors := behavior_descriptors self;
     emitter := emitter self; agent := agent self; agent_rewards := agent_rewards self;
     estimator := estimator self; buffer := buffer self; nsc := nsc self;
     bin_qnt := bin_qnt self; bin_sizes := bin_sizes self; bins := bins self;
     enforce_qnt := enforce_qnt self; hull_builder := hull_builder self;
     max_f_fitness := max_f_fitness self;
     infeas_fitness_idx := infeas_fitness_idx self;
     allow_res_increase := allow_res_increase self; allow_aging := allow_aging self;
     n_new_solutions := n_new_solutions self; x_range := x_range self;
     y_range := y_range self; z_range := z_range self; env := env self;
     error_log := error_log self;
     create_new_pool_calls := create_new_pool_calls self |}.

(** [self.x_range, self.y_range, self.z_range = x_range, y_range, z_range]. *)
Definition set_valid_ranges (self : MAPElites) (new_x new_y new_z : Z * Z) : MAPElites :=
  {| feasible_fitnesses := feasible_fitnesses self;
     behavior_descriptors := behavior_descriptors self; emitter := emitter self;
     agent := agent self; agent_rewards := agent_rewards self;
     estimator := estimator self; buffer := buffer self; nsc := nsc self;
     bin_qnt := bin_qnt self; bin_sizes := bin_sizes self; bins := bins self;
     enforce_qnt := enforce_qnt self; hull_builder := hull_builder self;
     max_f_fitness := max_f_fitness self;
     infeas_fitness_idx := infeas_fitness_idx self;
     allow_res_increase := allow_res_increase self; allow_aging := allow_aging self;
     n_new_solutions := n_new_solutions self; x_range := new_x; y_range := new_y;
     z_range := new_z; env := env self; error_log := error_log self;
     create_new_pool_calls := create_new_pool_calls self |}.

(** [f.weight = w] on a fitness object. *)
Definition set_weight (fit : Fitness) (w : Q) : Fitness :=
  {| name := name fit; f := f fit; bounds := bounds fit; weight := w |}.

(** [for w, f in zip(weights, self.feasible_fitnesses): f.weight = w]. *)
Definition reweighted (fits : list Fitness) (weights : list Q) : list Fitness :=
  List.map (fun '(w, fit) => set_weight fit w) (combine weights fits)
  ++ drop (length weights) fits.

(** [sum([fits[i].weight * values[i] for i in range(len(values))])]:
    subscripting [fits] past its end is an [IndexError]. *)
Definition weighted_sum (fits : list Fitness) (values : list Q) : PyResult Q :=
  match map_result
          (fun i => match py_index fits (Z.of_nat i), py_index values (Z.of_nat i) with
                    | Return fit, Return v => Return (weight fit * v)%Q
                    | _, _ => Raise IndexError
                    end)
          (seq 0 (length values)) with
  | Return terms => Return (py_sum terms)
  | Raise e => Raise e
  | OutOfFuel => OutOfFuel
  end.

(** The assignment to [cs.c_fitness] in [update_fitness_weights]. *)
Definition rescore (fits : list Fitness) (slack : Q) : M CandidateSolution unit :=
  c <- get ;;
  total <- lift (weighted_sum fits (fitness c)) ;;
  modify (fun c => cs_set_c_fitness c (total + (slack - inject_Z (ncv c)))%Q).

Definition rescore_bin (fits : list Fitness) (slack : Q) : M MAPBin unit :=
  fun cbin =>
    let '(feas, r) := on_each (rescore fits slack) (_feasible cbin) in
    (set_populations cbin feas (_infeasible cbin), r).

(** [MAPElites.update_fitness_weights]. *)
Definition update_fitness_weights (weights : list Q) : M MAPElites unit :=
  self <- get ;;
  if length weights =? length (feasible_fitnesses self) then
    modify (fun self => set_feasible_fitnesses self
                          (reweighted (feasible_fitnesses self) weights)) ;;
    fun self =>
      let '(cells, r) := on_each (rescore_bin (feasible_fitnesses self) (nsc self))
                                 (flat (bins self)) in
      (set_bins self {| shape := shape (bins self); flat := cells |}, r)
  else raise (AssertionError "Wrong number of weights for fitnesses passed.").

(** [MAPElites.update_valid_ranges]. *)
Definition update_valid_ranges (new_x new_y new_z : Z * Z) : M MAPElites unit :=
  modify (fun self => set_valid_ranges self new_x new_y new_z) ;;
  modify (fun self =>
    set_bins self (grid_map (bins self) (fun b =>
      set_populations b (List.filter (_within_range self) (_feasible b))
                        (List.filter (_within_range self) (_infeasible b))))).

(** [max(fs)] and [min(fs)] on a non-empty list [v :: rest]: the first
    largest, the first smallest. *)
Definition py_max_list (v : Q) (rest : list Q) : Q := fold_left py_max rest v.
Definition py_min_list (v : Q) (rest : list Q) : Q := fold_left py_min rest v.

(** The composite fitnesses [get_fitness_metrics] collects: those of the
    feasible populations for [pop == 'feasible'], of the infeasible ones for
    any other [pop]. *)
Definition collected_fitnesses (self : MAPElites) (pop : String.string) : list Q :=
  List.map c_fitness
    (flat_map (fun cbin => if String.eqb pop "feasible" then _feasible cbin
                           else _infeasible cbin)
              (flat (bins self))).

(** Whether [get_fitness_metrics] takes the minimum as the top fitness:
    [pop == 'infeasible' and mapelites.estimator is None]. *)
Definition takes_minimum (self : MAPElites) (pop : String.string) : bool :=
  String.eqb pop "infeasible"
  && match estimator self with None => true | Some _ => false end.

(** [get_fitness_metrics]: the top and the mean fitness; [None] stands for
    the [ValueError] that [min] and [max] raise on an empty sequence.  The
    mean is whatever [numpy.average] makes of the list in floating point:
    [np_average] stands for it, and nothing is assumed about its rounding. *)
Definition get_fitness_metrics (np_average : list Q -> Q) (self : MAPElites)
           (pop : String.string) : option (Q * Q) :=
  match collected_fitnesses self pop with
  | [] => None
  | v :: rest =>
      let top := if takes_minimum self pop then py_min_list v rest
                 else py_max_list v rest in
      Some (top, np_average (v :: rest))
  end.

(** A feasible solution is scored with the weights [fits]: its composite
    fitness is the weighted sum of its fitness vector plus
    [slack - ncv]. *)
Definition scored_with (fits : list Fitness) (slack : Q) (cs : CandidateSolution) : Prop :=
  exists total, weighted_sum fits (fitness cs) = Return total
                /\ c_fitness cs = (total + (slack - inject_Z (ncv cs)))%Q.

(** Every archived solution of a grid satisfies [P]. *)
Definition all_archived (P : CandidateSolution -> Prop) (g : Grid) : Prop :=
  Forall (fun cbin => Forall P (_feasible cbin) /\ Forall P (_infeasible cbin)) (flat g).

(** The shift [_process_expanded_idxs] applies to an index: one step per
    expanded bin that lies strictly before it, on each axis. *)
Definition shifted (expanded_idxs : list (Z * Z)) (idx : Z * Z) : Z * Z :=
  ((fst idx + Z.of_nat (length (List.filter (fun e => (fst e <? fst idx)%Z) expanded_idxs)))%Z,
   (snd idx + Z.of_nat (length (List.filter (fun e => (snd e <? snd idx)%Z) expanded_idxs)))%Z).

End WithCollaborators.
End Maintenance.

(** ** Distances on the bin grid *)

Module Neighbourhood.
Import MAPElites.

(** The number of king moves between two bin indices: the larger of the
    two coordinate differences. *)
Definition chebyshev (a b : Z * Z) : Z :=
  Z.max (Z.abs (fst a - fst b)) (Z.abs (snd a - snd b)).

(** The bin at [idx] exists and its pool is empty. *)
Definition empty_at (g : Grid) (feasible : bool) (idx : Z * Z) : Prop :=
  exists cbin, grid_get g idx = Return cbin /\ pool_of feasible cbin = [].

(** The solution is in the pool of some bin of the grid. *)
Definition pooled (g : Grid) (feasible : bool) (cs : CandidateSolution) : Prop :=
  exists cbin, In cbin (flat g) /\ In cs (pool_of feasible cbin).

End Neighbourhood.

(** ** What is asked of initial populations *)

Module Populations.

(** The populations of [FI2PopSolver._generate_initial_populations] are
    within size, split by feasibility and scored: a feasible solution with
    [sum(fitness) + (nsc - ncv)], an infeasible one with [ncv]. *)
Definition solver_populations_ok `{Collaborators} (self : FI2PopSolver.FI2PopSolver)
           (pops_size : nat) (pops : list CandidateSolution * list CandidateSolution)
  : Prop :=
  length (fst pops) <= pops_size
  /\ length (snd pops) <= pops_size
  /\ Forall (fun cs => is_feasible cs = true
                       /\ c_fitness cs
                          = (py_sum (fitness cs)
                             + (FI2PopSolver.nsc self - inject_Z (ncv cs)))%Q)
            (fst pops)
  /\ Forall (fun cs => is_feasible cs = false /\ c_fitness cs = inject_Z (ncv cs))
            (snd pops).

(** The populations of [MAPElites.generate_initial_populations] are within
    size, split by feasibility and fresh; the feasible one has no repeated
    string and the infeasible one is within the valid ranges. *)
Definition archive_populations_ok `{Config} `{Collaborators} (self : MAPElites.MAPElites)
           (pop_size : nat) (pops : list CandidateSolution * list CandidateSolution)
  : Prop :=
  length (fst pops) <= pop_size
  /\ length (snd pops) <= pop_size
  /\ Forall (fun cs => is_feasible cs = true /\ age cs = CS_MAX_AGE) (fst pops)
  /\ Forall (fun cs => is_feasible cs = false /\ age cs = CS_MAX_AGE
                       /\ MAPElites._within_range self cs = true)
            (snd pops)
  /\ unique_strings (fst pops).

End Populations.

(** ** pcgsepy/lsystem/solution.py: lineage, serialisation and merging *)

Module Lineage.

(** A [CandidateSolution] with the slots left out above: the per-module
    strings [hls_mod] (a dict from module name to its ['string'] and
    ['mutable'] entries, in insertion order), the two offspring counters and
    the [parents]. *)
#[warnings="-register-all"] Inductive Solution : Type := Build_Solution {
  slots : CandidateSolution;
  hls_mod : list (String.string * (String.string * bool));
  n_feas_offspring : Z;
  n_offspring : Z;
  parents : list Solution
}.

(** [CandidateSolution(string=s, content=None)] with all its slots. *)
Definition Solution_init (s : String.string) : Solution :=
  {| slots := CandidateSolution_init s None; hls_mod := [];
     n_feas_offspring := 0%Z; n_offspring := 0%Z; parents := [] |}.

(** The dictionary [to_json] builds, one field for each of its thirteen
    keys. *)
#[warnings="-register-all"] Inductive Serialised : Type := Build_Serialised {
  j_string : String.string;
  j_age : Z;
  j_b_descs : Q * Q;
  j_c_fitness : Q;
  j_fitness : list Q;
  j_hls_mod : list (String.string * (String.string * bool));
  j_is_feasible : bool;
  j_ll_string : String.string;
  j_n_feas_offspring : Z;
  j_n_offspring : Z;
  j_ncv : Z;
  j_parents : list Serialised;
  j_representation : list Q
}.

(** [CandidateSolution.to_json]. *)
Fixpoint to_json (cs : Solution) : Serialised :=
  match cs with
  | Build_Solution body mods feas_offspring offspring ps =>
      {| j_string := string body; j_age := age body; j_b_descs := b_descs body;
         j_c_fitness := c_fitness body; j_fitness := fitness body; j_hls_mod := mods;
         j_is_feasible := is_feasible body; j_ll_string := ll_string body;
         j_n_feas_offspring := feas_offspring; j_n_offspring := offspring;
         j_ncv := ncv body; j_parents := List.map to_json ps;
         j_representation := representation body |}
  end.

(** The slots [from_json] assigns before it turns to the parents. *)
Definition restored_slots (my_args : Serialised) : CandidateSolution :=
  {| string := j_string my_args; _content := None; age := j_age my_args;
     b_descs := j_b_descs my_args; c_fitness := j_c_fitness my_args;
     fitness := j_fitness my_args; is_feasible := j_is_feasible my_args;
     ll_string := j_ll_string my_args; ncv := j_ncv my_args;
     representation := j_representation my_args; n_blocks := 0;
     content_size := (0%Z, 0%Z, 0%Z) |}.

(** [CandidateSolution.from_json] on a dictionary that has the thirteen
    keys.  The comprehension over [my_args['parents']] calls
    [CandidateSolution.from_json(args=p)]; the parameter is named [my_args],
    so the first such call is a [TypeError]. *)
Definition from_json (my_args : Serialised) : PyResult Solution :=
  match j_parents my_args with
  | [] =>
      Return {| slots := restored_slots my_args; hls_mod := j_hls_mod my_args;
                n_feas_offspring := j_n_feas_offspring my_args;
                n_offspring := j_n_offspring my_args; parents := [] |}
  | _ :: _ => Raise TypeError
  end.

(** [string_merging]: [''.join(s for s in ls)]. *)
Definition string_merging (ls : list String.string) : String.string :=
  String.concat EmptyString ls.

(** [d[k] = v] on a dict kept in insertion order: an existing key keeps its
    place and takes the new value, a new key goes last. *)
Fixpoint dict_set {V} (d : list (String.string * V)) (k : String.string) (v : V)
  : list (String.string * V) :=
  match d with
  | [] => [(k, v)]
  | (k', v') :: rest =>
      if String.eqb k' k then (k, v) :: rest else (k', v') :: dict_set rest k v
  end.

(** The loop [for i, (cs, default_m) in enumerate(zip(lcs, modules_active))]
    of [merge_solutions], from index [i] on. *)
Fixpoint record_modules (i : nat) (pairs : list (CandidateSolution * bool))
         (modules_names : list String.string)
         (mods : list (String.string * (String.string * bool)))
  : PyResult (list (String.string * (String.string * bool))) :=
  match pairs with
  | [] => Return mods
  | (cs, default_m) :: rest =>
      match py_index modules_names (Z.of_nat i) with
      | Return module_name =>
          record_modules (S i) rest modules_names
                         (dict_set mods module_name (string cs, default_m))
      | Raise e => Raise e
      | OutOfFuel => OutOfFuel
      end
  end.

(** [merge_solutions]. *)
Definition merge_solutions (lcs : list CandidateSolution)
           (modules_names : list String.string) (modules_active : list bool)
  : PyResult Solution :=
  if length lcs =? length modules_names then
    match record_modules 0 (combine lcs modules_active) modules_names [] with
    | Return mods =>
        Return {| slots := CandidateSolution_init
                             (string_merging (List.map string lcs)) None;
                  hls_mod := mods; n_feas_offspring := 0%Z; n_offspring := 0%Z;
                  parents := [] |}
    | Raise e => Raise e
    | OutOfFuel => OutOfFuel
    end
  else Raise (AssertionError "Each solution should be produced by a module!").

End Lineage.

(** ** pcgsepy/fi2pop/fi2pop.py: the solver's tracking lists *)

Module SolverTracking.
Section WithCollaborators.
Context `{Collaborators}.

(** The tracking lists of a [FI2PopSolver], latest entry last. *)
Record Tracking : Type := {
  ftop : list Q;
  itop : list Q;
  fmean : list Q;
  imean : list Q;
  ffs : list (Q * Q);
  ifs : list (Q * Q)
}.

(** [FI2PopSolver.reset] (and the initial value of the lists). *)
Definition reset : Tracking :=
  {| ftop := []; itop := []; fmean := []; imean := []; ffs := []; ifs := [] |}.

(** Outcome of [initialize]: the two populations, or the [ValueError]
    that [max] and [min] raise on an empty sequence. *)
Inductive Initialized : Type :=
| Populations (f_pop i_pop : list CandidateSolution)
| ValueError.

(** [max(fs)], [min(fs)] and [sum(fs) / len(fs)] on a list of numbers;
    [None] on the empty list, where the first two raise. *)
Definition py_max_of (fs : list Q) : option Q :=
  match fs with [] => None | v :: rest => Some (fold_left py_max rest v) end.
Definition py_min_of (fs : list Q) : option Q :=
  match fs with [] => None | v :: rest => Some (fold_left py_min rest v) end.
Definition mean_of (fs : list Q) : Q :=
  (py_sum fs / inject_Z (Z.of_nat (length fs)))%Q.

(** The bookkeeping [initialize] does once the populations are there: the
    tracking lists as the call leaves them, and whether it got through. *)
Definition track_populations (t : Tracking) (f_pop i_pop : list CandidateSolution)
  : Tracking * bool :=
  let f_fitnesses := List.map c_fitness f_pop in
  let i_fitnesses := List.map c_fitness i_pop in
  match py_max_of f_fitnesses with
  | None => (t, false)
  | Some top_f =>
      let t1 := {| ftop := ftop t ++ [top_f]; itop := itop t;
                   fmean := fmean t ++ [mean_of f_fitnesses]; imean := imean t;
                   ffs := ffs t; ifs := ifs t |} in
      match py_min_of i_fitnesses with
      | None => (t1, false)
      | Some top_i =>
          ({| ftop := ftop t1; itop := itop t1 ++ [top_i];
              fmean := fmean t1; imean := imean t1 ++ [mean_of i_fitnesses];
              ffs := ffs t1 ++ [(top_f, mean_of f_fitnesses)];
              ifs := ifs t1 ++ [(top_i, mean_of i_fitnesses)] |}, true)
      end
  end.

(** [FI2PopSolver.initialize]. *)
Definition initialize (self : FI2PopSolver.FI2PopSolver) (t : Tracking)
           (pops_size n_retries : nat) (env : Env) : Env * Tracking * Initialized :=
  let '(env', (f_pop, i_pop)) :=
    FI2PopSolver._generate_initial_populations self pops_size n_retries env in
  let '(t', done) := track_populations t f_pop i_pop in
  (env', t', if done then Populations f_pop i_pop else ValueError).

End WithCollaborators.
End SolverTracking.

(** ** pcgsepy/hullbuilder.py: placement checks *)

Module HullPlacement.
Import HullBuilder.

(** The six members of [_orientations], in its order. *)
Inductive Orientation : Type := FORWARD | BACKWARD | UP | DOWN | LEFT | RIGHT.

Definition _orientations : list Orientation := [FORWARD; BACKWARD; UP; DOWN; LEFT; RIGHT].

(** What [_get_mountpoint_limits] returns for a list of mountpoints, one
    entry per mountpoint: its start, its end and the area of its face. *)
Record Limit : Type := { start : Vec; end_ : Vec; plane : Q }.

(** [eo1.x >= so2.x and so1.x <= eo2.x and eo1.y >= so2.y and so1.y <= eo2.y
    and eo1.z >= so2.z and so1.z <= eo2.z]. *)
Definition boxes_touch (l1 l2 : Limit) : bool :=
  Qle_bool (x (start l2)) (x (end_ l1)) && Qle_bool (x (start l1)) (x (end_ l2))
  && Qle_bool (y (start l2)) (y (end_ l1)) && Qle_bool (y (start l1)) (y (end_ l2))
  && Qle_bool (z (start l2)) (z (end_ l1)) && Qle_bool (z (start l1)) (z (end_ l2)).

(** The inner loop of [_check_valid_placement] for one mountpoint of the
    block: [mp_valid] after the mountpoints [mp2] of the other block. *)
Fixpoint mountpoint_valid (l1 : Limit) (mp2 : list Limit) (mp_valid : bool)
  : PyResult bool :=
  match mp2 with
  | [] => Return mp_valid
  | l2 :: rest =>
      if Qeq_bool (plane l2) 0
      then Raise (AssertionError "Mountpoint with empty surface")
      else mountpoint_valid l1 rest (mp_valid || boxes_touch l1 l2)
  end.

(** The outer loop: the list [all_valid]. *)
Fixpoint mountpoints_valid (mp1 mp2 : list Limit) : PyResult (list bool) :=
  match mp1 with
  | [] => Return []
  | l1 :: rest =>
      if Qeq_bool (plane l1) 0
      then Raise (AssertionError "Mountpoint with empty surface")
      else match mountpoint_valid l1 mp2 true with
           | Return mp_valid =>
               match mountpoints_valid rest mp2 with
               | Return all_valid => Return (mp_valid :: all_valid)
               | other => other
               end
           | Raise e => Raise e
           | OutOfFuel => OutOfFuel
           end
  end.

(** [HullBuilder._check_valid_placement], given what it reads of the
    structure: the limits [mp1] of the block's mountpoints on the face
    towards [direction], the limits [mp_opposite] of its mountpoints on
    the opposite face, and, when a block sits next to it in that
    direction, the limits of that block's mountpoints facing back. *)
Definition _check_valid_placement (mp1 mp_opposite : list Limit)
           (other_block : option (list Limit)) : PyResult (bool * Q) :=
  match other_block with
  | None =>
      match mp1 with
      | [] => Return (true, py_sum (List.map plane mp_opposite))
      | _ :: _ => Return (true, py_sum (List.map plane mp1))
      end
  | Some mp2 =>
      match mp1 with
      | [] => Return (false, 0%Q)
      | _ :: _ =>
          match mp2 with
          | [] => Return (false, 0%Q)
          | _ :: _ =>
              match mountpoints_valid mp1 mp2 with
              | Return all_valid =>
                  match intersect_planes (List.map start mp1) (List.map end_ mp1)
                                         (List.map start mp2) (List.map end_ mp2) with
                  | Return area => Return (forallb (fun v => v) all_valid, area)
                  | Raise e => Raise e
                  | OutOfFuel => OutOfFuel
                  end
              | Raise e => Raise e
              | OutOfFuel => OutOfFuel
              end
          end
      end
  end.

(** The loop [for direction in _orientations] of [_check_valid_position]
    over the directions still to visit: [valid] and [area_err] so far, and
    the [delta_area] of the last direction visited, if any. *)
Fixpoint check_directions (placement : Orientation -> PyResult (bool * Q))
         (directions : list Orientation) (valid : bool) (area_err : Q)
         (delta_area : option Q) : PyResult (bool * Q * option Q) :=
  match directions with
  | [] => Return (valid, area_err, delta_area)
  | direction :: rest =>
      match placement direction with
      | Return (res, delta) =>
          let valid := valid && res in
          let area_err := (area_err + delta)%Q in
          if negb valid then Return (valid, area_err, Some delta)
          else check_directions placement rest valid area_err (Some delta)
      | Raise e => Raise e
      | OutOfFuel => OutOfFuel
      end
  end.

(** [HullBuilder._check_valid_position], given the outcome of
    [_check_valid_placement] in each direction: it returns [valid] and the
    last [delta_area]. *)
Definition _check_valid_position (placement : Orientation -> PyResult (bool * Q))
  : PyResult (bool * Q) :=
  match check_directions placement _orientations true 0%Q None with
  | Return (valid, _, Some delta_area) => Return (valid, delta_area)
  | Return (_, _, None) => Raise (Exception "UnboundLocalError")
  | Raise e => Raise e
  | OutOfFuel => OutOfFuel
  end.

End HullPlacement.

(** ** More archives and inputs on the scripted world *)

Module Cases.
Import MAPElites Scenario HullBuilder HullPlacement.
#[local] Existing Instance Scenario.config.
#[local] Existing Instance Scenario.world.

(** A 2 x 2 archive whose first bin holds one feasible and one infeasible
    solution of the current generation. *)
Definition fresh : MAPElites :=
  archive_with 2 2
    [bin_with (0, 0) [archived_cs "cockpit"%string 5 (1 # 2)%Q]
                     [cs_set_age (infeasible_cs "corridor"%string 1) 5];
     bin_with (0, 1) [] []; bin_with (1, 0) [] []; bin_with (1, 1) [] []]
    None silence.

(** A 2 x 2 archive whose first bin is full in both populations. *)
Definition crowded : MAPElites :=
  archive_with 2 2
    [bin_with (0, 0) [archived_cs "cockpit"%string 3 (1 # 2)%Q;
                      archived_cs "cargo"%string 3 (1 # 4)%Q]
                     [cs_set_age (infeasible_cs "corridor"%string 1) 3;
                      cs_set_age (infeasible_cs "thruster"%string 2) 3];
     bin_with (0, 1) [] []; bin_with (1, 0) [] []; bin_with (1, 1) [] []]
    None silence.

(** The seeded archive driven by a bandit agent. *)
Definition with_bandit : MAPElites := set_agent (seeded None silence) (Some tt).

(** The same, the infeasible solution carrying the three quantiles a
    quantile estimator predicted for it. *)
Definition with_quantiles : MAPElites :=
  set_agent
    (archive_with 2 2
       [bin_with (0, 0) [archived_cs "cockpit"%string 3 (1 # 2)%Q]
                        [cs_set_fitness (cs_set_age (infeasible_cs "corridor"%string 1) 3)
                                        [(1 # 10)%Q; (1 # 2)%Q; (9 # 10)%Q]];
        bin_with (0, 1) [] []; bin_with (1, 0) [] []; bin_with (1, 1) [] []]
       None silence)
    (Some tt).

(** Two mountpoint faces one above the other: they overlap in x and y and
    are apart in z. *)
Definition lower_face : Limit :=
  {| start := {| x := 0; y := 0; z := 0 |}; end_ := {| x := 2; y := 2; z := 0 |};
     plane := 4 |}.
Definition upper_face : Limit :=
  {| start := {| x := 1; y := 1; z := 1 |}; end_ := {| x := 3; y := 3; z := 1 |};
     plane := 4 |}.

(** A block that can be placed in every direction but upwards. *)
Definition blocked_above (direction : Orientation) : PyResult (bool * Q) :=
  match direction with
  | UP => Return (false, 7%Q)
  | _ => Return (true, 1%Q)
  end.

End Cases.

(** ** pcgsepy/hullbuilder.py: the rotation names of [enforce_symmetry] *)

Module Symmetry.
Import Ascii.

(** A Python [str], character by character. *)
Definition letter_c : ascii := "c"%char.

(** [rot.count('c')]. *)
Definition count_c (rot : list ascii) : nat :=
  length (List.filter (Ascii.eqb letter_c) rot).

(** [rot.index('c')]; [None] stands for the [ValueError] of a string
    without the letter. *)
Fixpoint index_c (rot : list ascii) : option nat :=
  match rot with
  | [] => None
  | a :: rest => if Ascii.eqb letter_c a then Some 0 else option_map S (index_c rest)
  end.

(** [rot.replace('c', '', 1)]. *)
Fixpoint remove_first_c (rot : list ascii) : list ascii :=
  match rot with
  | [] => []
  | a :: rest => if Ascii.eqb letter_c a then rest else a :: remove_first_c rest
  end.

(** The helper [__inverse] of [enforce_symmetry]: the name of the opposite
    rotation.  Falling off the end of the function returns [None]. *)
Definition __inverse (rot : list ascii) : option (list ascii) :=
  if count_c rot =? 1 then
    match index_c rot with
    | Some i => Some (take i rot ++ letter_c :: drop i rot)
    | None => None
    end
  else if count_c rot =? 2 then Some (remove_first_c rot)
  else None.

End Symmetry.

(** * Properties *)

(** ** The Python-level helpers on small inputs *)

Example py_index_last : py_index [1; 2; 3] (-1) = Return 3.
Proof. reflexivity. Qed.

Example py_index_out_of_range : py_index [1; 2; 3] 3 = Raise IndexError.
Proof. reflexivity. Qed.

Example py_insert_middle : py_insert [1; 2; 3] 1 7 = [1; 7; 2; 3].
Proof. reflexivity. Qed.

(** Descriptors below the first boundary are given index [-1], which
    numpy reads as the last bin; descriptors past the last boundary fall in
    the last bin. *)
Example bin_index_cases :
  List.map (fun v => MAPElites.bin_index v (MAPElites.boundaries [10; 10]%Q 0%Q))
           [(-3)%Q; 0%Q; 4%Q; 10%Q; 25%Q]
  = [(-1)%Z; 0%Z; 0%Z; 1%Z; 1%Z].
Proof. reflexivity. Qed.

Example split_sizes_first :
  List.map Qred (MAPElites.split_sizes [10; 10]%Q 0 10%Q) = [5; 5; 10]%Q.
Proof. reflexivity. Qed.

(** ** CandidateSolution.set_content *)

Lemma set_content_all_keeps (l : list Structure) :
  forall (cs : CandidateSolution) (old : Structure),
    _content cs = Some old -> _content (set_content_all cs l) = Some old.
Proof.
  induction l as [|c rest IH]; intros cs old Hold; simpl; [exact Hold|].
  apply IH. unfold set_content, content_truthy. rewrite Hold. exact Hold.
Qed.

(** C9: [set_content] on a solution that already holds a content raises and
    returns the solution untouched; on a solution without content it stores
    the content together with its block count and changes nothing else; and
    over any run of calls the stored content is the one that was there
    first, so it is set at most once. *)
Theorem set_content_at_most_once (cs : CandidateSolution) (c : Structure) :
  match _content cs with
  | Some old =>
      set_content cs c
        = (cs, Raise (Exception "Structure already exists for this CandidateSolution."))
      /\ forall later, _content (set_content_all cs later) = Some old
  | None =>
      set_content cs c
        = (cs_set_n_blocks (cs_set_content cs (Some c)) (length (_blocks c)), Return tt)
      /\ _content (fst (set_content cs c)) = Some c
      /\ n_blocks (fst (set_content cs c)) = length (_blocks c)
      /\ string (fst (set_content cs c)) = string cs
      /\ forall later, _content (set_content_all cs (c :: later)) = Some c
  end.
Proof.
  destruct (_content cs) as [old|] eqn:Hc.
  - split.
    + unfold set_content, content_truthy. now rewrite Hc.
    + intros later. now apply set_content_all_keeps.
  - assert (Hset : set_content cs c
                   = (cs_set_n_blocks (cs_set_content cs (Some c)) (length (_blocks c)),
                      Return tt)).
    { unfold set_content, content_truthy. now rewrite Hc. }
    rewrite Hset. repeat split.
    intros later. simpl. rewrite Hset. now apply set_content_all_keeps.
Qed.

(** ** HullBuilder.intersect_planes *)

Module HullFacts.
Import HullBuilder.

Lemma Qltb_lt (a b : Q) : Qltb a b = true <-> (a < b)%Q.
Proof.
  unfold Qltb. rewrite negb_true_iff, <- not_true_iff_false, Qle_bool_iff.
  split; [apply Qnot_le_lt | apply Qlt_not_le].
Qed.

Lemma intersect_term_nonneg (s1 e1 s2 e2 : Vec) :
  (0 <= intersect_term s1 e1 s2 e2)%Q.
Proof.
  unfold intersect_term.
  set (x1 := py_max _ _). set (y1 := py_max _ _). set (z1 := py_max _ _).
  set (x2 := py_min _ _). set (y2 := py_min _ _). set (z2 := py_min _ _).
  destruct (Qltb x1 x2) eqn:Hx, (Qltb y1 y2) eqn:Hy, (Qltb z2 z1) eqn:Hz,
           (Qltb z1 z2) eqn:Hz', (Qle_bool y2 y1) eqn:Hy', (Qle_bool x2 x1) eqn:Hx';
    simpl; try apply Qle_refl;
    repeat match goal with
           | H : Qltb _ _ = true |- _ => apply Qltb_lt in H
           end; nra.
Qed.

Lemma Qsum_app (l1 l2 : list Q) : (Qsum (l1 ++ l2) == Qsum l1 + Qsum l2)%Q.
Proof.
  induction l1 as [|a l1 IH]; simpl; [ring|]. rewrite IH. ring.
Qed.

Lemma intersect_inner_sum (s1 e1 : Vec) (mps2 : list (Vec * Vec)) :
  forall acc,
    (intersect_inner s1 e1 mps2 acc
     == acc + Qsum (List.map (fun '(s2, e2) => intersect_term s1 e1 s2 e2) mps2))%Q.
Proof.
  unfold intersect_inner.
  induction mps2 as [|[s2 e2] rest IH]; intros acc; simpl; [ring|].
  rewrite IH. ring.
Qed.

Lemma intersect_outer_sum (mps1 mps2 : list (Vec * Vec)) :
  forall acc,
    (fold_left (fun a '(s1, e1) => intersect_inner s1 e1 mps2 a) mps1 acc
     == acc + Qsum (flat_map (fun '(s1, e1) =>
                      List.map (fun '(s2, e2) => intersect_term s1 e1 s2 e2) mps2) mps1))%Q.
Proof.
  induction mps1 as [|[s1 e1] rest IH]; intros acc; simpl; [ring|].
  rewrite IH, intersect_inner_sum, Qsum_app. ring.
Qed.

Lemma intersect_bbox_sum (starts1 ends1 starts2 ends2 : list Vec) :
  (intersect_bbox starts1 ends1 starts2 ends2
   == Qsum (pair_terms starts1 ends1 starts2 ends2))%Q.
Proof.
  unfold intersect_bbox, pair_terms. rewrite intersect_outer_sum. ring.
Qed.

Lemma Qsum_nonneg (l : list Q) :
  (forall t, In t l -> (0 <= t)%Q) -> (0 <= Qsum l)%Q.
Proof.
  induction l as [|a l IH]; intros Hl; simpl; [apply Qle_refl|].
  assert (0 <= a)%Q by (apply Hl; now left).
  assert (0 <= Qsum l)%Q by (apply IH; intros t Ht; apply Hl; now right).
  lra.
Qed.

Lemma Qsum_zero_iff (l : list Q) :
  (forall t, In t l -> (0 <= t)%Q) ->
  ((Qsum l == 0)%Q <-> forall t, In t l -> (t == 0)%Q).
Proof.
  induction l as [|a l IH]; intros Hl; simpl.
  - split; [intros _ t [] | intros _; reflexivity].
  - assert (Ha : (0 <= a)%Q) by (apply Hl; now left).
    assert (Hl' : forall t, In t l -> (0 <= t)%Q) by (intros t Ht; apply Hl; now right).
    pose proof (Qsum_nonneg l Hl') as Hs. specialize (IH Hl').
    split.
    + intros Hz t [<-|Ht]; [lra|]. apply IH; [lra | exact Ht].
    + intros Hall.
      assert (a == 0)%Q by (apply Hall; now left).
      assert (Qsum l == 0)%Q by (apply IH; intros t Ht; apply Hall; now right).
      lra.
Qed.

Lemma in_pair_terms (starts1 ends1 starts2 ends2 : list Vec) (t : Q) :
  In t (pair_terms starts1 ends1 starts2 ends2) <->
  exists s1 e1 s2 e2,
    In (s1, e1) (combine starts1 ends1) /\ In (s2, e2) (combine starts2 ends2)
    /\ t = intersect_term s1 e1 s2 e2.
Proof.
  unfold pair_terms. rewrite in_flat_map. split.
  - intros [[s1 e1] [H1 Ht]]. apply in_map_iff in Ht as [[s2 e2] [<- H2]].
    now exists s1, e1, s2, e2.
  - intros (s1 & e1 & s2 & e2 & H1 & H2 & ->).
    exists (s1, e1). split; [exact H1|].
    apply in_map_iff. now exists (s2, e2).
Qed.

Lemma pair_terms_nonneg (starts1 ends1 starts2 ends2 : list Vec) (t : Q) :
  In t (pair_terms starts1 ends1 starts2 ends2) -> (0 <= t)%Q.
Proof.
  intros (s1 & e1 & s2 & e2 & _ & _ & ->)%in_pair_terms.
  apply intersect_term_nonneg.
Qed.

Lemma intersect_bbox_pos_iff (starts1 ends1 starts2 ends2 : list Vec) :
  (0 < intersect_bbox starts1 ends1 starts2 ends2)%Q
  <-> some_pair_overlaps starts1 ends1 starts2 ends2.
Proof.
  rewrite intersect_bbox_sum.
  pose proof (Qsum_nonneg _ (pair_terms_nonneg starts1 ends1 starts2 ends2)) as Hs.
  pose proof (Qsum_zero_iff _ (pair_terms_nonneg starts1 ends1 starts2 ends2)) as Hz.
  split.
  - intros Hpos.
    destruct (List.Exists_dec (fun t => 0 < t)%Q (pair_terms starts1 ends1 starts2 ends2))
      as [Hex|Hno].
    { intros t. destruct (Qlt_le_dec 0 t); [now left | right; now apply Qle_not_lt]. }
    + apply List.Exists_exists in Hex as (t & Hin & Ht).
      apply in_pair_terms in Hin as (s1 & e1 & s2 & e2 & H1 & H2 & ->).
      now exists s1, e1, s2, e2.
    + exfalso. apply (Qlt_irrefl 0). 
      assert (Hzero : (Qsum (pair_terms starts1 ends1 starts2 ends2) == 0)%Q).
      { apply Hz. intros t Ht.
        pose proof (pair_terms_nonneg _ _ _ _ _ Ht) as Hge.
        destruct (Qlt_le_dec 0 t) as [Hlt|Hle]; [|lra].
        exfalso. apply Hno, List.Exists_exists. now exists t. }
      lra.
  - intros (s1 & e1 & s2 & e2 & H1 & H2 & Hpos).
    destruct (Qlt_le_dec 0 (Qsum (pair_terms starts1 ends1 starts2 ends2))) as [|Hle];
      [assumption|].
    assert (Hzero : (Qsum (pair_terms starts1 ends1 starts2 ends2) == 0)%Q) by lra.
    rewrite Hz in Hzero.
    specialize (Hzero (intersect_term s1 e1 s2 e2)).
    rewrite in_pair_terms in Hzero.
    assert (intersect_term s1 e1 s2 e2 == 0)%Q by (apply Hzero; now exists s1, e1, s2, e2).
    lra.
Qed.

Lemma intersect_bbox_nonneg (starts1 ends1 starts2 ends2 : list Vec) :
  (0 <= intersect_bbox starts1 ends1 starts2 ends2)%Q.
Proof.
  rewrite intersect_bbox_sum. apply Qsum_nonneg, pair_terms_nonneg.
Qed.

(** C10: [intersect_planes] returns the reciprocal of the accumulated
    intersection area; it raises [ZeroDivisionError] exactly when no pair
    of mountpoint boxes adds a positive term, and returns a value exactly
    when some pair does. *)
Theorem intersect_planes_reciprocal (starts1 ends1 starts2 ends2 : list Vec) :
  (intersect_planes starts1 ends1 starts2 ends2 = Raise ZeroDivisionError
   <-> ~ some_pair_overlaps starts1 ends1 starts2 ends2)
  /\ (intersect_planes starts1 ends1 starts2 ends2
        = Return (1 / intersect_bbox starts1 ends1 starts2 ends2)%Q
      <-> some_pair_overlaps starts1 ends1 starts2 ends2)
  /\ (intersect_bbox starts1 ends1 starts2 ends2
      == Qsum (pair_terms starts1 ends1 starts2 ends2))%Q.
Proof.
  pose proof (intersect_bbox_pos_iff starts1 ends1 starts2 ends2) as Hpos.
  pose proof (intersect_bbox_nonneg starts1 ends1 starts2 ends2) as Hge.
  unfold intersect_planes, py_div.
  destruct (Qeq_bool (intersect_bbox starts1 ends1 starts2 ends2) 0) eqn:Hz.
  - apply Qeq_bool_iff in Hz.
    split; [|split].
    + split; [|reflexivity]. intros _ Hov. apply Hpos in Hov. lra.
    + split; [discriminate|]. intros Hov. apply Hpos in Hov. lra.
    + apply intersect_bbox_sum.
  - apply Qeq_bool_neq in Hz.
    assert (Hlt : (0 < intersect_bbox starts1 ends1 starts2 ends2)%Q).
    { destruct (Qlt_le_dec 0 (intersect_bbox starts1 ends1 starts2 ends2)) as [|Hle];
        [assumption|].
      exfalso. apply Hz. lra. }
    split; [|split].
    + split; [discriminate|]. intros Hno. exfalso. now apply Hno, Hpos.
    + split; [intros _; now apply Hpos | reflexivity].
    + apply intersect_bbox_sum.
Qed.

End HullFacts.

(** ** MAPElites.compute_fitness *)

Module FitnessFacts.
Import MAPElites.
Section WithCollaborators.
Context `{Config} `{Collaborators}.

Lemma py_index_three {A} (a b c : A) (i : Z) :
  (0 <= i < 3)%Z -> py_index [a; b; c] i = Return (nth (Z.to_nat i) [a; b; c] a).
Proof.
  intros Hi.
  assert (Hcases : i = 0%Z \/ i = 1%Z \/ i = 2%Z) by lia.
  destruct Hcases as [-> | [-> | ->]]; reflexivity.
Qed.

(** C1: on an infeasible solution [compute_fitness] returns [ncv] when
    no estimator is configured; [EPSILON_F] when a supported estimator is
    configured and untrained (for a quantile estimator after storing three
    epsilons in [fitness] and taking the entry at [infeas_fitness_idx]);
    and, for a trained quantile estimator, the entry at
    [infeas_fitness_idx] of the predicted (min, median, max) array, which it
    stores in [fitness].  Where an entry is taken, [infeas_fitness_idx] is
    one of 0, 1, 2, the values the archive gives it. *)
Theorem compute_fitness_infeasible (self : MAPElites) (cs : CandidateSolution)
        (Hinfeasible : is_feasible cs = false) :
  match estimator self with
  | None => snd (compute_fitness self cs) = Return (inject_Z (ncv cs))
  | Some est =>
      supported est ->
      if is_trained est then
        kind est = QuantileEstimator ->
        fitness (fst (compute_fitness self cs))
          = predict_quantiles est (proxy_representation cs)
        /\ snd (compute_fitness self cs)
           = py_index (predict_quantiles est (proxy_representation cs))
                      (infeas_fitness_idx self)
        /\ forall lo mid hi,
             predict_quantiles est (proxy_representation cs) = [lo; mid; hi] ->
             (0 <= infeas_fitness_idx self < 3)%Z ->
             snd (compute_fitness self cs)
             = Return (nth (Z.to_nat (infeas_fitness_idx self)) [lo; mid; hi] lo)
      else
        (kind est <> QuantileEstimator ->
         snd (compute_fitness self cs) = Return EPSILON_F)
        /\ (kind est = QuantileEstimator ->
            fitness (fst (compute_fitness self cs)) = [EPSILON_F; EPSILON_F; EPSILON_F]
            /\ snd (compute_fitness self cs)
               = py_index [EPSILON_F; EPSILON_F; EPSILON_F] (infeas_fitness_idx self)
            /\ ((0 <= infeas_fitness_idx self < 3)%Z ->
                snd (compute_fitness self cs) = Return EPSILON_F))
  end.
Proof.
  unfold compute_fitness, bind, get, modify, ret, lift, raise, isinstance.
  rewrite Hinfeasible. cbn [fst snd].
  destruct (estimator self) as [est|]; [|reflexivity].
  intros Hsup.
  destruct (is_trained est) eqn:Htrained.
  - intros Hkind.
    destruct Hsup as [Hg | [Htorch _]]; [congruence|].
    rewrite Hkind, Htorch. cbn.
    fold (proxy_representation cs).
    destruct (py_index (predict_quantiles est (proxy_representation cs))
                       (infeas_fitness_idx self)) eqn:Hread; cbn;
      (split; [reflexivity|]); (split; [reflexivity|]);
      intros lo mid hi Hq Hidx; rewrite Hq in Hread;
      rewrite py_index_three in Hread by exact Hidx;
      first [discriminate | injection Hread as <-; reflexivity].
  - destruct Hsup as [Hg | [Htorch [Hk | Hk]]].
    + rewrite Hg. cbn. split; [reflexivity|]. congruence.
    + rewrite Hk, Htorch. cbn. split; [reflexivity|]. congruence.
    + rewrite Hk, Htorch. cbn. split; [congruence|]. intros _.
      destruct (py_index [EPSILON_F; EPSILON_F; EPSILON_F] (infeas_fitness_idx self))
        eqn:Hread; cbn;
        (split; [reflexivity|]); (split; [reflexivity|]);
        intros Hidx; rewrite (py_index_three _ _ _ _ Hidx) in Hread;
        assert (Hnth : forall k, nth k [EPSILON_F; EPSILON_F; EPSILON_F] EPSILON_F
                                 = EPSILON_F)
          by (intros [|[|[|[|k]]]]; reflexivity);
        rewrite Hnth in Hread; congruence.
Qed.

End WithCollaborators.
End FitnessFacts.

(** ** Reasoning about method calls *)

Module MethodFacts.

Lemma preserves_ret {S A} (P : S -> Prop) (a : A) : preserves P (ret a).
Proof. intros s Hs. exact Hs. Qed.

Lemma preserves_raise {S A} (P : S -> Prop) (e : PyErr) : preserves P (@raise S A e).
Proof. intros s Hs. exact Hs. Qed.

Lemma preserves_lift {S A} (P : S -> Prop) (r : PyResult A) : preserves P (lift r).
Proof. intros s Hs. exact Hs. Qed.

Lemma preserves_get {S} (P : S -> Prop) : preserves P get.
Proof. intros s Hs. exact Hs. Qed.

Lemma preserves_modify {S} (P : S -> Prop) (g : S -> S) :
  (forall s, P s -> P (g s)) -> preserves P (modify g).
Proof. intros Hg s Hs. now apply Hg. Qed.

Lemma preserves_bind {S A B} (P : S -> Prop) (m : M S A) (k : A -> M S B) :
  preserves P m -> (forall a, preserves P (k a)) -> preserves P (bind m k).
Proof.
  intros Hm Hk s Hs. unfold bind.
  specialize (Hm s Hs). destruct (m s) as [s' [a|e|]]; cbn in *; auto.
  now apply Hk.
Qed.

(** The same, when what follows may rely on [P] holding of the object. *)
Lemma preserves_bind_get {S B} (P : S -> Prop) (k : S -> M S B) :
  (forall s, P s -> preserves P (k s)) -> preserves P (bind get k).
Proof. intros Hk s Hs. unfold bind, get. now apply Hk. Qed.

Lemma preserves_for_each {S A} (P : S -> Prop) (l : list A) (body : A -> M S unit) :
  (forall a, preserves P (body a)) -> preserves P (for_each l body).
Proof.
  intros Hbody. induction l as [|a l IH]; cbn [for_each].
  - apply preserves_ret.
  - apply preserves_bind; [apply Hbody | intros _; exact IH].
Qed.

Lemma preserves_try {S A} (P : S -> Prop) (body : M S A) (handler : String.string -> M S A) :
  preserves P body -> (forall msg, preserves P (handler msg)) ->
  preserves P (try_except_EvoException body handler).
Proof.
  intros Hb Hh s Hs. unfold try_except_EvoException.
  specialize (Hb s Hs). destruct (body s) as [s' [a|e|]]; cbn in *; auto.
  destruct e; cbn; auto. now apply Hh.
Qed.

Lemma never_ret {S A} (a : A) : never_EvoException (@ret S A a).
Proof. intros s msg. discriminate. Qed.

Lemma never_get {S} : never_EvoException (@get S).
Proof. intros s msg. discriminate. Qed.

Lemma never_modify {S} (g : S -> S) : never_EvoException (modify g).
Proof. intros s msg. discriminate. Qed.

Lemma never_lift {S A} (r : PyResult A) :
  not_EvoException r -> never_EvoException (@lift S A r).
Proof. intros Hr s. exact Hr. Qed.

Lemma never_bind {S A B} (m : M S A) (k : A -> M S B) :
  never_EvoException m -> (forall a, never_EvoException (k a)) ->
  never_EvoException (bind m k).
Proof.
  intros Hm Hk s msg. unfold bind.
  specialize (Hm s msg). destruct (m s) as [s' [a|e|]]; cbn in *.
  - apply Hk.
  - intros [= ->]. now apply Hm.
  - discriminate.
Qed.

Lemma never_for_each {S A} (l : list A) (body : A -> M S unit) :
  (forall a, never_EvoException (body a)) -> never_EvoException (for_each l body).
Proof.
  intros Hbody. induction l as [|a l IH]; cbn [for_each].
  - apply never_ret.
  - apply never_bind; [apply Hbody | intros _; exact IH].
Qed.

Lemma never_try {S A} (body : M S A) (handler : String.string -> M S A) :
  (forall msg, never_EvoException (handler msg)) ->
  never_EvoException (try_except_EvoException body handler).
Proof.
  intros Hh s msg. unfold try_except_EvoException.
  destruct (body s) as [s' [a|e|]]; cbn; try discriminate.
  destruct e; cbn; try discriminate. apply Hh.
Qed.

Lemma never_on_each {S} (m : M S unit) (l : list S) :
  never_EvoException m -> not_EvoException (snd (on_each m l)).
Proof.
  intros Hm. induction l as [|a l IH]; cbn [on_each]; [intros msg; discriminate|].
  specialize (Hm a). destruct (m a) as [a' [[]|e|]]; cbn in *.
  - destruct (on_each m l) as [l' r]. exact IH.
  - exact Hm.
  - intros msg. discriminate.
Qed.

Lemma not_Evo_py_index {A} (l : list A) (i : Z) : not_EvoException (py_index l i).
Proof.
  intros msg. unfold py_index.
  destruct (_ && _)%bool; [destruct (l !! _)|]; discriminate.
Qed.

Lemma not_Evo_py_div (a b : Q) : not_EvoException (py_div a b).
Proof. intros msg. unfold py_div. destruct (Qeq_bool b 0); discriminate. Qed.

Lemma not_Evo_content (cs : CandidateSolution) : not_EvoException (content cs).
Proof. intros msg. unfold content. destruct (_content cs); discriminate. Qed.

End MethodFacts.

(** ** MAPElites._step *)

Module StepFacts.
Import MAPElites MethodFacts.
Section WithCollaborators.
Context `{Config} `{Collaborators}.

Ltac never_step :=
  match goal with
  | |- never_EvoException (bind _ _) => apply never_bind; [|intros ?]
  | |- never_EvoException (ret _) => apply never_ret
  | |- never_EvoException get => apply never_get
  | |- never_EvoException (modify _) => apply never_modify
  | |- never_EvoException (modify_bins _) => apply never_modify
  | |- never_EvoException (raise _) => intros ? ?; discriminate
  | |- never_EvoException (lift (py_index _ _)) => apply never_lift, not_Evo_py_index
  | |- never_EvoException (lift (py_div _ _)) => apply never_lift, not_Evo_py_div
  | |- never_EvoException (lift (content _)) => apply never_lift, not_Evo_content
  | |- never_EvoException (for_each _ _) => apply never_for_each; intros ?
  | |- never_EvoException (if ?b then _ else _) => destruct b
  | |- never_EvoException (match ?x with _ => _ end) => destruct x
  end.

Lemma never_compute_fitness (self : MAPElites) :
  never_EvoException (compute_fitness self).
Proof. unfold compute_fitness. repeat never_step. Qed.

Lemma never_prepare_cs_content (self : MAPElites) (add_hull : bool) :
  never_EvoException (_prepare_cs_content self add_hull).
Proof. unfold _prepare_cs_content. repeat never_step. Qed.

Lemma never_assign_fitness (self : MAPElites) :
  never_EvoException (_assign_fitness self).
Proof.
  unfold _assign_fitness, _set_behavior_descriptors.
  apply never_bind; [apply never_compute_fitness | intros v].
  repeat never_step.
Qed.

Lemma never_realign_cs (self : MAPElites) : never_EvoException (realign_cs self).
Proof.
  unfold realign_cs.
  apply never_bind; [apply never_get | intros c].
  destruct (ALIGNMENT_INTERVAL <? age c)%Z; [|apply never_ret].
  apply never_bind; [destruct (_content c); repeat never_step | intros _].
  apply never_bind; [apply never_prepare_cs_content | intros _].
  apply never_bind; [apply never_compute_fitness | intros v].
  apply never_modify.
Qed.

Lemma never_realign : never_EvoException realign.
Proof.
  intros s. unfold realign.
  pose proof (never_on_each (realign_bin s) (flat (bins s))) as Hcells.
  destruct (on_each (realign_bin s) (flat (bins s))) as [cells r]. cbn in *.
  apply Hcells. intros cbin. unfold realign_bin.
  pose proof (never_on_each (realign_cs s) (_infeasible cbin) (never_realign_cs s)) as Hpop.
  destruct (on_each (realign_cs s) (_infeasible cbin)) as [infeas r']. exact Hpop.
Qed.

Lemma never_update_estimator (est : Estimator) (generated : list CandidateSolution)
      (gen : nat) : never_EvoException (update_estimator est generated gen).
Proof.
  unfold update_estimator, train_estimator.
  apply never_bind; [apply never_for_each; intros [x y]; repeat never_step | intros _].
  apply never_bind; [apply never_get | intros self].
  apply never_bind.
  { destruct (buffer_get (buffer self)) as [[xs ys]|]; repeat never_step. }
  intros _. apply never_bind; [apply never_get | intros self'].
  destruct (estimator self') as [est'|]; [|apply never_ret].
  destruct (is_trained est'); [|apply never_ret].
  destruct (ALIGNMENT_INTERVAL =? 0)%Z; [intros ? ?; discriminate|].
  destruct (_ =? 0)%Z; [apply never_realign | apply never_ret].
Qed.

Lemma never_finish_step (generated : list CandidateSolution) (gen : nat) :
  never_EvoException (finish_step generated gen).
Proof.
  unfold finish_step.
  apply never_bind; [apply never_get | intros self].
  apply never_bind.
  { destruct (estimator self); [apply never_update_estimator | apply never_ret]. }
  intros _. repeat never_step.
Qed.

Lemma never_generate_from (pop : list CandidateSolution) (gen : nat) :
  never_EvoException (generate_from pop gen).
Proof.
  unfold generate_from. destruct pop as [|first rest]; [apply never_ret|].
  apply never_try. intros msg. unfold log_error. repeat never_step.
Qed.

Lemma never_generate_all (populations : list (list CandidateSolution)) (gen : nat) :
  forall generated, never_EvoException (generate_all populations gen generated).
Proof.
  induction populations as [|pop rest IH]; intros generated; cbn [generate_all].
  - apply never_ret.
  - apply never_bind; [apply never_generate_from | intros new_pool; apply IH].
Qed.

(** [_step] never lets an [EvoException] out. *)
Lemma never_step_EvoException (populations : list (list CandidateSolution)) (gen : nat) :
  never_EvoException (_step populations gen).
Proof.
  unfold _step.
  apply never_bind; [apply never_generate_all | intros generated; apply never_finish_step].
Qed.

(** What [_step] does with a population whose offspring generation fails. *)
Lemma generate_from_caught (self : MAPElites) (first : CandidateSolution)
      (rest : list CandidateSolution) (gen : nat) (env' : Env) (msg : String.string) :
  create_new_pool (first :: rest) gen BIN_POP_SIZE (minimize_flag self first) (env self)
    = (env', Raise (EvoException msg)) ->
  generate_from (first :: rest) gen self
    = (after_EvoException self (first :: rest) first gen env' msg, Return []).
Proof.
  intros Hcall.
  unfold generate_from, try_except_EvoException, call_create_new_pool, with_env,
    bind, get, modify, lift, log_error, ret.
  cbn. rewrite Hcall. reflexivity.
Qed.

(** C3: when [create_new_pool] raises [EvoException] on one of the two
    populations given to [_step], the exception is caught and its message
    logged, the population adds nothing to the generated solutions, and
    the step goes on with the other population exactly as if the failed
    one had not been there; no [EvoException] ever leaves [_step]. *)
Theorem step_survives_EvoException (self : MAPElites)
        (f_pop i_pop : list CandidateSolution) (gen : nat) :
  (forall first rest env' msg,
      f_pop = first :: rest ->
      create_new_pool f_pop gen BIN_POP_SIZE (minimize_flag self first) (env self)
        = (env', Raise (EvoException msg)) ->
      generate_from f_pop gen self
        = (after_EvoException self f_pop first gen env' msg, Return [])
      /\ error_log (after_EvoException self f_pop first gen env' msg)
         = error_log self ++ [msg]
      /\ _step [f_pop; i_pop] gen self
         = _step [i_pop] gen (after_EvoException self f_pop first gen env' msg))
  /\ (forall s1 new1 first rest env' msg,
      generate_from f_pop gen self = (s1, Return new1) ->
      i_pop = first :: rest ->
      create_new_pool i_pop gen BIN_POP_SIZE (minimize_flag s1 first) (env s1)
        = (env', Raise (EvoException msg)) ->
      generate_from i_pop gen s1
        = (after_EvoException s1 i_pop first gen env' msg, Return [])
      /\ error_log (after_EvoException s1 i_pop first gen env' msg)
         = error_log s1 ++ [msg]
      /\ _step [f_pop; i_pop] gen self
         = finish_step new1 gen (after_EvoException s1 i_pop first gen env' msg))
  /\ (forall msg, snd (_step [f_pop; i_pop] gen self) <> Raise (EvoException msg)).
Proof.
  split; [|split].
  - intros first rest env' msg -> Hcall.
    pose proof (generate_from_caught self first rest gen env' msg Hcall) as Hcaught.
    split; [exact Hcaught|]. split; [reflexivity|].
    unfold _step. cbn [generate_all]. unfold bind at 1 2.
    rewrite Hcaught. reflexivity.
  - intros s1 new1 first rest env' msg Hfirst -> Hcall.
    pose proof (generate_from_caught s1 first rest gen env' msg Hcall) as Hcaught.
    split; [exact Hcaught|]. split; [reflexivity|].
    unfold _step. cbn [generate_all]. unfold bind at 1 2.
    rewrite Hfirst. unfold bind at 1. rewrite Hcaught.
    cbn [app ret]. now rewrite !app_nil_r.
  - apply never_step_EvoException.
Qed.

Lemma generate_from_calls (pop : list CandidateSolution) (gen : nat) (self : MAPElites) :
  create_new_pool_calls (fst (generate_from pop gen self))
    = create_new_pool_calls self ++ expected_call self gen pop
  /\ estimator (fst (generate_from pop gen self)) = estimator self.
Proof.
  destruct pop as [|first rest]; cbn [generate_from expected_call].
  { cbn. now rewrite app_nil_r. }
  unfold try_except_EvoException, call_create_new_pool, with_env, on_each_new,
    bind, get, modify, lift, log_error, ret, raise.
  cbn.
  destruct (create_new_pool _ _ _ _ _) as [env' [pool|e|]]; cbn.
  - destruct (on_each (_prepare_cs_content _ true) _) as [prepared [[]|e|]]; cbn.
    + destruct (on_each (_assign_fitness _) _) as [assigned [[]|e|]]; cbn.
      * now split.
      * destruct e; cbn; now split.
      * now split.
    + destruct e; cbn; now split.
    + now split.
  - destruct e; cbn; now split.
  - now split.
Qed.

Lemma expected_call_estimator (s s' : MAPElites) (gen : nat) (pop : list CandidateSolution) :
  estimator s' = estimator s -> expected_call s' gen pop = expected_call s gen pop.
Proof.
  intros He. destruct pop as [|first rest]; [reflexivity|].
  cbn. unfold minimize_flag. now rewrite He.
Qed.

Lemma generate_all_calls (populations : list (list CandidateSolution)) (gen : nat) :
  forall (generated : list CandidateSolution) (self : MAPElites),
  exists made not_made,
    create_new_pool_calls (fst (generate_all populations gen generated self))
      = create_new_pool_calls self ++ made
    /\ expected_calls self gen populations = made ++ not_made
    /\ (is_return (snd (generate_all populations gen generated self)) = true
        -> not_made = [])
    /\ estimator (fst (generate_all populations gen generated self)) = estimator self.
Proof.
  induction populations as [|pop rest IH]; intros generated self.
  - exists [], []. cbn. now rewrite app_nil_r.
  - cbn [generate_all expected_calls flat_map].
    destruct (generate_from_calls pop gen self) as [Hcalls Hest].
    unfold bind.
    destruct (generate_from pop gen self) as [s1 [new_pool|e|]] eqn:Hfrom; cbn in *.
    + destruct (IH (generated ++ new_pool) s1) as (made & not_made & Hm & Hexp & Hret & He).
      exists (expected_call self gen pop ++ made), not_made.
      rewrite Hm, Hcalls, <- !app_assoc. split; [reflexivity|].
      split.
      { f_equal. rewrite <- Hexp. unfold expected_calls.
        apply flat_map_ext. intros p. now apply expected_call_estimator. }
      split; [exact Hret | congruence].
    + exists (expected_call self gen pop), (flat_map (expected_call self gen) rest).
      repeat split; try assumption. discriminate.
    + exists (expected_call self gen pop), (flat_map (expected_call self gen) rest).
      repeat split; try assumption. discriminate.
Qed.

Lemma on_each_length {S} (m : M S unit) (l : list S) :
  length (fst (on_each m l)) = length l.
Proof.
  induction l as [|a l IH]; cbn [on_each]; [reflexivity|].
  destruct (m a) as [a' [[]|e|]]; cbn; [|reflexivity|reflexivity].
  destruct (on_each m l) as [l' r]. cbn in *. now rewrite IH.
Qed.

Lemma preserves_realign (P : MAPElites -> Prop) :
  (forall s g', P s -> grid_like (bins s) g' -> P (set_bins s g')) ->
  preserves P realign.
Proof.
  intros Hbins s Hs. unfold realign.
  pose proof (on_each_length (realign_bin s) (flat (bins s))) as Hlen.
  destruct (on_each (realign_bin s) (flat (bins s))) as [cells r]. cbn in *.
  apply Hbins; [exact Hs|]. now split.
Qed.

Lemma preserves_update_estimator (P : MAPElites -> Prop) (est : Estimator)
      (generated : list CandidateSolution) (gen : nat) :
  (forall s g', P s -> grid_like (bins s) g' -> P (set_bins s g')) ->
  (forall s b, P s -> P (set_buffer s b)) ->
  (forall s e, P s -> P (set_estimator s e)) ->
  preserves P (update_estimator est generated gen).
Proof.
  intros Hbins Hbuffer Hest. unfold update_estimator, train_estimator.
  apply preserves_bind.
  { apply preserves_for_each. intros [x y].
    apply preserves_bind; [apply preserves_get | intros self].
    apply preserves_bind; [apply preserves_lift | intros target].
    apply preserves_modify. intros s Hs. now apply Hbuffer. }
  intros _. apply preserves_bind; [apply preserves_get | intros self].
  apply preserves_bind.
  { destruct (buffer_get (buffer self)) as [[xs ys]|]; [|apply preserves_ret].
    destruct (isinstance est GaussianEstimator).
    { apply preserves_modify. intros s Hs. now apply Hest. }
    destruct (_ || _)%bool; [|apply preserves_raise].
    destruct USE_TORCH; [|apply preserves_raise].
    apply preserves_modify. intros s Hs. now apply Hest. }
  intros _. apply preserves_bind; [apply preserves_get | intros self'].
  destruct (estimator self') as [est'|]; [|apply preserves_ret].
  destruct (is_trained est'); [|apply preserves_ret].
  destruct (ALIGNMENT_INTERVAL =? 0)%Z; [apply preserves_raise|].
  destruct (_ =? 0)%Z; [now apply preserves_realign | apply preserves_ret].
Qed.

Lemma preserves_finish_step (P : MAPElites -> Prop)
      (generated : list CandidateSolution) (gen : nat) :
  (forall s g', P s -> grid_like (bins s) g' -> P (set_bins s g')) ->
  (forall s b, P s -> P (set_buffer s b)) ->
  (forall s e, P s -> P (set_estimator s e)) ->
  (forall s n, P s -> P (set_n_new_solutions s n)) ->
  preserves P (finish_step generated gen).
Proof.
  intros Hbins Hbuffer Hest Hn. unfold finish_step.
  apply preserves_bind; [apply preserves_get | intros self].
  apply preserves_bind.
  { destruct (estimator self); [now apply preserves_update_estimator | apply preserves_ret]. }
  intros _. apply preserves_bind; [|intros _; apply preserves_ret].
  apply preserves_modify. intros s Hs. now apply Hn.
Qed.

Lemma direction_of_expected (self : MAPElites) (gen : nat)
      (populations : list (list CandidateSolution)) :
  Forall (direction_as_stated self) (expected_calls self gen populations).
Proof.
  unfold expected_calls. apply List.Forall_forall. intros call Hin.
  apply in_flat_map in Hin as (pop & _ & Hin).
  destruct pop as [|first rest]; [destruct Hin|].
  destruct Hin as [<-|[]]. cbn.
  exists first, rest. unfold minimize_flag.
  destruct (is_feasible first), (estimator self); repeat split; try congruence; try discriminate.
Qed.

Lemma world_after_calls_app (made more : list (list CandidateSolution * nat * nat * bool))
      (e : Env) :
  world_after_calls (made ++ more) e = world_after_calls more (world_after_calls made e).
Proof. unfold world_after_calls. apply fold_left_app. Qed.

(** The offspring generation of one population leaves the outside world
    as the call it is to make leaves it. *)
Lemma generate_from_world (pop : list CandidateSolution) (gen : nat) (self : MAPElites) :
  env (fst (generate_from pop gen self))
  = world_after_calls (expected_call self gen pop) (env self).
Proof.
  destruct pop as [|first rest]; cbn [generate_from expected_call]; [reflexivity|].
  unfold try_except_EvoException, call_create_new_pool, with_env, on_each_new,
    bind, get, modify, lift, log_error, ret, raise.
  cbn.
  destruct (create_new_pool _ _ _ _ _) as [env' [pool|e|]]; cbn.
  - destruct (on_each (_prepare_cs_content _ true) _) as [prepared [[]|e|]]; cbn.
    + destruct (on_each (_assign_fitness _) _) as [assigned [[]|e|]]; cbn.
      * reflexivity.
      * destruct e; reflexivity.
      * reflexivity.
    + destruct e; reflexivity.
    + reflexivity.
  - destruct e; reflexivity.
  - reflexivity.
Qed.

Lemma generate_all_world (populations : list (list CandidateSolution)) (gen : nat) :
  forall (generated : list CandidateSolution) (self : MAPElites),
  exists made not_made,
    create_new_pool_calls (fst (generate_all populations gen generated self))
      = create_new_pool_calls self ++ made
    /\ expected_calls self gen populations = made ++ not_made
    /\ (is_return (snd (generate_all populations gen generated self)) = true
        -> not_made = [])
    /\ env (fst (generate_all populations gen generated self))
       = world_after_calls made (env self).
Proof.
  induction populations as [|pop rest IH]; intros generated self.
  - exists [], []. cbn. now rewrite app_nil_r.
  - cbn [generate_all expected_calls flat_map].
    destruct (generate_from_calls pop gen self) as [Hcalls Hest].
    pose proof (generate_from_world pop gen self) as Hworld.
    unfold bind.
    destruct (generate_from pop gen self) as [s1 [new_pool|e|]] eqn:Hfrom; cbn in *.
    + destruct (IH (generated ++ new_pool) s1) as (made & not_made & Hm & Hexp & Hret & Henv).
      exists (expected_call self gen pop ++ made), not_made.
      rewrite Hm, Hcalls, <- !app_assoc. split; [reflexivity|].
      split.
      { f_equal. rewrite <- Hexp. unfold expected_calls.
        apply flat_map_ext. intros p. now apply expected_call_estimator. }
      split; [exact Hret|].
      now rewrite Henv, Hworld, world_after_calls_app.
    + exists (expected_call self gen pop), (flat_map (expected_call self gen) rest).
      repeat split; try assumption. discriminate.
    + exists (expected_call self gen pop), (flat_map (expected_call self gen) rest).
      repeat split; try assumption. discriminate.
Qed.

(** C2: the calls [_step] makes to [create_new_pool] are, in order, one for
    each non-empty population (all of them when the step returns), each
    with [minimize] false for a feasible population and, for an infeasible
    one, true exactly when no estimator is configured.  These calls are
    really made: the outside world after the step is the one they leave
    behind, and for every non-empty population the body of the loop is the
    rest of the body run on what [create_new_pool] answered when called
    with that population, the generation, [BIN_POP_SIZE] and that value of
    [minimize]. *)
Theorem step_minimize_flag (self : MAPElites)
        (populations : list (list CandidateSolution)) (gen : nat) :
  (exists made not_made,
      create_new_pool_calls (fst (_step populations gen self))
        = create_new_pool_calls self ++ made
      /\ expected_calls self gen populations = made ++ not_made
      /\ (is_return (snd (_step populations gen self)) = true -> not_made = [])
      /\ Forall (direction_as_stated self) made
      /\ env (fst (_step populations gen self)) = world_after_calls made (env self))
  /\ forall (s : MAPElites) (first : CandidateSolution) (rest : list CandidateSolution)
            (minimize : bool),
       (is_feasible first = true -> minimize = false) ->
       (is_feasible first = false -> (minimize = true <-> estimator s = None)) ->
       generate_from (first :: rest) gen s
       = offspring_of s
           (snd (create_new_pool (first :: rest) gen BIN_POP_SIZE minimize (env s)))
           (set_env (note_call s (first :: rest) gen minimize)
                    (fst (create_new_pool (first :: rest) gen BIN_POP_SIZE minimize (env s)))).
Proof.
  split.
  - destruct (generate_all_world populations gen [] self)
      as (made & not_made & Hcalls & Hexp & Hret & Henv).
    exists made, not_made.
    assert (Hdir : Forall (direction_as_stated self) made).
    { pose proof (direction_of_expected self gen populations) as Hall.
      rewrite Hexp in Hall. now apply Forall_app in Hall as [Hmade _]. }
    unfold _step, bind.
    destruct (generate_all populations gen [] self) as [s1 [generated|e|]] eqn:Hall;
      cbn [fst snd] in *.
    + pose proof (@preserves_finish_step
                    (fun s => create_new_pool_calls s = create_new_pool_calls s1
                              /\ env s = env s1)
                    generated gen) as Hframe.
      destruct (Hframe) with (s := s1) as [Hc He]; auto.
      rewrite Hc, He. auto.
    + repeat split; auto; discriminate.
    + repeat split; auto; discriminate.
  - intros s first rest minimize Hfeasible Hinfeasible.
    assert (Hflag : minimize = minimize_flag s first).
    { unfold minimize_flag. destruct (is_feasible first).
      - now apply Hfeasible.
      - specialize (Hinfeasible eq_refl). destruct (estimator s) as [est|].
        + destruct minimize; [|reflexivity].
          destruct Hinfeasible as [Hnone _]. discriminate (Hnone eq_refl).
        + now apply Hinfeasible. }
    subst minimize.
    unfold generate_from, offspring_of, try_except_EvoException, call_create_new_pool,
      with_env, note_call, bind, get, modify, lift.
    cbn [env set_create_new_pool_calls].
    destruct (create_new_pool _ _ _ _ _) as [env' created]. reflexivity.
Qed.

End WithCollaborators.
End StepFacts.

(** ** Random step and rewards *)

Module RewardFacts.
Import MAPElites MethodFacts.
Section WithCollaborators.
Context `{Config} `{Collaborators}.

Lemma valid_bins_aged (diff : Z) (cells : list MAPBin) :
  List.filter (fun cbin => 0 <? length (_feasible cbin)) cells = [] ->
  List.filter (fun cbin => 0 <? length (_feasible cbin))
              (List.map (MAPBin_age diff) cells) = [].
Proof.
  induction cells as [|cbin cells IH]; cbn [List.filter List.map]; [reflexivity|].
  destruct (0 <? length (_feasible cbin)) eqn:Hlen; [discriminate|].
  intros Hrest. cbn [MAPBin_age set_populations _feasible].
  rewrite length_map, Hlen. now apply IH.
Qed.

(** C4 fails on the code: on an archive without a valid bin [rand_step]
    ages the bins and then raises [IndexError], because [random.choice] is
    handed the empty list of valid bins. *)
Theorem rand_step_without_valid_bin (self : MAPElites) (gen : nat) :
  _valid_bins self = [] ->
  rand_step gen self = (fst (_age_bins (-1) self), Raise IndexError).
Proof.
  intros Hnone.
  unfold rand_step, _age_bins, modify_bins, bind, get, modify, ret.
  destruct (allow_aging self); cbn.
  - unfold _valid_bins in *. cbn. now rewrite valid_bins_aged.
  - now rewrite Hnone.
Qed.

Lemma visit_keeps_zero (cs : CandidateSolution) (current_best : Q) :
  ((age cs =? CS_MAX_AGE)%Z || Qle_bool (c_fitness cs) 0) = true ->
  fst (fitness_reward_visit (0%Q, current_best) cs) = 0%Q.
Proof.
  unfold fitness_reward_visit, Qltb.
  destruct (age cs =? CS_MAX_AGE)%Z; cbn.
  - intros _. now destruct (negb _).
  - intros ->. reflexivity.
Qed.

Lemma bests_keep_zero (pop : list CandidateSolution) :
  forall current_best,
    forallb (fun cs => (age cs =? CS_MAX_AGE)%Z || Qle_bool (c_fitness cs) 0) pop = true ->
    fst (fold_left fitness_reward_visit pop (0%Q, current_best)) = 0%Q.
Proof.
  induction pop as [|cs pop IH]; intros current_best Hall; [reflexivity|].
  cbn [forallb fold_left] in *. apply andb_true_iff in Hall as [Hcs Hpop].
  pose proof (visit_keeps_zero cs current_best Hcs) as Hzero.
  destruct (fitness_reward_visit (0%Q, current_best) cs) as [prev cur].
  cbn in Hzero. subst prev. now apply IH.
Qed.

Lemma visit_positive (bests : Q * Q) (cs : CandidateSolution) :
  (0 <= fst bests)%Q ->
  (fst bests <= fst (fitness_reward_visit bests cs))%Q
  /\ (((age cs =? CS_MAX_AGE)%Z || Qle_bool (c_fitness cs) 0) = false ->
      (0 < fst (fitness_reward_visit bests cs))%Q).
Proof.
  destruct bests as [prev cur]. cbn [fst]. intros Hprev.
  unfold fitness_reward_visit.
  destruct (age cs =? CS_MAX_AGE)%Z; cbn [andb orb negb].
  - destruct (Qltb prev (c_fitness cs)); cbn [fst]; split;
      try apply Qle_refl; discriminate.
  - destruct (Qltb prev (c_fitness cs)) eqn:Hlt; cbn [fst].
    + apply HullFacts.Qltb_lt in Hlt. split; [now apply Qlt_le_weak|].
      intros _. eapply Qle_lt_trans; eassumption.
    + split; [apply Qle_refl|]. intros Hpos.
      assert (Hc : ~ (c_fitness cs <= 0)%Q).
      { rewrite <- Qle_bool_iff. now rewrite Hpos. }
      assert (Hn : ~ (prev < c_fitness cs)%Q).
      { rewrite <- HullFacts.Qltb_lt. now rewrite Hlt. }
      apply Qnot_le_lt in Hc. apply Qnot_lt_le in Hn.
      eapply Qlt_le_trans; eassumption.
Qed.

Lemma bests_positive (pop : list CandidateSolution) :
  forall bests,
    (0 <= fst bests)%Q ->
    (fst bests <= fst (fold_left fitness_reward_visit pop bests))%Q
    /\ (forallb (fun cs => (age cs =? CS_MAX_AGE)%Z || Qle_bool (c_fitness cs) 0) pop = false ->
        (0 < fst (fold_left fitness_reward_visit pop bests))%Q).
Proof.
  induction pop as [|cs pop IH]; intros bests Hb; cbn [fold_left forallb].
  - split; [apply Qle_refl | discriminate].
  - destruct (visit_positive bests cs Hb) as [Hmono Hpos].
    assert (Hb' : (0 <= fst (fitness_reward_visit bests cs))%Q)
      by (eapply Qle_trans; eassumption).
    destruct (IH _ Hb') as [Hmono' Hpos'].
    split; [eapply Qle_trans; eassumption|].
    intros Hall. apply andb_false_iff in Hall as [Hcs | Hpop].
    + eapply Qlt_le_trans; [now apply Hpos | exact Hmono'].
    + now apply Hpos'.
Qed.

(** C5: [fitness_reward] divides by [prev_best] unguarded.  Whenever no
    feasible individual of an earlier generation has a positive composite
    fitness, [prev_best] is still [0] at the division and the call raises
    [ZeroDivisionError]; in every other archive it returns a value. *)
Theorem fitness_reward_divides_by_zero (self : MAPElites) :
  (no_previous_best self = true ->
   fst (fitness_reward_bests self) = 0%Q
   /\ fitness_reward self = Raise ZeroDivisionError)
  /\ (no_previous_best self = false ->
      (0 < fst (fitness_reward_bests self))%Q
      /\ is_return (fitness_reward self) = true).
Proof.
  unfold no_previous_best, fitness_reward, fitness_reward_bests. split.
  - intros Hnone.
    pose proof (bests_keep_zero (all_feasible (bins self)) 0%Q Hnone) as Hzero.
    destruct (fold_left _ _ _) as [prev cur]. cbn in Hzero. subst prev.
    split; reflexivity.
  - intros Hsome.
    destruct (bests_positive (all_feasible (bins self)) (0%Q, 0%Q) (Qle_refl 0))
      as [_ Hpos].
    specialize (Hpos Hsome).
    destruct (fold_left _ _ _) as [prev cur]. cbn [fst] in *.
    split; [exact Hpos|].
    unfold py_div. destruct (Qeq_bool prev 0) eqn:Hz; [|reflexivity].
    apply Qeq_bool_iff in Hz. rewrite Hz in Hpos. now apply Qlt_irrefl in Hpos.
Qed.

End WithCollaborators.
End RewardFacts.

(** ** MAPElites.seek_nearest_valid *)

Module SeekFacts.
Import MAPElites MethodFacts.
Section WithCollaborators.
Context `{Config} `{Collaborators}.

Lemma in_shape_bounds (g : Grid) (idx : Z * Z) :
  in_shape g idx = true <->
  (0 <= fst idx < Z.of_nat (fst (shape g)))%Z /\ (0 <= snd idx < Z.of_nat (snd (shape g)))%Z.
Proof. unfold in_shape. rewrite !andb_true_iff. lia. Qed.

Lemma axis_index_in_range (len : nat) (i : Z) :
  (0 <= i < Z.of_nat len)%Z -> axis_index len i = Return (Z.to_nat i).
Proof.
  intros Hi. unfold axis_index.
  destruct (i <? 0)%Z eqn:Hneg; [lia|].
  assert (Hin : ((0 <=? i) && (i <? Z.of_nat len))%Z = true)
    by (apply andb_true_iff; lia).
  now rewrite Hin.
Qed.

Lemma grid_get_in_shape (g : Grid) (idx : Z * Z) :
  grid_full g -> in_shape g idx = true ->
  exists cbin, grid_get g idx = Return cbin /\ In cbin (flat g).
Proof.
  intros Hfull [Hi Hj]%in_shape_bounds.
  unfold grid_get, grid_position.
  rewrite (axis_index_in_range _ _ Hi), (axis_index_in_range _ _ Hj).
  assert (Hpos : flat_position g (Z.to_nat (fst idx)) (Z.to_nat (snd idx)) < length (flat g)).
  { unfold flat_position. rewrite Hfull. nia. }
  apply Nat.ltb_lt in Hpos as Hltb. rewrite Hltb.
  destruct (lookup_lt_is_Some_2 (flat g) _ Hpos) as [cbin Hcbin].
  rewrite Hcbin. exists cbin. split; [reflexivity|].
  apply list_elem_of_In. eapply list_elem_of_lookup_2. exact Hcbin.
Qed.

Lemma seek_offsets_all_empty (g : Grid) (idx : Z * Z) :
  grid_full g -> no_infeasible g ->
  forall offsets new_pop to_inspect,
    seek_offsets g false idx offsets new_pop to_inspect
    = Return (new_pop, to_inspect ++ neighbours g offsets idx).
Proof.
  intros Hfull Hnone. induction offsets as [|offset rest IH]; intros new_pop to_inspect.
  - cbn. now rewrite app_nil_r.
  - cbn [seek_offsets]. unfold neighbours. cbn [List.map List.filter].
    fold (shift idx offset).
    destruct (in_shape g (shift idx offset)) eqn:Hin.
    + destruct (grid_get_in_shape g _ Hfull Hin) as (cbin & -> & Hcbin).
      unfold no_infeasible in Hnone. rewrite List.Forall_forall in Hnone.
      cbn [pool_of]. rewrite (Hnone cbin Hcbin).
      rewrite IH. unfold neighbours. now rewrite <- app_assoc.
    + apply IH.
Qed.

Lemma seek_inspecting_all_empty (g : Grid) (offsets : list (Z * Z)) :
  grid_full g -> no_infeasible g ->
  forall inspecting new_pop to_inspect,
    seek_inspecting g false offsets inspecting new_pop to_inspect
    = Return (new_pop, to_inspect ++ flat_map (neighbours g offsets) inspecting).
Proof.
  intros Hfull Hnone. induction inspecting as [|idx rest IH]; intros new_pop to_inspect.
  - cbn. now rewrite app_nil_r.
  - cbn [seek_inspecting flat_map].
    rewrite (seek_offsets_all_empty g idx Hfull Hnone), IH.
    now rewrite <- app_assoc.
Qed.

Lemma neighbours_in_shape (g : Grid) (offsets : list (Z * Z)) (idx : Z * Z) :
  Forall (fun n => in_shape g n = true) (neighbours g offsets idx).
Proof.
  apply List.Forall_forall. intros n Hn. unfold neighbours in Hn.
  now apply filter_In in Hn as [_ Hn].
Qed.

Lemma has_neighbour (g : Grid) (offsets : list (Z * Z)) (idx : Z * Z) :
  1 < fst (shape g) * snd (shape g) ->
  (forall o, In o offsets8 -> In o offsets) ->
  in_shape g idx = true ->
  neighbours g offsets idx <> [].
Proof.
  intros Hmany Hall [Hi Hj]%in_shape_bounds.
  assert (Hex : exists o, In o offsets8 /\ in_shape g (shift idx o) = true).
  { destruct (Z_lt_dec (fst idx + 1) (Z.of_nat (fst (shape g)))) as [Hdown|Hlast].
    { exists (1, 0)%Z. split; [cbn; tauto|]. apply in_shape_bounds. cbn. lia. }
    destruct (Z_lt_dec 0 (fst idx)) as [Hup|Hfirst].
    { exists (-1, 0)%Z. split; [cbn; tauto|]. apply in_shape_bounds. cbn. lia. }
    assert (Hrows : fst (shape g) = 1) by lia.
    destruct (Z_lt_dec (snd idx + 1) (Z.of_nat (snd (shape g)))) as [Hright|Hlastc].
    { exists (0, 1)%Z. split; [cbn; tauto|]. apply in_shape_bounds. cbn. lia. }
    destruct (Z_lt_dec 0 (snd idx)) as [Hleft|Hfirstc].
    { exists (0, -1)%Z. split; [cbn; tauto|]. apply in_shape_bounds. cbn. lia. }
    exfalso. assert (snd (shape g) = 1) by lia. nia. }
  destruct Hex as (o & Ho & Hin). intros Hempty.
  assert (Hmem : In (shift idx o) (neighbours g offsets idx)).
  { unfold neighbours. apply filter_In. split; [|exact Hin].
    apply in_map. now apply Hall. }
  rewrite Hempty in Hmem. destruct Hmem.
Qed.

Lemma seek_loop_runs_on (g : Grid) (offsets : list (Z * Z)) :
  grid_full g -> no_infeasible g -> 1 < fst (shape g) * snd (shape g) ->
  (forall o, In o offsets8 -> In o offsets) ->
  forall fuel inspecting,
    inspecting <> [] ->
    Forall (fun idx => in_shape g idx = true) inspecting ->
    seek_loop fuel g false offsets inspecting [] = OutOfFuel.
Proof.
  intros Hfull Hnone Hmany Hall.
  induction fuel as [|fuel IH]; intros inspecting Hne Hin; [reflexivity|].
  cbn [seek_loop]. rewrite (seek_inspecting_all_empty g offsets Hfull Hnone).
  cbn [app].
  destruct inspecting as [|idx rest]; [congruence|].
  apply Forall_cons in Hin as [Hidx Hrest].
  cbn [flat_map].
  pose proof (has_neighbour g offsets idx Hmany Hall Hidx) as Hsome.
  destruct (neighbours g offsets idx ++ flat_map (neighbours g offsets) rest)
    as [|n ns] eqn:Hnext.
  { apply app_eq_nil in Hnext as [Hnil _]. congruence. }
  rewrite <- Hnext. apply IH.
  - rewrite Hnext. discriminate.
  - apply Forall_app. split; [apply neighbours_in_shape|].
    apply List.Forall_forall. intros n' Hn'.
    apply in_flat_map in Hn' as (idx' & _ & Hn').
    pose proof (neighbours_in_shape g offsets idx') as Hall'.
    rewrite List.Forall_forall in Hall'. now apply Hall'.
Qed.

(** C6 fails on the code: on a grid of more than one bin whose infeasible
    populations are all empty, [seek_nearest_valid] started from any
    non-empty list of in-range bin indices never returns, whatever the
    number of rounds it is given: every round finds an in-range neighbour
    to inspect next, because [past_idxs] is never filled. *)
Theorem seek_nearest_valid_never_returns (self : MAPElites) (bin_idxs : list (Z * Z)) :
  grid_full (bins self) ->
  1 < bin_count self ->
  no_infeasible (bins self) ->
  Permutation offsets8 (snd (shuffle_offsets offsets8 (env self))) ->
  bin_idxs <> [] ->
  Forall (fun idx => in_shape (bins self) idx = true) bin_idxs ->
  forall fuel, snd (seek_nearest_valid fuel bin_idxs false self) = OutOfFuel.
Proof.
  intros Hfull Hmany Hnone Hperm Hne Hin fuel.
  unfold seek_nearest_valid, with_env, bind, get, lift.
  destruct (shuffle_offsets offsets8 (env self)) as [env' offsets] eqn:Hshuffle.
  cbn [snd] in *. cbn.
  apply seek_loop_runs_on; try assumption.
  intros o Ho. eapply Permutation_in; eassumption.
Qed.

End WithCollaborators.
End SeekFacts.

(** ** Initial populations *)

Module InitialPopulationFacts.
Section WithCollaborators.
Context `{Collaborators}.
Import FI2PopSolver.

Lemma cs_in_false (cs : CandidateSolution) (pop : list CandidateSolution) :
  cs_in cs pop = false -> ~ In (string cs) (List.map string pop).
Proof.
  unfold cs_in, cs_eq. intros Hnot Hin.
  apply in_map_iff in Hin as (other & Hs & Hother).
  assert (Hex : existsb (fun o => String.eqb (string o) (string cs)) pop = true).
  { apply existsb_exists. exists other. split; [exact Hother|].
    now apply String.eqb_eq. }
  congruence.
Qed.

Lemma place_solution_feasible_unique (self : FI2PopSolver) (pops_size : nat)
      (pops : list CandidateSolution * list CandidateSolution) (cs : CandidateSolution) :
  unique_strings (fst pops) ->
  unique_strings (fst (place_solution self pops_size pops cs)).
Proof.
  destruct pops as [feasible_pop infeasible_pop]. unfold place_solution, unique_strings.
  cbn [fst]. intros Huniq.
  destruct (is_feasible cs && (length feasible_pop <? pops_size)
            && negb (cs_in cs feasible_pop)) eqn:Htake.
  - cbn [fst]. rewrite map_app. cbn.
    apply andb_true_iff in Htake as [_ Hnew]. apply negb_true_iff in Hnew.
    apply NoDup_app. split; [exact Huniq|]. split.
    + intros s Hs Hin. apply list_elem_of_In in Hs, Hin. destruct Hin as [<-|[]].
      now apply (cs_in_false cs feasible_pop).
    + apply NoDup_singleton.
  - destruct (negb (is_feasible cs) && _ && _); exact Huniq.
Qed.

(** The feasible population is free of repeated strings, whatever the
    grammar engine produces. *)
Lemma initial_feasible_population_unique (self : FI2PopSolver) (pops_size : nat) :
  forall n_retries env pops,
    unique_strings (fst pops) ->
    unique_strings
      (fst (snd (initial_populations_loop self pops_size n_retries env pops))).
Proof.
  induction n_retries as [|retries IH]; intros env pops Huniq; [exact Huniq|].
  cbn [initial_populations_loop].
  destruct (apply_rules false env) as [env' solutions].
  assert (Hfold : forall l p, unique_strings (fst p) ->
            unique_strings (fst (fold_left (place_solution self pops_size) l p))).
  { induction l as [|cs l IHl]; intros p Hp; [exact Hp|].
    cbn [fold_left]. apply IHl. now apply place_solution_feasible_unique. }
  specialize (Hfold (subdivide_solutions solutions) pops Huniq).
  destruct (_ && _); [exact Hfold | now apply IH].
Qed.

End WithCollaborators.

Import MAPElites Scenario.
#[local] Existing Instance Scenario.config.
#[local] Existing Instance Scenario.world.

(** C8 fails on the code: when the grammar engine yields an infeasible
    string twice, both initial-population routines put it twice in the
    infeasible population, whose membership test looks at the feasible
    population instead. *)
Theorem initial_infeasible_population_repeats :
  ~ unique_strings
      (snd (snd (FI2PopSolver._generate_initial_populations plain_solver 2 1 repeating)))
  /\ match initial_populations 2 1 (archive 2 2 None repeating) with
     | (_, Return (_, infeasible_pop)) => ~ unique_strings infeasible_pop
     | _ => False
     end.
Proof.
  split.
  - vm_compute. intros Hdup. inversion Hdup as [|s l Hnot _]; subst.
    apply Hnot. now left.
  - vm_compute. intros Hdup. inversion Hdup as [|s l Hnot _]; subst.
    apply Hnot. now left.
Qed.

End InitialPopulationFacts.

(** ** Grid geometry across steps *)

Module GridFacts.
Import MAPElites MethodFacts StepFacts.
Section WithCollaborators.
Context `{Config} `{Collaborators}.

Lemma grid_like_refl (g : Grid) : grid_like g g.
Proof. now split. Qed.

Lemma grid_like_map (g : Grid) (method : MAPBin -> MAPBin) :
  grid_like g (grid_map g method).
Proof. split; [reflexivity|]. cbn. apply length_map. Qed.

Lemma grid_like_set (g : Grid) (k : nat) (b : MAPBin) : grid_like g (grid_set g k b).
Proof. split; [reflexivity|]. cbn. apply length_insert. Qed.

Section Geometric.
Variable P : MAPElites -> Prop.
Hypothesis HP : geometric P.

Lemma preserves_modify_bins (gf : Grid -> Grid) :
  (forall g, grid_like g (gf g)) -> preserves P (modify_bins gf).
Proof.
  intros Hgf. apply preserves_modify. intros s Hs.
  now apply (geometric_bins HP).
Qed.

Lemma preserves_with_env {A} (call : Env -> Env * A) : preserves P (with_env call).
Proof.
  intros s Hs. unfold with_env. destruct (call (env s)) as [env' a]. cbn.
  now apply (geometric_env HP).
Qed.

Lemma preserves_on_each_new {S} (m : M S unit) (l : list S) :
  preserves P (on_each_new m l).
Proof.
  intros s Hs. unfold on_each_new. now destruct (on_each m l) as [l' [[]|e|]].
Qed.

Ltac pres :=
  match goal with
  | |- preserves _ (bind _ _) => apply preserves_bind; [|intros ?]
  | |- preserves _ (ret _) => apply preserves_ret
  | |- preserves _ (raise _) => apply preserves_raise
  | |- preserves _ (lift _) => apply preserves_lift
  | |- preserves _ get => apply preserves_get
  | |- preserves _ (with_env _) => apply preserves_with_env
  | |- preserves _ (on_each_new _ _) => apply preserves_on_each_new
  | |- preserves _ (for_each _ _) => apply preserves_for_each; intros ?
  | |- preserves _ (modify_bins _) => apply preserves_modify_bins; intros ?
  | |- preserves _ (modify (fun s => set_emitter s _)) =>
      apply preserves_modify; intros ? ?; now apply (geometric_emitter HP)
  | |- preserves _ (modify (fun s => set_agent s _)) =>
      apply preserves_modify; intros ? ?; now apply (geometric_agent HP)
  | |- preserves _ (modify (fun s => set_infeas_fitness_idx s _)) =>
      apply preserves_modify; intros ? ?; now apply (geometric_idx HP)
  | |- preserves _ (modify (fun s => set_error_log s _)) =>
      apply preserves_modify; intros ? ?; now apply (geometric_log HP)
  | |- preserves _ (modify (fun s => set_create_new_pool_calls s _)) =>
      apply preserves_modify; intros ? ?; now apply (geometric_calls HP)
  | |- preserves _ (if ?b then _ else _) => destruct b
  | |- preserves _ (match ?x with _ => _ end) => destruct x
  | |- grid_like _ (grid_map _ _) => apply grid_like_map
  | |- grid_like _ (grid_set _ _ _) => apply grid_like_set
  end.

Lemma preserves_insert_at (idx : Z * Z) (cs : CandidateSolution) :
  preserves P (insert_at idx cs).
Proof. unfold insert_at. repeat pres. Qed.

Lemma preserves_update_bins (lcs : list CandidateSolution) :
  preserves P (_update_bins lcs).
Proof.
  unfold _update_bins. repeat pres; try apply preserves_insert_at.
Qed.

Lemma preserves_age_bins (diff : Z) : preserves P (_age_bins diff).
Proof. unfold _age_bins. repeat pres. Qed.

Lemma preserves_generate_from (pop : list CandidateSolution) (gen : nat) :
  preserves P (generate_from pop gen).
Proof.
  unfold generate_from. destruct pop as [|first rest]; [apply preserves_ret|].
  apply preserves_try; [|intros msg; unfold log_error; repeat pres].
  unfold call_create_new_pool. repeat pres.
Qed.

Lemma preserves_generate_all (populations : list (list CandidateSolution)) (gen : nat) :
  forall generated, preserves P (generate_all populations gen generated).
Proof.
  induction populations as [|pop rest IH]; intros generated; cbn [generate_all].
  - apply preserves_ret.
  - apply preserves_bind; [apply preserves_generate_from | intros new_pool; apply IH].
Qed.

Lemma preserves_step (populations : list (list CandidateSolution)) (gen : nat) :
  preserves P (_step populations gen).
Proof.
  unfold _step. apply preserves_bind; [apply preserves_generate_all | intros generated].
  apply preserves_finish_step.
  - apply (geometric_bins HP).
  - apply (geometric_buffer HP).
  - apply (geometric_estimator HP).
  - apply (geometric_count HP).
Qed.

Lemma preserves_random_choice {A} (l : list A) : preserves P (random_choice l).
Proof. unfold random_choice. repeat pres. Qed.

Lemma preserves_seek (fuel : nat) (bin_idxs : list (Z * Z)) (feasible : bool) :
  preserves P (seek_nearest_valid fuel bin_idxs feasible).
Proof. unfold seek_nearest_valid. repeat pres. Qed.

Lemma preserves_increase_preferences (idx : nat * nat) :
  preserves P (increase_preferences idx).
Proof. unfold increase_preferences. repeat pres. Qed.

Lemma preserves_apply_bandit (bandit : String.string * String.string) :
  preserves P (apply_bandit bandit).
Proof.
  unfold apply_bandit. destruct bandit as [emitter_str method_str].
  apply preserves_bind; [pres | intros _].
  apply preserves_bind; [repeat pres | intros _].
  intros s Hs.
  pose proof (on_each_length (select_quantile_bin (infeas_fitness_idx s)) (flat (bins s)))
    as Hlen.
  destruct (on_each _ _) as [cells r]. cbn in *.
  apply (geometric_bins HP); [exact Hs|]. now split.
Qed.

Hypothesis Hsub : forall idx, preserves P (subdivide_range idx).

Lemma preserves_check_res_trigger : preserves P _check_res_trigger.
Proof. unfold _check_res_trigger. repeat pres. apply Hsub. Qed.

Lemma preserves_archive_generated (generated : list CandidateSolution) :
  preserves P (archive_generated generated).
Proof.
  unfold archive_generated.
  apply preserves_bind; [apply preserves_update_bins | intros _].
  apply preserves_check_res_trigger.
Qed.

Lemma preserves_rand_step (gen : nat) : preserves P (rand_step gen).
Proof.
  unfold rand_step.
  apply preserves_bind; [apply preserves_age_bins | intros _].
  apply preserves_bind; [apply preserves_get | intros self].
  apply preserves_bind; [apply preserves_random_choice | intros rnd_bin].
  apply preserves_bind; [apply preserves_step | intros generated].
  destruct generated; [apply preserves_age_bins|].
  apply preserves_bind; [apply preserves_archive_generated | intros _; apply preserves_ret].
Qed.

Lemma preserves_interactive_step (fuel : nat) (bin_idxs : list (Z * Z)) (gen : nat) :
  preserves P (interactive_step fuel bin_idxs gen).
Proof.
  unfold interactive_step.
  apply preserves_bind; [apply preserves_age_bins | intros _].
  apply preserves_bind; [apply preserves_get | intros self].
  apply preserves_bind; [apply preserves_lift | intros chosen_bins].
  apply preserves_bind; [apply preserves_lift | intros [f_pop i_pop]].
  apply preserves_bind.
  { destruct i_pop; [apply preserves_seek | apply preserves_ret]. }
  intros i_pop'.
  apply preserves_bind; [apply preserves_step | intros generated].
  apply preserves_bind.
  { destruct generated.
    - apply preserves_bind; [apply preserves_age_bins | intros _; apply preserves_ret].
    - apply preserves_bind; [apply preserves_archive_generated | intros ?; apply preserves_ret]. }
  intros expanded_idxs. repeat pres.
Qed.

Lemma preserves_emitter_step (fuel gen : nat) : preserves P (emitter_step fuel gen).
Proof.
  unfold emitter_step.
  apply preserves_bind; [apply preserves_get | intros self].
  assert (Hmain : preserves P
    (bandit <- match agent self with
               | Some ag =>
                   bandit <- with_env (choose_bandit ag) ;;
                   apply_bandit bandit ;; ret (Some bandit)
               | None => ret None
               end ;;
     self0 <- get ;;
     match emitter self0 with
     | Some em =>
         picked <- with_env (pick_bin em (bins self0)) ;;
         (let '(em', selected_bins) := picked in
          modify (fun self1 => set_emitter self1 (Some em')) ;;
          (if selection_truthy selected_bins
           then
            pops <- lift (selected_populations selected_bins) ;;
            (let '(fpop, ipop, seek_from) := pops in
             ipop0 <- match ipop with
                      | [] => seek_nearest_valid fuel seek_from false
                      | _ :: _ => ret ipop
                      end ;;
             generated <- _step [fpop; ipop0] gen ;;
             match generated with
             | [] => ret tt
             | _ :: _ => archive_generated generated ;; ret tt
             end ;;
             self1 <- get ;;
             match emitter self1 with
             | Some em0 =>
                 if requires_post em0
                 then modify (fun self2 => set_emitter self2 (Some (post_step em0 (bins self2))))
                 else ret tt
             | None => ret tt
             end ;;
             self2 <- get ;;
             match agent self2 with
             | Some ag =>
                 match bandit with
                 | Some b =>
                     reward <- lift (total_reward self2) ;;
                     modify (fun self3 => set_agent self3 (Some (reward_bandit ag b reward)))
                 | None => ret tt
                 end
             | None => ret tt
             end)
           else ret tt))
     | None => raise AttributeError
     end)).
  { apply preserves_bind.
    { destruct (agent self); [|apply preserves_ret].
      apply preserves_bind; [apply preserves_with_env | intros bandit].
      apply preserves_bind; [apply preserves_apply_bandit | intros _; apply preserves_ret]. }
    intros bandit.
    apply preserves_bind; [apply preserves_get | intros self0].
    destruct (emitter self0) as [em|]; [|apply preserves_raise].
    apply preserves_bind; [apply preserves_with_env | intros [em' selected_bins]].
    apply preserves_bind; [pres | intros _].
    destruct (selection_truthy selected_bins); [|apply preserves_ret].
    apply preserves_bind; [apply preserves_lift | intros [[fpop ipop] seek_from]].
    apply preserves_bind.
    { destruct ipop; [apply preserves_seek | apply preserves_ret]. }
    intros ipop0.
    apply preserves_bind; [apply preserves_step | intros generated].
    apply preserves_bind.
    { destruct generated; [apply preserves_ret|].
      apply preserves_bind; [apply preserves_archive_generated | intros _; apply preserves_ret]. }
    intros _. repeat pres. }
  destruct (agent self), (emitter self); try exact Hmain. apply preserves_raise.
Qed.

Lemma preserves_run_step (fuel : nat) (call : StepCall) : preserves P (run_step fuel call).
Proof.
  destruct call; cbn [run_step].
  - apply preserves_rand_step.
  - apply preserves_interactive_step.
  - apply preserves_emitter_step.
Qed.

Lemma preserves_run_steps (fuel : nat) (calls : list StepCall) :
  forall s, P s -> P (run_steps fuel calls s).
Proof.
  induction calls as [|call rest IH]; intros s Hs; cbn [run_steps]; [exact Hs|].
  apply IH. now apply preserves_run_step.
Qed.

End Geometric.

Lemma length_ndindex (m n : nat) : length (ndindex m n) = m * n.
Proof.
  unfold ndindex. generalize 0 at 2. induction m as [|m IH]; intros start; [reflexivity|].
  cbn [seq flat_map]. rewrite length_app, length_map, length_seq, IH. lia.
Qed.

Lemma In_ndindex (m n a b : nat) : In (a, b) (ndindex m n) -> a < m /\ b < n.
Proof.
  unfold ndindex. intros Hin. apply in_flat_map in Hin as (i & Hi & Hin).
  apply in_map_iff in Hin as (j & [= <- <-] & Hj).
  apply in_seq in Hi, Hj. lia.
Qed.

Lemma map_result_all {A B} (g : A -> PyResult B) (Q : B -> Prop) (l : list A) :
  (forall a, In a l -> exists b, g a = Return b /\ Q b) ->
  exists bs, map_result g l = Return bs /\ length bs = length l /\ Forall Q bs.
Proof.
  induction l as [|a l IH]; intros Hall.
  - exists []. repeat split. constructor.
  - destruct (Hall a (or_introl eq_refl)) as (b & Hb & HQ).
    destruct IH as (bs & Hbs & Hlen & HQs); [intros a' Ha'; apply Hall; now right|].
    exists (b :: bs). cbn [map_result]. rewrite Hb, Hbs. cbn.
    repeat split; [now rewrite Hlen | now constructor].
Qed.

Lemma py_index_nat {A} (l : list A) (i : nat) :
  py_index l (Z.of_nat i)
  = match l !! i with Some a => Return a | None => Raise IndexError end.
Proof.
  unfold py_index.
  destruct (Z.of_nat i <? 0)%Z eqn:Hneg; [apply Z.ltb_lt in Hneg; lia|].
  rewrite Nat2Z.id.
  destruct ((0 <=? Z.of_nat i) && (Z.of_nat i <? Z.of_nat (length l)))%Z eqn:Hin;
    [reflexivity|].
  rewrite lookup_ge_None_2; [reflexivity|].
  apply andb_false_iff in Hin as [Hlow | Hhigh];
    [apply Z.leb_gt in Hlow | apply Z.ltb_ge in Hhigh]; lia.
Qed.

Lemma length_split_sizes (sizes : list Q) (i : nat) (v : Q) :
  length (split_sizes sizes i v) = length sizes + 1.
Proof.
  unfold split_sizes, py_insert.
  rewrite length_app. cbn [length]. rewrite length_take, length_drop, length_insert. lia.
Qed.

(** The bin sizes of an axis after the split at [i]: the two halves stand
    where the size [v] stood, the second right after the first. *)
Lemma split_sizes_halves (sizes : list Q) (i : nat) (v : Q) :
  sizes !! i = Some v ->
  split_sizes sizes i v = take i sizes ++ [(v / 2)%Q; (v / 2)%Q] ++ drop (S i) sizes.
Proof.
  intros Hv. apply lookup_lt_Some in Hv as Hlt.
  unfold split_sizes, py_insert.
  rewrite Nat.add_1_r.
  rewrite (take_S_r _ i (v / 2)%Q) by now apply list_lookup_insert_eq.
  rewrite take_insert_ge by lia.
  rewrite drop_insert_lt by lia.
  now rewrite <- app_assoc.
Qed.

Lemma geometric_at_least (k : nat) : geometric (at_least k).
Proof.
  constructor; try (intros s v Hs; exact Hs).
  intros s g' [(Hshape & H0' & H1' & Hfull) Hk] [Hs' Hl'].
  unfold at_least, grid_ok, grid_full, bin_count in *. cbn.
  rewrite Hs', Hl'. repeat split; assumption.
Qed.

Lemma geometric_geometry_is (sizes : list Q * list Q) (qnt : nat * nat) :
  geometric (geometry_is sizes qnt).
Proof.
  constructor; try (intros s v Hs; exact Hs).
  intros s g' [(Hshape & H0' & H1' & Hfull) Hk] [Hs' Hl'].
  unfold geometry_is, grid_ok, grid_full in *. cbn.
  rewrite Hs', Hl'. repeat split; try assumption; apply Hk.
Qed.

Lemma elite_source_in_range (i j m n a b : nat) :
  i < m -> j < n -> a < m + 1 -> b < n + 1 ->
  fst (elite_source i j a b) < m /\ snd (elite_source i j a b) < n.
Proof.
  intros Hi Hj Ha Hb. unfold elite_source.
  destruct (a =? i + 1) eqn:Ea, (b =? j + 1) eqn:Eb; cbn [negb orb fst snd];
    try (destruct (a <=? i) eqn:Ha'); try (destruct (b <=? j) eqn:Hb');
    cbn [fst snd];
    repeat match goal with
           | E : (_ =? _) = _ |- _ => first [apply Nat.eqb_eq in E | apply Nat.eqb_neq in E]
           | E : (_ <=? _) = _ |- _ => first [apply Nat.leb_le in E | apply Nat.leb_gt in E]
           end; lia.
Qed.

(** The new bin map of [subdivide_range] can be built, and is made of
    empty bins. *)
Lemma new_bins_built (self : MAPElites) (i j : nat) (v_i v_j : Q) :
  grid_ok self -> i < fst (bin_qnt self) -> j < snd (bin_qnt self) ->
  let resized := set_bin_sizes self (split_sizes (fst (bin_sizes self)) i v_i,
                                     split_sizes (snd (bin_sizes self)) j v_j) in
  let counted := set_bin_qnt resized (fst (bin_qnt resized) + 1, snd (bin_qnt resized) + 1) in
  exists cells,
    map_result (new_bin counted (bins counted) i j (v_i, v_j))
               (ndindex (fst (bin_qnt counted)) (snd (bin_qnt counted)))
      = Return cells
    /\ length cells = (fst (bin_qnt self) + 1) * (snd (bin_qnt self) + 1)
    /\ Forall empty_bin cells.
Proof.
  intros (Hshape & Hlen0 & Hlen1 & Hfull) Hi Hj resized counted.
  destruct (map_result_all (new_bin counted (bins counted) i j (v_i, v_j)) empty_bin
              (ndindex (fst (bin_qnt counted)) (snd (bin_qnt counted))))
    as (cells & Hcells & Hlen & Hempty).
  - intros [a b] Hin. apply In_ndindex in Hin as [Ha Hb].
    subst counted resized. cbn in Ha, Hb. unfold new_bin.
    rewrite !py_index_nat. cbn [bin_sizes set_bin_qnt set_bin_sizes fst snd].
    destruct (lookup_lt_is_Some_2 (split_sizes (fst (bin_sizes self)) i v_i) a) as [s0 ->].
    { rewrite length_split_sizes. lia. }
    destruct (lookup_lt_is_Some_2 (split_sizes (snd (bin_sizes self)) j v_j) b) as [s1 ->].
    { rewrite length_split_sizes. lia. }
    destruct (elite_source_in_range i j _ _ a b Hi Hj Ha Hb) as [Hx Hy].
    destruct (SeekFacts.grid_get_in_shape (bins self)
                (Zidx (elite_source i j a b)) Hfull) as (old & Hold & _).
    { apply SeekFacts.in_shape_bounds. rewrite Hshape. unfold Zidx. cbn [fst snd]. lia. }
    cbn [bins set_bin_qnt set_bin_sizes]. rewrite Hold.
    eexists. split; [reflexivity|]. split; reflexivity.
  - exists cells. split; [exact Hcells|]. split; [|exact Hempty].
    rewrite Hlen, length_ndindex. reflexivity.
Qed.

(** Up to the re-insertion, [subdivide_range] is the construction of the
    re-gridded archive. *)
Lemma subdivide_range_reaches (self : MAPElites) (i j : nat) (v_i v_j : Q)
      (cells : list MAPBin) :
  fst (bin_sizes self) !! i = Some v_i ->
  snd (bin_sizes self) !! j = Some v_j ->
  (let resized := set_bin_sizes self (split_sizes (fst (bin_sizes self)) i v_i,
                                      split_sizes (snd (bin_sizes self)) j v_j) in
   let counted := set_bin_qnt resized (fst (bin_qnt resized) + 1, snd (bin_qnt resized) + 1) in
   map_result (new_bin counted (bins counted) i j (v_i, v_j))
              (ndindex (fst (bin_qnt counted)) (snd (bin_qnt counted)))
     = Return cells) ->
  subdivide_range (i, j) self
  = (_update_bins (all_solutions (bins self)) ;; increase_preferences (i, j))
      (regridded self i j v_i v_j cells).
Proof.
  intros Hvi Hvj Hcells.
  unfold subdivide_range.
  unfold bind at 1. unfold get at 1. cbn iota.
  unfold bind at 1. unfold lift at 1. rewrite py_index_nat, Hvi.
  unfold bind at 1. unfold lift at 1. rewrite py_index_nat, Hvj.
  unfold bind at 1. unfold modify at 1. cbn iota.
  unfold bind at 1. unfold modify at 1. cbn iota.
  unfold bind at 1. unfold get at 1. cbn iota.
  unfold bind at 1. unfold lift at 1.
  cbv zeta in Hcells. rewrite Hcells.
  unfold bind at 1. unfold modify at 1. cbn iota.
  reflexivity.
Qed.

Lemma subdivide_range_at_least (k : nat) (idx : nat * nat) :
  preserves (at_least k) (subdivide_range idx).
Proof.
  destruct idx as [i j]. intros s Hs.
  destruct (fst (bin_sizes s) !! i) as [v_i|] eqn:Hvi.
  2:{ unfold subdivide_range, bind, get, lift. rewrite py_index_nat, Hvi. exact Hs. }
  destruct (snd (bin_sizes s) !! j) as [v_j|] eqn:Hvj.
  2:{ unfold subdivide_range, bind, get, lift. rewrite !py_index_nat, Hvi, Hvj. exact Hs. }
  destruct Hs as [Hok Hk].
  pose proof Hok as (Hshape & Hlen0 & Hlen1 & Hfull).
  apply lookup_lt_Some in Hvi as Hi. apply lookup_lt_Some in Hvj as Hj.
  rewrite Hlen0 in Hi. rewrite Hlen1 in Hj.
  destruct (new_bins_built s i j v_i v_j Hok Hi Hj) as (cells & Hcells & Hlen & _).
  rewrite (subdivide_range_reaches s i j v_i v_j cells Hvi Hvj Hcells).
  apply preserves_bind.
  - apply preserves_update_bins, geometric_at_least.
  - intros _. apply preserves_increase_preferences, geometric_at_least.
  - unfold at_least, grid_ok, grid_full, bin_count, regridded in *. cbn.
    rewrite !length_split_sizes, Hlen0, Hlen1, Hlen.
    rewrite Hshape in Hk. repeat split; try reflexivity. nia.
Qed.

Lemma length_cumsum_from (l : list Q) : forall acc, length (cumsum_from acc l) = length l.
Proof. induction l as [|a l IH]; intros acc; cbn; [reflexivity | now rewrite IH]. Qed.

Lemma length_boundaries (sizes : list Q) (lower : Q) :
  0 < length sizes -> length (boundaries sizes lower) = length sizes.
Proof.
  intros Hpos. unfold boundaries, cumsum.
  rewrite length_map, length_cumsum_from. cbn [length].
  rewrite removelast_firstn_len, length_take. lia.
Qed.

Lemma bin_index_range (v : Q) (bc : list Q) :
  (-1 <= bin_index v bc < Z.of_nat (length bc))%Z.
Proof.
  unfold bin_index, digitize.
  pose proof (List.filter_length_le (fun c => Qle_bool c v) bc). lia.
Qed.

Lemma axis_index_wrap (len : nat) (i : Z) :
  (-1 <= i < Z.of_nat len)%Z -> 0 < len ->
  exists k, axis_index len i = Return k /\ k < len.
Proof.
  intros Hi Hlen. unfold axis_index.
  destruct (i <? 0)%Z eqn:Hneg.
  - apply Z.ltb_lt in Hneg. assert (i = (-1)%Z) as -> by lia.
    assert (Hin : ((0 <=? -1 + Z.of_nat len) && (-1 + Z.of_nat len <? Z.of_nat len))%Z = true).
    { apply andb_true_iff. split; [apply Z.leb_le | apply Z.ltb_lt]; lia. }
    rewrite Hin. eexists. split; [reflexivity | lia].
  - apply Z.ltb_ge in Hneg.
    assert (Hin : ((0 <=? i) && (i <? Z.of_nat len))%Z = true).
    { apply andb_true_iff. split; [apply Z.leb_le | apply Z.ltb_lt]; lia. }
    rewrite Hin. eexists. split; [reflexivity | lia].
Qed.

Lemma grid_position_wrap (g : Grid) (idx : Z * Z) :
  grid_full g -> 0 < fst (shape g) -> 0 < snd (shape g) ->
  (-1 <= fst idx < Z.of_nat (fst (shape g)))%Z ->
  (-1 <= snd idx < Z.of_nat (snd (shape g)))%Z ->
  exists k, grid_position g idx = Return k /\ k < length (flat g).
Proof.
  intros Hfull Hm Hn Hi Hj. unfold grid_position.
  destruct (axis_index_wrap _ _ Hi Hm) as (a & -> & Ha).
  destruct (axis_index_wrap _ _ Hj Hn) as (b & -> & Hb).
  assert (Hpos : flat_position g a b < length (flat g)).
  { unfold flat_position. rewrite Hfull. nia. }
  apply Nat.ltb_lt in Hpos as Hltb. rewrite Hltb. now exists (flat_position g a b).
Qed.

Lemma insert_at_returns (s : MAPElites) (idx : Z * Z) (cs : CandidateSolution) :
  grid_full (bins s) -> 0 < fst (shape (bins s)) -> 0 < snd (shape (bins s)) ->
  (-1 <= fst idx < Z.of_nat (fst (shape (bins s))))%Z ->
  (-1 <= snd idx < Z.of_nat (snd (shape (bins s))))%Z ->
  exists g', insert_at idx cs s = (set_bins s g', Return tt) /\ grid_like (bins s) g'.
Proof.
  intros Hfull Hm Hn Hi Hj.
  destruct (grid_position_wrap (bins s) idx Hfull Hm Hn Hi Hj) as (k & Hk & Hlt).
  destruct (lookup_lt_is_Some_2 (flat (bins s)) k Hlt) as [cbin Hcbin].
  unfold insert_at, bind, get, lift, modify_bins, modify. rewrite Hk, Hcbin.
  eexists. split; [reflexivity|]. apply grid_like_set.
Qed.

Lemma grid_like_full (g g' : Grid) : grid_like g g' -> grid_full g -> grid_full g'.
Proof. intros [Hs Hl] Hfull. unfold grid_full. now rewrite Hs, Hl. Qed.

Lemma insert_all_returns (bc0 bc1 : list Q) (lcs : list CandidateSolution) :
  forall s,
    grid_full (bins s) ->
    0 < fst (shape (bins s)) -> 0 < snd (shape (bins s)) ->
    length bc0 = fst (shape (bins s)) -> length bc1 = snd (shape (bins s)) ->
    exists g',
      for_each lcs (fun cs => let '(b0, b1) := b_descs cs in
                              insert_at (bin_index b0 bc0, bin_index b1 bc1) cs) s
      = (set_bins s g', Return tt)
      /\ grid_like (bins s) g'.
Proof.
  induction lcs as [|cs lcs IH]; intros s Hfull Hm Hn H0' H1'.
  - exists (bins s). split; [now destruct s | apply grid_like_refl].
  - cbn [for_each]. unfold bind at 1.
    destruct (b_descs cs) as [b0 b1].
    destruct (insert_at_returns s (bin_index b0 bc0, bin_index b1 bc1) cs Hfull Hm Hn)
      as (g1 & -> & Hlike1).
    { cbn [fst]. rewrite <- H0'. apply bin_index_range. }
    { cbn [snd]. rewrite <- H1'. apply bin_index_range. }
    destruct Hlike1 as [Hs1 Hl1].
    destruct (IH (set_bins s g1)) as (g2 & Hrest & Hs2 & Hl2); cbn [bins set_bins];
      try (rewrite Hs1; assumption).
    { apply (grid_like_full (bins s)); [now split | exact Hfull]. }
    exists g2. rewrite Hrest. split; [reflexivity|].
    cbn [bins set_bins] in Hs2, Hl2. split; congruence.
Qed.

(** On a consistent archive with at least one bin on each axis and
    bounded behavior descriptors, [_update_bins] returns. *)
Lemma update_bins_returns (lcs : list CandidateSolution) (s : MAPElites) :
  grid_ok s -> 0 < fst (bin_qnt s) -> 0 < snd (bin_qnt s) ->
  bc_bounds (fst (behavior_descriptors s)) <> None ->
  bc_bounds (snd (behavior_descriptors s)) <> None ->
  exists g', _update_bins lcs s = (set_bins s g', Return tt) /\ grid_like (bins s) g'.
Proof.
  intros (Hshape & Hlen0 & Hlen1 & Hfull) Hm Hn Hb0 Hb1.
  unfold _update_bins. unfold bind at 1. unfold get at 1. cbn iota.
  unfold lower_bound.
  destruct (bc_bounds (fst (behavior_descriptors s))) as [bounds0|]; [|congruence].
  destruct (bc_bounds (snd (behavior_descriptors s))) as [bounds1|]; [|congruence].
  unfold bind at 1. unfold lift at 1. unfold bind at 1. unfold lift at 1.
  destruct (insert_all_returns (boundaries (fst (bin_sizes s)) (fst bounds0))
              (boundaries (snd (bin_sizes s)) (fst bounds1)) lcs s)
    as (g1 & Hloop & Hs1 & Hl1); try (rewrite Hshape; assumption); try assumption.
  { rewrite length_boundaries, Hshape; [exact Hlen0 | lia]. }
  { rewrite length_boundaries, Hshape; [exact Hlen1 | lia]. }
  unfold bind. rewrite Hloop.
  destruct (allow_aging s); cbn.
  - eexists. split; [reflexivity|]. split; cbn; [exact Hs1|].
    now rewrite length_map.
  - exists g1. split; [reflexivity|]. now split.
Qed.

Lemma increase_preferences_returns (idx : nat * nat) (s : MAPElites) :
  snd (increase_preferences idx s) = Return tt.
Proof.
  unfold increase_preferences, bind, get, modify, ret.
  destruct (emitter s) as [em|]; [|reflexivity].
  now destruct (is_HumanPrefMatrixEmitter em).
Qed.

Lemma cs_in_app_l (cs : CandidateSolution) (pop more : list CandidateSolution) :
  cs_in cs pop = true -> cs_in cs (pop ++ more) = true.
Proof. unfold cs_in. intros Hin. now rewrite existsb_app, Hin. Qed.

Lemma cs_in_last (cs : CandidateSolution) (pop : list CandidateSolution) :
  cs_in cs (pop ++ [cs]) = true.
Proof.
  unfold cs_in, cs_eq. rewrite existsb_app. cbn [existsb].
  rewrite String.eqb_refl. now rewrite orb_true_r.
Qed.

(** After [insert_cs(cs)] the bin holds [cs]. *)
Lemma bin_holds_inserted (cs : CandidateSolution) (cbin : MAPBin) :
  bin_holds (insert_cs cs cbin) cs = true.
Proof.
  unfold bin_holds, insert_cs.
  destruct (is_feasible cs).
  - destruct (cs_in cs (_feasible cbin)) eqn:Hin; [exact Hin | apply cs_in_last].
  - destruct (cs_in cs (_infeasible cbin)) eqn:Hin; [exact Hin | apply cs_in_last].
Qed.

(** [insert_cs] takes nothing out of a bin. *)
Lemma bin_holds_kept (cs held : CandidateSolution) (cbin : MAPBin) :
  bin_holds cbin held = true -> bin_holds (insert_cs cs cbin) held = true.
Proof.
  unfold bin_holds, insert_cs. intros Hheld.
  destruct (is_feasible cs).
  - destruct (cs_in cs (_feasible cbin)); [exact Hheld|].
    cbn [set_populations _feasible _infeasible].
    destruct (is_feasible held); [now apply cs_in_app_l | exact Hheld].
  - destruct (cs_in cs (_infeasible cbin)); [exact Hheld|].
    cbn [set_populations _feasible _infeasible].
    destruct (is_feasible held); [exact Hheld | now apply cs_in_app_l].
Qed.

(** [insert_cs(cs)] adds nothing but [cs] to a bin. *)
Lemma insert_cs_adds (cs other : CandidateSolution) (cbin : MAPBin) :
  In other (_feasible (insert_cs cs cbin) ++ _infeasible (insert_cs cs cbin)) ->
  other = cs \/ In other (_feasible cbin ++ _infeasible cbin).
Proof.
  unfold insert_cs.
  destruct (is_feasible cs).
  - destruct (cs_in cs (_feasible cbin)); [now right|].
    cbn [set_populations _feasible _infeasible]. rewrite !in_app_iff. cbn [In].
    intros [[Hin | [<- | []]] | Hin]; auto.
  - destruct (cs_in cs (_infeasible cbin)); [now right|].
    cbn [set_populations _feasible _infeasible]. rewrite !in_app_iff. cbn [In].
    intros [Hin | [Hin | [<- | []]]]; auto.
Qed.

Lemma grid_position_like (g g' : Grid) (idx : Z * Z) :
  grid_like g g' -> grid_position g' idx = grid_position g idx.
Proof. intros [Hshape Hlen]. unfold grid_position, flat_position. now rewrite Hshape, Hlen. Qed.

(** One insertion: the solution is held in the bin it was sent to, what
    was held before still is, and the grid holds nothing else that is new. *)
Lemma insert_at_holds (s : MAPElites) (idx : Z * Z) (cs : CandidateSolution) :
  grid_full (bins s) -> 0 < fst (shape (bins s)) -> 0 < snd (shape (bins s)) ->
  (-1 <= fst idx < Z.of_nat (fst (shape (bins s))))%Z ->
  (-1 <= snd idx < Z.of_nat (snd (shape (bins s))))%Z ->
  exists g',
    insert_at idx cs s = (set_bins s g', Return tt)
    /\ grid_like (bins s) g'
    /\ held_at g' idx cs
    /\ (forall idx' held, held_at (bins s) idx' held -> held_at g' idx' held)
    /\ (forall other, In other (all_solutions g') ->
                      other = cs \/ In other (all_solutions (bins s))).
Proof.
  intros Hfull Hm Hn Hi Hj.
  destruct (grid_position_wrap (bins s) idx Hfull Hm Hn Hi Hj) as (k & Hk & Hlt).
  destruct (lookup_lt_is_Some_2 (flat (bins s)) k Hlt) as [cbin Hcbin].
  unfold insert_at, bind, get, lift, modify_bins, modify. rewrite Hk, Hcbin.
  eexists. split; [reflexivity|].
  pose proof (grid_like_set (bins s) k (insert_cs cs cbin)) as Hlike.
  split; [exact Hlike|]. split; [|split].
  - exists (insert_cs cs cbin). split; [|apply bin_holds_inserted].
    unfold grid_get. rewrite (grid_position_like _ _ idx Hlike), Hk.
    cbn [grid_set flat]. now rewrite list_lookup_insert_eq.
  - intros idx' held (held_bin & Hget & Hheld). unfold held_at, grid_get in *.
    rewrite (grid_position_like _ _ idx' Hlike).
    destruct (grid_position (bins s) idx') as [k'|e|]; try discriminate.
    cbn [grid_set flat].
    destruct (flat (bins s) !! k') as [b'|] eqn:Hb'; [|discriminate].
    injection Hget as ->.
    destruct (Nat.eq_dec k k') as [<- | Hne].
    + rewrite list_lookup_insert_eq by exact Hlt.
      exists (insert_cs cs cbin). split; [reflexivity|].
      rewrite Hcbin in Hb'. injection Hb' as ->. now apply bin_holds_kept.
    + rewrite list_lookup_insert_ne by exact Hne. rewrite Hb'.
      now exists held_bin.
  - intros other Hin. unfold all_solutions in *. cbn [grid_set flat] in Hin.
    apply in_flat_map in Hin as (b' & Hb' & Hin).
    apply list_elem_of_In, list_elem_of_lookup_1 in Hb' as [k' Hk'].
    apply list_lookup_insert_Some in Hk' as [(_ & <- & _) | (_ & Hold)].
    + destruct (insert_cs_adds cs other cbin Hin) as [-> | Hin']; [now left | right].
      apply in_flat_map. exists cbin. split; [|exact Hin'].
      apply list_elem_of_In. eapply list_elem_of_lookup_2. exact Hcbin.
    + right. apply in_flat_map. exists b'. split; [|exact Hin].
      apply list_elem_of_In. eapply list_elem_of_lookup_2. exact Hold.
Qed.

(** The insertion loop of [_update_bins]. *)
Lemma insert_all_holds (bc0 bc1 : list Q) (lcs : list CandidateSolution) :
  forall s,
    grid_full (bins s) ->
    0 < fst (shape (bins s)) -> 0 < snd (shape (bins s)) ->
    length bc0 = fst (shape (bins s)) -> length bc1 = snd (shape (bins s)) ->
    exists g',
      for_each lcs (fun cs => let '(b0, b1) := b_descs cs in
                              insert_at (bin_index b0 bc0, bin_index b1 bc1) cs) s
      = (set_bins s g', Return tt)
      /\ grid_like (bins s) g'
      /\ (forall cs, In cs lcs ->
                     held_at g' (bin_index (fst (b_descs cs)) bc0,
                                 bin_index (snd (b_descs cs)) bc1) cs)
      /\ (forall idx held, held_at (bins s) idx held -> held_at g' idx held)
      /\ (forall other, In other (all_solutions g') ->
                        In other lcs \/ In other (all_solutions (bins s))).
Proof.
  induction lcs as [|cs lcs IH]; intros s Hfull Hm Hn H0' H1'.
  - exists (bins s). split; [now destruct s|]. split; [apply grid_like_refl|].
    split; [intros cs []|]. split; [auto | intros other Hin; now right].
  - cbn [for_each]. unfold bind at 1.
    destruct (b_descs cs) as [b0 b1] eqn:Hdescs.
    destruct (insert_at_holds s (bin_index b0 bc0, bin_index b1 bc1) cs Hfull Hm Hn)
      as (g1 & -> & Hlike1 & Hheld1 & Hkept1 & Hnew1).
    { cbn [fst]. rewrite <- H0'. apply bin_index_range. }
    { cbn [snd]. rewrite <- H1'. apply bin_index_range. }
    pose proof Hlike1 as [Hs1 Hl1].
    destruct (IH (set_bins s g1)) as (g2 & Hrest & [Hs2 Hl2] & Hheld2 & Hkept2 & Hnew2);
      cbn [bins set_bins]; try (rewrite Hs1; assumption).
    { apply (grid_like_full (bins s)); [exact Hlike1 | exact Hfull]. }
    exists g2. rewrite Hrest. cbn [bins set_bins] in *.
    split; [reflexivity|]. split; [split; congruence|]. split; [|split].
    + intros cs' [<- | Hin].
      * apply Hkept2. now rewrite Hdescs.
      * now apply Hheld2.
    + intros idx held Hheld. now apply Hkept2, Hkept1.
    + intros other Hin. destruct (Hnew2 other Hin) as [Hin' | Hin'].
      * left. now right.
      * destruct (Hnew1 other Hin') as [-> | Hold]; [left; now left | now right].
Qed.

(** On a consistent archive with at least one bin on each axis and
    bounded behavior descriptors, [_update_bins] returns with every
    solution of the list held in the bin its descriptors select; the bins
    are then handed to [remove_old] when aging is on. *)
Lemma update_bins_holds (lcs : list CandidateSolution) (s : MAPElites)
      (bounds0 bounds1 : Q * Q) :
  grid_ok s -> 0 < fst (bin_qnt s) -> 0 < snd (bin_qnt s) ->
  bc_bounds (fst (behavior_descriptors s)) = Some bounds0 ->
  bc_bounds (snd (behavior_descriptors s)) = Some bounds1 ->
  exists filled,
    _update_bins lcs s
    = (set_bins s (if allow_aging s then grid_map filled remove_old else filled), Return tt)
    /\ grid_like (bins s) filled
    /\ (forall cs, In cs lcs ->
                   held_at filled (target_idx (bin_sizes s) (fst bounds0, fst bounds1) cs) cs)
    /\ (forall other, In other (all_solutions filled) ->
                      In other lcs \/ In other (all_solutions (bins s))).
Proof.
  intros (Hshape & Hlen0 & Hlen1 & Hfull) Hm Hn Hb0 Hb1.
  unfold _update_bins. unfold bind at 1. unfold get at 1. cbn iota.
  unfold lower_bound. rewrite Hb0, Hb1.
  unfold bind at 1. unfold lift at 1. unfold bind at 1. unfold lift at 1.
  destruct (insert_all_holds (boundaries (fst (bin_sizes s)) (fst bounds0))
              (boundaries (snd (bin_sizes s)) (fst bounds1)) lcs s)
    as (g1 & Hloop & Hlike & Hheld & _ & Hnew);
    try (rewrite Hshape; assumption); try assumption.
  { rewrite length_boundaries, Hshape; [exact Hlen0 | lia]. }
  { rewrite length_boundaries, Hshape; [exact Hlen1 | lia]. }
  unfold bind. rewrite Hloop.
  exists g1. split.
  { unfold modify_bins, modify, ret. cbn [allow_aging set_bins bins].
    destruct (allow_aging s); cbn; reflexivity. }
  split; [exact Hlike|]. split; [exact Hheld | exact Hnew].
Qed.

Lemma archived_all_solutions (g : Grid) (cs : CandidateSolution) :
  archived g cs <-> In cs (all_solutions g).
Proof.
  unfold archived, all_solutions. rewrite in_flat_map.
  split; intros (cbin & Hin & Hcs); exists cbin; (split; [exact Hin|]);
    now apply in_app_iff.
Qed.

Lemma all_solutions_empty (shp : nat * nat) (cells : list MAPBin) :
  Forall empty_bin cells -> all_solutions {| shape := shp; flat := cells |} = [].
Proof.
  unfold all_solutions. cbn [flat].
  induction 1 as [|cbin cells [Hf Hi] _ IH]; [reflexivity|].
  cbn [flat_map]. now rewrite Hf, Hi, IH.
Qed.

Lemma increase_preferences_bins (idx : nat * nat) (s : MAPElites) :
  bins (fst (increase_preferences idx s)) = bins s.
Proof.
  unfold increase_preferences, bind, get, modify, ret.
  destruct (emitter s) as [em|]; [|reflexivity].
  now destruct (is_HumanPrefMatrixEmitter em).
Qed.

(** C7: a call of [subdivide_range] on a consistent [(m, n)] archive, at
    a bin [(i, j)] of the grid, halves the size of that bin on both axes
    and puts the other half right after it; makes the grid [(m + 1, n +
    1)]; and builds that grid from empty bins into which it re-inserts, by
    [_update_bins], every solution that was archived (returning normally
    when the behavior descriptors are bounded): when the insertion loop
    ends, every solution that was archived is held by the bin of the new
    grid that its descriptors select under the new bin sizes, and the new
    grid holds nothing else; [_update_bins] then hands the bins to
    [remove_old] if aging is on.  Hence the number of bins never goes down
    over a run of step calls. *)
Theorem subdivide_range_refines (self : MAPElites) (i j : nat) :
  grid_ok self -> i < fst (bin_qnt self) -> j < snd (bin_qnt self) ->
  (exists v_i v_j cells,
      fst (bin_sizes self) !! i = Some v_i
      /\ snd (bin_sizes self) !! j = Some v_j
      /\ bin_sizes (fst (subdivide_range (i, j) self))
         = (take i (fst (bin_sizes self)) ++ [(v_i / 2)%Q; (v_i / 2)%Q]
              ++ drop (S i) (fst (bin_sizes self)),
            take j (snd (bin_sizes self)) ++ [(v_j / 2)%Q; (v_j / 2)%Q]
              ++ drop (S j) (snd (bin_sizes self)))
      /\ Forall empty_bin cells
      /\ bins (regridded self i j v_i v_j cells)
         = {| shape := (fst (bin_qnt self) + 1, snd (bin_qnt self) + 1); flat := cells |}
      /\ subdivide_range (i, j) self
         = (_update_bins (all_solutions (bins self)) ;; increase_preferences (i, j))
             (regridded self i j v_i v_j cells))
  /\ bin_qnt (fst (subdivide_range (i, j) self))
     = (fst (bin_qnt self) + 1, snd (bin_qnt self) + 1)
  /\ shape (bins (fst (subdivide_range (i, j) self)))
     = (fst (bin_qnt self) + 1, snd (bin_qnt self) + 1)
  /\ grid_ok (fst (subdivide_range (i, j) self))
  /\ (bc_bounds (fst (behavior_descriptors self)) <> None ->
      bc_bounds (snd (behavior_descriptors self)) <> None ->
      snd (subdivide_range (i, j) self) = Return tt)
  /\ (forall bounds0 bounds1,
         bc_bounds (fst (behavior_descriptors self)) = Some bounds0 ->
         bc_bounds (snd (behavior_descriptors self)) = Some bounds1 ->
         exists filled,
           bins (fst (subdivide_range (i, j) self))
           = (if allow_aging self then grid_map filled remove_old else filled)
           /\ shape filled = (fst (bin_qnt self) + 1, snd (bin_qnt self) + 1)
           /\ (forall cs,
                  archived (bins self) cs ->
                  held_at filled
                    (target_idx (bin_sizes (fst (subdivide_range (i, j) self)))
                                (fst bounds0, fst bounds1) cs)
                    cs)
           /\ (forall cs, archived filled cs -> archived (bins self) cs))
  /\ bin_count self < bin_count (fst (subdivide_range (i, j) self))
  /\ forall fuel calls,
       grid_ok (run_steps fuel calls self)
       /\ bin_count self <= bin_count (run_steps fuel calls self).
Proof.
  intros Hok Hi Hj.
  pose proof Hok as (Hshape & Hlen0 & Hlen1 & Hfull).
  destruct (lookup_lt_is_Some_2 (fst (bin_sizes self)) i) as [v_i Hvi]; [lia|].
  destruct (lookup_lt_is_Some_2 (snd (bin_sizes self)) j) as [v_j Hvj]; [lia|].
  destruct (new_bins_built self i j v_i v_j Hok Hi Hj) as (cells & Hcells & Hlen & Hempty).
  pose proof (subdivide_range_reaches self i j v_i v_j cells Hvi Hvj Hcells) as Hreach.
  set (sizes := (split_sizes (fst (bin_sizes self)) i v_i,
                 split_sizes (snd (bin_sizes self)) j v_j)).
  set (qnt := (fst (bin_qnt self) + 1, snd (bin_qnt self) + 1)).
  assert (Hregrid : geometry_is sizes qnt (regridded self i j v_i v_j cells)).
  { unfold geometry_is, grid_ok, grid_full, regridded. cbn.
    rewrite !length_split_sizes, Hlen0, Hlen1, Hlen. repeat split. }
  assert (Hafter : geometry_is sizes qnt (fst (subdivide_range (i, j) self))).
  { rewrite Hreach. apply preserves_bind.
    - apply preserves_update_bins, geometric_geometry_is.
    - intros _. apply preserves_increase_preferences, geometric_geometry_is.
    - exact Hregrid. }
  destruct Hafter as (Hok' & Hsizes' & Hqnt').
  split; [|split; [|split; [|split; [|split; [|split; [|split]]]]]].
  - exists v_i, v_j, cells. repeat split; try assumption.
    rewrite Hsizes'. unfold sizes. now rewrite !split_sizes_halves.
  - exact Hqnt'.
  - destruct Hok' as (Hshape' & _). now rewrite Hshape', Hqnt'.
  - exact Hok'.
  - intros Hb0 Hb1. rewrite Hreach.
    destruct Hregrid as (Hokr & _ & Hqntr).
    destruct (update_bins_returns (all_solutions (bins self))
                (regridded self i j v_i v_j cells) Hokr) as (g' & Hupd & _);
      try (rewrite Hqntr; cbn; lia); try assumption.
    unfold bind. rewrite Hupd. apply increase_preferences_returns.
  - intros bounds0 bounds1 Hb0 Hb1. rewrite Hsizes', Hreach.
    destruct Hregrid as (Hokr & Hsizesr & Hqntr).
    destruct (update_bins_holds (all_solutions (bins self))
                (regridded self i j v_i v_j cells) bounds0 bounds1 Hokr)
      as (filled & Hupd & [Hshapef _] & Hheld & Hnew);
      try (rewrite Hqntr; cbn; lia); try assumption.
    exists filled. unfold bind. rewrite Hupd, increase_preferences_bins.
    split; [reflexivity|]. split; [exact Hshapef|]. split.
    + intros cs Hcs. rewrite <- Hsizesr. now apply Hheld, archived_all_solutions.
    + intros cs Hcs. apply archived_all_solutions in Hcs. apply archived_all_solutions.
      destruct (Hnew cs Hcs) as [Hold | Hnone]; [exact Hold|].
      unfold regridded in Hnone. cbn [bins set_bins] in Hnone.
      rewrite (all_solutions_empty _ cells Hempty) in Hnone. destruct Hnone.
  - destruct Hok' as (Hshape' & _). unfold bin_count.
    rewrite Hshape', Hqnt', Hshape. cbn [fst snd qnt]. nia.
  - intros fuel calls.
    apply (preserves_run_steps _ (geometric_at_least (bin_count self))
             (subdivide_range_at_least (bin_count self)) fuel calls self).
    split; [exact Hok | apply Nat.le_refl].
Qed.

End WithCollaborators.
End GridFacts.

(** ** The properties on the scripted world *)

Module Witnesses.
Import MAPElites Scenario HullBuilder.
#[local] Existing Instance Scenario.config.
#[local] Existing Instance Scenario.world.

(** A random step whose first offspring generation fails and whose second
    breeds one child: the failure is logged, the child archived. *)
Example rand_step_runs :
  let after := rand_step 0 (seeded None failing_first) in
  snd after = Return tt
  /\ error_log (fst after) = ["No offspring could be generated."%string]
  /\ List.map (fun b => List.map string (_feasible b)) (flat (bins (fst after)))
     = [["cockpit"%string; "child"%string]; []; []; []].
Proof. vm_compute. repeat split. Qed.

(** An interactive step on an archive without any infeasible solution is
    still inside the neighbour search after three rounds. *)
Example interactive_step_runs_out :
  snd (interactive_step 3 [(0, 0)%Z] 0
         (archive_with 2 2
            [bin_with (0, 0) [archived_cs "cockpit"%string 3 (1 # 2)%Q] [];
             bin_with (0, 1) [] []; bin_with (1, 0) [] []; bin_with (1, 1) [] []]
            None failing_first))
  = OutOfFuel.
Proof. vm_compute. reflexivity. Qed.

(** The neighbour search does return when some bin holds an infeasible
    solution. *)
Example seek_nearest_valid_finds :
  snd (seek_nearest_valid 3 [(1, 1)%Z] false (seeded None silence))
  = Return [cs_set_age (infeasible_cs "corridor"%string 1) 3].
Proof. vm_compute. reflexivity. Qed.

(** The search does end, with nothing found, when it is given no bin to
    start from or when the grid has a single bin. *)
Example seek_nearest_valid_nowhere :
  snd (seek_nearest_valid 1 [] false (archive 2 2 None silence)) = Return []
  /\ snd (seek_nearest_valid 1 [(0, 0)%Z] false (archive 1 1 None silence)) = Return [].
Proof. split; reflexivity. Qed.

(** The archive [__init__] builds has consistent tables. *)
Lemma archive_grid_ok (m n : nat) (est : option Estimator) (e : Script) :
  grid_ok (archive m n est e).
Proof.
  unfold grid_ok, grid_full. cbn.
  rewrite !repeat_length, length_map, GridFacts.length_ndindex. repeat split.
Qed.

(** Subdividing the first bin of the seeded archive. *)
Example subdivide_range_runs :
  let after := subdivide_range (0, 0) (seeded None silence) in
  snd after = Return tt
  /\ bin_qnt (fst after) = (3, 3)
  /\ List.map (fun b => length (_feasible b ++ _infeasible b)) (flat (bins (fst after)))
     = [2; 0; 0; 0; 0; 0; 0; 0; 0].
Proof. vm_compute. repeat split. Qed.

(** C1 on a trained quantile estimator: the median of the prediction. *)
Lemma compute_fitness_infeasible_witness :
  is_feasible (infeasible_cs "corridor"%string 1) = false
  /\ snd (compute_fitness (archive 2 2 (Some (quantile_estimator true)) silence)
                          (infeasible_cs "corridor"%string 1))
     = Return (1 # 2)%Q.
Proof.
  split; [reflexivity|].
  pose proof (FitnessFacts.compute_fitness_infeasible
                (archive 2 2 (Some (quantile_estimator true)) silence)
                (infeasible_cs "corridor"%string 1) eq_refl) as Hfit.
  cbn [estimator archive is_trained quantile_estimator] in Hfit.
  destruct (Hfit (or_intror (conj eq_refl (or_intror eq_refl))) eq_refl)
    as (_ & _ & Hmedian).
  apply (Hmedian (1 # 10)%Q (1 # 2)%Q (9 # 10)%Q eq_refl). cbn. lia.
Defined.

(** C2 on the two populations of the seeded archive, which has no
    estimator: the feasible one is bred with [minimize] false and the
    infeasible one with [minimize] true, and the step leaves the outside
    world as these two calls leave it. *)
Lemma step_minimize_flag_witness :
  let self := seeded None failing_first in
  let f_pop := [archived_cs "cockpit"%string 3 (1 # 2)%Q] in
  let i_pop := [infeasible_cs "corridor"%string 1] in
  let calls := [(f_pop, 0, BIN_POP_SIZE, false); (i_pop, 0, BIN_POP_SIZE, true)] in
  create_new_pool_calls (fst (_step [f_pop; i_pop] 0 self)) = calls
  /\ env (fst (_step [f_pop; i_pop] 0 self)) = world_after_calls calls (env self)
  /\ generate_from i_pop 0 self
     = offspring_of self (snd (create_new_pool i_pop 0 BIN_POP_SIZE true (env self)))
         (set_env (note_call self i_pop 0 true)
                  (fst (create_new_pool i_pop 0 BIN_POP_SIZE true (env self)))).
Proof.
  intros self f_pop i_pop calls.
  destruct (StepFacts.step_minimize_flag self [f_pop; i_pop] 0)
    as [(made & not_made & Hcalls & Hexp & Hret & _ & Henv) Hbody].
  assert (Hreturns : is_return (snd (_step [f_pop; i_pop] 0 self)) = true)
    by (vm_compute; reflexivity).
  rewrite (Hret Hreturns), app_nil_r in Hexp. subst made.
  split; [exact Hcalls|]. split; [exact Henv|].
  apply (Hbody self (infeasible_cs "corridor"%string 1) [] true).
  - discriminate.
  - intros _. split; reflexivity.
Defined.

(** C3 when offspring generation fails on the feasible population. *)
Lemma step_survives_EvoException_witness :
  create_new_pool [archived_cs "cockpit"%string 3 (1 # 2)%Q] 0 BIN_POP_SIZE
    (minimize_flag (seeded None failing_first) (archived_cs "cockpit"%string 3 (1 # 2)%Q))
    (env (seeded None failing_first))
  = ({| batches := []; pools := [Return [feasible_cs "child"%string]]; draws := [0] |},
     Raise (EvoException "No offspring could be generated."%string))
  /\ _step [[archived_cs "cockpit"%string 3 (1 # 2)%Q]; [infeasible_cs "corridor"%string 1]]
           0 (seeded None failing_first)
     = _step [[infeasible_cs "corridor"%string 1]] 0
             (after_EvoException (seeded None failing_first)
                [archived_cs "cockpit"%string 3 (1 # 2)%Q]
                (archived_cs "cockpit"%string 3 (1 # 2)%Q) 0
                {| batches := []; pools := [Return [feasible_cs "child"%string]];
                   draws := [0] |}
                "No offspring could be generated."%string).
Proof.
  split; [reflexivity|].
  destruct (StepFacts.step_survives_EvoException (seeded None failing_first)
              [archived_cs "cockpit"%string 3 (1 # 2)%Q]
              [infeasible_cs "corridor"%string 1] 0) as [Hfirst _].
  destruct (Hfirst (archived_cs "cockpit"%string 3 (1 # 2)%Q) []
              {| batches := []; pools := [Return [feasible_cs "child"%string]];
                 draws := [0] |}
              "No offspring could be generated."%string eq_refl eq_refl)
    as (_ & _ & Hstep).
  exact Hstep.
Defined.

(** C4 on the archive as [__init__] leaves it: no bin is valid. *)
Lemma rand_step_without_valid_bin_witness :
  _valid_bins (archive 2 2 None silence) = []
  /\ snd (rand_step 0 (archive 2 2 None silence)) = Raise IndexError.
Proof.
  split; [reflexivity|].
  now rewrite (RewardFacts.rand_step_without_valid_bin (archive 2 2 None silence) 0 eq_refl).
Defined.

(** C5 on the archive right after the initial populations were generated:
    every individual is of the current generation. *)
Lemma fitness_reward_divides_by_zero_witness :
  no_previous_best
    (fst (generate_initial_populations 2 1 (archive 2 2 None first_batch))) = true
  /\ fitness_reward
       (fst (generate_initial_populations 2 1 (archive 2 2 None first_batch)))
     = Raise ZeroDivisionError.
Proof.
  assert (Hnone : no_previous_best
            (fst (generate_initial_populations 2 1 (archive 2 2 None first_batch))) = true)
    by (vm_compute; reflexivity).
  split; [exact Hnone|].
  destruct (RewardFacts.fitness_reward_divides_by_zero
              (fst (generate_initial_populations 2 1 (archive 2 2 None first_batch))))
    as [Hzero _].
  exact (proj2 (Hzero Hnone)).
Defined.

(** C6 on the empty 2 x 2 archive, started from its first bin. *)
Lemma seek_nearest_valid_never_returns_witness :
  grid_full (bins (archive 2 2 None silence))
  /\ 1 < bin_count (archive 2 2 None silence)
  /\ no_infeasible (bins (archive 2 2 None silence))
  /\ Permutation offsets8 (snd (shuffle_offsets offsets8 (env (archive 2 2 None silence))))
  /\ [(0, 0)%Z] <> []
  /\ Forall (fun idx => in_shape (bins (archive 2 2 None silence)) idx = true) [(0, 0)%Z]
  /\ snd (seek_nearest_valid 8 [(0, 0)%Z] false (archive 2 2 None silence)) = OutOfFuel.
Proof.
  assert (Hfull : grid_full (bins (archive 2 2 None silence))) by reflexivity.
  assert (Hmany : 1 < bin_count (archive 2 2 None silence)) by (cbn; lia).
  assert (Hnone : no_infeasible (bins (archive 2 2 None silence)))
    by (repeat constructor).
  assert (Hperm : Permutation offsets8
            (snd (shuffle_offsets offsets8 (env (archive 2 2 None silence)))))
    by apply Permutation_refl.
  assert (Hne : [(0, 0)%Z] <> []) by discriminate.
  assert (Hin : Forall (fun idx => in_shape (bins (archive 2 2 None silence)) idx = true)
                       [(0, 0)%Z]) by (repeat constructor).
  do 6 (split; [assumption|]).
  exact (SeekFacts.seek_nearest_valid_never_returns (archive 2 2 None silence)
           [(0, 0)%Z] Hfull Hmany Hnone Hperm Hne Hin 8).
Defined.

(** C7 on the first bin of the seeded archive, and over a short run: the
    grid becomes 3 x 3, and both archived solutions, whose descriptors are
    at the lower bounds, are held by the first bin of the new grid. *)
Lemma subdivide_range_refines_witness :
  grid_ok (seeded None failing_first)
  /\ 0 < fst (bin_qnt (seeded None failing_first))
  /\ 0 < snd (bin_qnt (seeded None failing_first))
  /\ bin_qnt (fst (subdivide_range (0, 0) (seeded None failing_first))) = (3, 3)
  /\ (exists filled,
         bins (fst (subdivide_range (0, 0) (seeded None failing_first)))
         = grid_map filled remove_old
         /\ shape filled = (3, 3)
         /\ held_at filled (0, 0)%Z (archived_cs "cockpit"%string 3 (1 # 2)%Q)
         /\ held_at filled (0, 0)%Z (cs_set_age (infeasible_cs "corridor"%string 1) 3)
         /\ forall cs, archived filled cs ->
                       In cs [archived_cs "cockpit"%string 3 (1 # 2)%Q;
                              cs_set_age (infeasible_cs "corridor"%string 1) 3])
  /\ bin_count (seeded None failing_first)
     <= bin_count (run_steps 3 [RandStep 0; EmitterStep 1; InteractiveStep [(0, 0)%Z] 2]
                             (seeded None failing_first)).
Proof.
  assert (Hok : grid_ok (seeded None failing_first)) by (repeat split).
  assert (Hi : 0 < fst (bin_qnt (seeded None failing_first))) by (cbn; lia).
  assert (Hj : 0 < snd (bin_qnt (seeded None failing_first))) by (cbn; lia).
  do 3 (split; [assumption|]).
  destruct (GridFacts.subdivide_range_refines (seeded None failing_first) 0 0 Hok Hi Hj)
    as (_ & Hqnt & _ & _ & _ & Hinserted & _ & Hrun).
  split; [exact Hqnt|].
  split; [|exact (proj2 (Hrun 3 [RandStep 0; EmitterStep 1; InteractiveStep [(0, 0)%Z] 2]))].
  destruct (Hinserted (0%Q, 20%Q) (0%Q, 20%Q) eq_refl eq_refl)
    as (filled & Hbins & Hshape & Hheld & Hnew).
  exists filled.
  assert (Hfirst : forall cs,
             In cs [archived_cs "cockpit"%string 3 (1 # 2)%Q;
                    cs_set_age (infeasible_cs "corridor"%string 1) 3] ->
             target_idx (bin_sizes (fst (subdivide_range (0, 0) (seeded None failing_first))))
                        (0%Q, 0%Q) cs
             = (0, 0)%Z).
  { intros cs [<- | [<- | []]]; vm_compute; reflexivity. }
  split; [exact Hbins|]. split; [exact Hshape|]. split; [|split].
  - rewrite <- (Hfirst (archived_cs "cockpit"%string 3 (1 # 2)%Q)) by now left.
    apply Hheld. eexists. split; [exact (in_eq _ _)|]. left. now left.
  - rewrite <- (Hfirst (cs_set_age (infeasible_cs "corridor"%string 1) 3))
      by (right; now left).
    apply Hheld. eexists. split; [exact (in_eq _ _)|]. right. now left.
  - intros cs Hcs. destruct (Hnew cs Hcs) as (cbin & Hcbin & Hpop).
    destruct Hcbin as [<- | [<- | [<- | [<- | []]]]];
      destruct Hpop as [Hpop | Hpop]; cbn in Hpop |- *; tauto.
Defined.

(** Two mountpoint boxes one above the other, overlapping in x and y:
    the first branch adds their overlap, and the reciprocal is returned. *)
Example intersect_planes_overlap :
  intersect_planes [{| x := 0; y := 0; z := 0 |}] [{| x := 2; y := 2; z := 0 |}]
                   [{| x := 1; y := 1; z := 1 |}] [{| x := 3; y := 3; z := 1 |}]
  = Return (1 / (0 + (2 - 1) * (2 - 1)))%Q.
Proof. reflexivity. Qed.

(** C10 on two mountpoint boxes that do not meet. *)
Lemma intersect_planes_reciprocal_witness :
  intersect_planes [{| x := 0; y := 0; z := 0 |}] [{| x := 1; y := 1; z := 0 |}]
                   [{| x := 2; y := 2; z := 0 |}] [{| x := 3; y := 3; z := 0 |}]
  = Raise ZeroDivisionError.
Proof.
  apply (proj1 (HullFacts.intersect_planes_reciprocal
                  [{| x := 0; y := 0; z := 0 |}] [{| x := 1; y := 1; z := 0 |}]
                  [{| x := 2; y := 2; z := 0 |}] [{| x := 3; y := 3; z := 0 |}])).
  intros (s1 & e1 & s2 & e2 & [[= <- <-]|[]] & [[= <- <-]|[]] & Hpos).
  vm_compute in Hpos. discriminate.
Defined.

End Witnesses.

(** ** Archive maintenance and metrics *)

Module MaintenanceFacts.
Import MAPElites Maintenance.
Section WithCollaborators.
Context `{Config} `{Collaborators}.

Lemma inject_nat_nonneg (n : nat) : (0 <= inject_Z (Z.of_nat n))%Q.
Proof. change 0%Q with (inject_Z 0). rewrite <- Zle_Qle. lia. Qed.

Lemma inject_nat_pos (n : nat) : 0 < n -> (0 < inject_Z (Z.of_nat n))%Q.
Proof. intros Hn. change 0%Q with (inject_Z 0). rewrite <- Zlt_Qlt. lia. Qed.

Lemma inject_nat_zero (n : nat) : Qeq_bool (inject_Z (Z.of_nat n)) 0 = true <-> n = 0.
Proof.
  rewrite Qeq_bool_iff. unfold Qeq. cbn. split; intros Hn; lia.
Qed.

(** X1: on an archive whose grid has as many cells as its shape says,
    [coverage_reward] raises [ZeroDivisionError] exactly when the grid has
    no bin, and otherwise returns a number between 0 and 1. *)
Theorem coverage_reward_range (self : MAPElites) :
  grid_full (bins self) ->
  match coverage_reward self with
  | Return r => 0 < bin_count self /\ (0 <= r)%Q /\ (r <= 1)%Q
  | Raise e => e = ZeroDivisionError /\ bin_count self = 0
  | OutOfFuel => False
  end.
Proof.
  intros Hfull. unfold coverage_reward, py_div, bin_count.
  set (tot := fst (shape (bins self)) * snd (shape (bins self))).
  set (inc := length (List.filter _ (flat (bins self)))).
  assert (Hinc : inc <= tot).
  { unfold inc, tot. rewrite <- Hfull. apply List.filter_length_le. }
  destruct (Qeq_bool (inject_Z (Z.of_nat tot)) 0) eqn:Hzero.
  - split; [reflexivity | now apply inject_nat_zero].
  - assert (Htot : 0 < tot).
    { destruct tot; [|lia]. discriminate Hzero. }
    split; [exact Htot|]. split.
    + apply Qle_shift_div_l; [now apply inject_nat_pos|].
      rewrite Qmult_0_l. apply inject_nat_nonneg.
    + apply Qle_shift_div_r; [now apply inject_nat_pos|].
      rewrite Qmult_1_l, <- Zle_Qle. lia.
Qed.

(** X2: [_process_expanded_idxs] keeps the selected indices, in order, at
    the head of its result, each moved on either axis by the number of
    expanded bins strictly before it; when no bin was expanded it returns
    the selection unchanged. *)
Theorem process_expanded_idxs_keeps_selection (expanded_idxs selected_idxs : list (Z * Z)) :
  take (length selected_idxs) (_process_expanded_idxs expanded_idxs selected_idxs)
  = List.map (shifted expanded_idxs) selected_idxs
  /\ _process_expanded_idxs [] selected_idxs = selected_idxs.
Proof.
  split.
  - unfold _process_expanded_idxs. rewrite List.map_app.
    rewrite take_app_length'; [|now rewrite List.length_map].
    apply List.map_ext. intros [m n]. reflexivity.
  - unfold _process_expanded_idxs. cbn [flat_map List.filter length].
    induction selected_idxs as [|[m n] rest IH]; [reflexivity|].
    cbn [flat_map List.map app] in *. rewrite IH.
    now rewrite !Z.add_0_r.
Qed.

End WithCollaborators.
End MaintenanceFacts.

(** ** Fitness weights and valid ranges *)

Module ReweightFacts.
Import MAPElites Maintenance.
Section WithCollaborators.
Context `{Config} `{Collaborators}.

Lemma on_each_again {S} (m : M S unit) :
  (forall a a' r, m a = (a', r) -> m a' = (a', r)) ->
  forall l, on_each m (fst (on_each m l)) = on_each m l.
Proof.
  intros Hm l. induction l as [|a l IH]; [reflexivity|].
  cbn [on_each]. destruct (m a) as [a' [u|e|]] eqn:Ha.
  - destruct (on_each m l) as [l' r] eqn:Hl. cbn [fst on_each] in *.
    rewrite (Hm _ _ _ Ha), IH. reflexivity.
  - cbn [fst on_each]. now rewrite (Hm _ _ _ Ha).
  - cbn [fst on_each]. now rewrite (Hm _ _ _ Ha).
Qed.

Lemma on_each_related {S} (m : M S unit) (R : S -> S -> Prop) :
  (forall a a' u, m a = (a', Return u) -> R a a') ->
  forall l l' u, on_each m l = (l', Return u) -> Forall2 R l l'.
Proof.
  intros Hm l. induction l as [|a l IH]; intros l' u Hrun; cbn [on_each] in Hrun.
  - injection Hrun as <- _. constructor.
  - destruct (m a) as [a' [ua|e|]] eqn:Ha; try discriminate.
    destruct (on_each m l) as [l0 r] eqn:Hl.
    injection Hrun as <- ->. constructor; eauto.
Qed.

Lemma reweighted_again (fits : list Fitness) :
  forall weights, reweighted (reweighted fits weights) weights = reweighted fits weights.
Proof.
  unfold reweighted.
  induction fits as [|fit fits IH]; intros [|w weights]; try reflexivity.
  cbn [combine List.map length drop app]. f_equal. apply IH.
Qed.

Lemma length_reweighted (fits : list Fitness) :
  forall weights, length (reweighted fits weights) = length fits.
Proof.
  unfold reweighted.
  induction fits as [|fit fits IH]; intros [|w weights]; try reflexivity.
  cbn [combine List.map length drop app]. f_equal. apply IH.
Qed.

Lemma weights_reweighted (fits : list Fitness) :
  forall weights, length weights = length fits ->
  List.map weight (reweighted fits weights) = weights.
Proof.
  unfold reweighted.
  induction fits as [|fit fits IH]; intros [|w weights] Hlen; try discriminate; try reflexivity.
  cbn [combine List.map length drop app]. cbn [weight set_weight]. f_equal.
  apply IH. now injection Hlen.
Qed.

Lemma rescore_again (fits : list Fitness) (slack : Q) (c c' : CandidateSolution)
      (r : PyResult unit) :
  rescore fits slack c = (c', r) -> rescore fits slack c' = (c', r).
Proof.
  unfold rescore, bind, get, lift, modify. intros Hrun.
  destruct (weighted_sum fits (fitness c)) as [total|e|] eqn:Hsum;
    injection Hrun as <- <-; cbn [fitness cs_set_c_fitness]; rewrite Hsum; reflexivity.
Qed.

Lemma rescore_bin_again (fits : list Fitness) (slack : Q) (b b' : MAPBin)
      (r : PyResult unit) :
  rescore_bin fits slack b = (b', r) -> rescore_bin fits slack b' = (b', r).
Proof.
  unfold rescore_bin. intros Hrun.
  pose proof (on_each_again (rescore fits slack) (rescore_again fits slack) (_feasible b))
    as Hagain.
  destruct (on_each (rescore fits slack) (_feasible b)) as [feas r0] eqn:Hfeas.
  injection Hrun as <- <-. cbn [fst _feasible _infeasible set_populations] in *.
  rewrite Hagain. reflexivity.
Qed.

(** X3: [update_fitness_weights] with a wrong number of weights fails its
    assertion and leaves the archive untouched.  When it returns, the
    weights of the objectives are the new ones, the grid keeps its shape,
    every infeasible population is as before, and every feasible solution is
    the one archived before with only [c_fitness] reassigned, to the
    weighted sum of its stored fitnesses plus [nsc - ncv]. *)
Theorem update_fitness_weights_rescores (weights : list Q) (self : MAPElites) :
  (length weights <> length (feasible_fitnesses self) ->
   exists msg, update_fitness_weights weights self = (self, Raise (AssertionError msg)))
  /\ (forall s', update_fitness_weights weights self = (s', Return tt) ->
      List.map weight (feasible_fitnesses s') = weights
      /\ shape (bins s') = shape (bins self)
      /\ Forall2 (fun b b' =>
                    _infeasible b' = _infeasible b
                    /\ Forall2 (fun cs cs' =>
                                  cs' = cs_set_c_fitness cs (c_fitness cs')
                                  /\ scored_with (feasible_fitnesses s') (nsc s') cs')
                               (_feasible b) (_feasible b'))
                 (flat (bins self)) (flat (bins s'))).
Proof.
  split.
  - intros Hlen. unfold update_fitness_weights, bind, get.
    apply Nat.eqb_neq in Hlen. rewrite Hlen. eexists. reflexivity.
  - intros s' Hrun. unfold update_fitness_weights, bind, get, modify in Hrun.
    destruct (length weights =? length (feasible_fitnesses self)) eqn:Hlen;
      [|discriminate Hrun].
    apply Nat.eqb_eq in Hlen.
    cbn [feasible_fitnesses set_feasible_fitnesses nsc bins] in Hrun.
    destruct (on_each _ (flat (bins self))) as [cells r] eqn:Hcells.
    injection Hrun as <- ->.
    cbn [feasible_fitnesses set_feasible_fitnesses set_bins bins shape flat nsc].
    split; [now apply weights_reweighted|]. split; [reflexivity|].
    eapply on_each_related; [|exact Hcells].
    intros b b' u Hb. unfold rescore_bin in Hb.
    destruct (on_each _ (_feasible b)) as [feas r] eqn:Hfeas.
    injection Hb as <- ->. cbn [_feasible _infeasible set_populations].
    split; [reflexivity|].
    eapply on_each_related; [|exact Hfeas].
    intros cs cs' u' Hcs. unfold rescore, bind, get, lift, modify in Hcs.
    destruct (weighted_sum _ (fitness cs)) as [total|e|] eqn:Hsum; try discriminate.
    injection Hcs as <- _. cbn [c_fitness cs_set_c_fitness]. split; [reflexivity|].
    exists total. split; [exact Hsum | reflexivity].
Qed.

(** X4: [update_fitness_weights] is idempotent: a second call with the
    same weights ends as the first did and leaves the archive exactly as the
    first call left it (also when the call fails part-way). *)
Theorem update_fitness_weights_idempotent (weights : list Q) (self : MAPElites) :
  update_fitness_weights weights (fst (update_fitness_weights weights self))
  = update_fitness_weights weights self.
Proof.
  unfold update_fitness_weights at 2 3. unfold bind, get, modify.
  destruct (length weights =? length (feasible_fitnesses self)) eqn:Hlen.
  - cbn [feasible_fitnesses set_feasible_fitnesses nsc bins].
    pose proof (on_each_again
                  (rescore_bin (reweighted (feasible_fitnesses self) weights) (nsc self))
                  (rescore_bin_again _ _) (flat (bins self))) as Hagain.
    destruct (on_each _ (flat (bins self))) as [cells r] eqn:Hcells.
    cbn [fst] in *.
    unfold update_fitness_weights, bind, get, modify.
    cbn [feasible_fitnesses set_feasible_fitnesses set_bins nsc bins flat shape].
    rewrite length_reweighted, Hlen.
    cbn [feasible_fitnesses set_feasible_fitnesses set_bins nsc bins flat shape].
    rewrite reweighted_again, Hagain. reflexivity.
  - cbn [fst raise]. unfold update_fitness_weights, bind, get. rewrite Hlen. reflexivity.
Qed.

Lemma filter_again {A} (p : A -> bool) (l : list A) :
  List.filter p (List.filter p l) = List.filter p l.
Proof.
  induction l as [|a l IH]; [reflexivity|]. cbn [List.filter].
  destruct (p a) eqn:Hp; [|exact IH]. cbn [List.filter]. now rewrite Hp, IH.
Qed.

Lemma filter_all {A} (p : A -> bool) (l : list A) :
  Forall (fun a => p a = true) l -> List.filter p l = l.
Proof.
  induction 1 as [|a l Ha _ IH]; [reflexivity|]. cbn [List.filter]. now rewrite Ha, IH.
Qed.

Lemma filter_passes {A} (p : A -> bool) (l : list A) :
  Forall (fun a => p a = true) (List.filter p l).
Proof. apply List.Forall_forall. intros a Ha. now apply List.filter_In in Ha. Qed.

(** X5: [update_valid_ranges] always returns; afterwards the ranges are the
    new ones, the grid has the shape and the number of bins it had, every
    archived solution (feasible or not) has dimensions within the new ranges,
    and a second call with the same ranges changes nothing. *)
Theorem update_valid_ranges_filters (new_x new_y new_z : Z * Z) (self : MAPElites) :
  let s' := fst (update_valid_ranges new_x new_y new_z self) in
  snd (update_valid_ranges new_x new_y new_z self) = Return tt
  /\ (x_range s', y_range s', z_range s') = (new_x, new_y, new_z)
  /\ grid_like (bins self) (bins s')
  /\ all_archived (fun cs => _within_range s' cs = true) (bins s')
  /\ update_valid_ranges new_x new_y new_z s' = (s', Return tt).
Proof.
  unfold update_valid_ranges, bind, modify. cbn [fst snd].
  cbn [bins set_bins set_valid_ranges x_range y_range z_range].
  split; [reflexivity|]. split; [reflexivity|].
  split; [apply GridFacts.grid_like_map|].
  split.
  - unfold all_archived, grid_map. cbn [flat].
    apply List.Forall_forall. intros b' Hb'. apply List.in_map_iff in Hb' as [b [<- _]].
    cbn [_feasible _infeasible set_populations]. split; apply filter_passes.
  - unfold grid_map. cbn [flat shape]. rewrite List.map_map.
    f_equal. unfold set_bins, set_valid_ranges. cbn. f_equal. f_equal.
    apply List.map_ext. intros b. unfold set_populations. cbn.
    f_equal; apply filter_again.
Qed.

(** X6: [update_valid_ranges] never adds or reorders: each population after
    the call is the population before with the out-of-range solutions
    dropped, so an archive whose solutions are all within the new ranges
    keeps every population as it is. *)
Theorem update_valid_ranges_keeps_valid (new_x new_y new_z : Z * Z) (self : MAPElites) :
  let s' := fst (update_valid_ranges new_x new_y new_z self) in
  all_archived (fun cs => _within_range s' cs = true) (bins self) ->
  List.map _feasible (flat (bins s')) = List.map _feasible (flat (bins self))
  /\ List.map _infeasible (flat (bins s')) = List.map _infeasible (flat (bins self)).
Proof.
  unfold update_valid_ranges, bind, modify. cbn [fst snd].
  cbn [bins set_bins set_valid_ranges]. unfold all_archived, grid_map. cbn [flat].
  intros Hall. rewrite !List.map_map. cbn [_feasible _infeasible set_populations].
  split; apply List.map_ext_in; intros b Hb;
    (eapply List.Forall_forall in Hall; [|exact Hb]); destruct Hall as [Hf Hi];
    apply filter_all; assumption.
Qed.

End WithCollaborators.
End ReweightFacts.

(** ** Fitness metrics *)

Module MetricFacts.
Import MAPElites Maintenance.
Section WithCollaborators.
Context `{Config} `{Collaborators}.

Lemma Qltb_false_le (a b : Q) : Qltb a b = false -> (b <= a)%Q.
Proof.
  unfold Qltb. intros Hab. apply negb_false_iff in Hab. now apply Qle_bool_iff.
Qed.

Lemma Qltb_true_lt (a b : Q) : Qltb a b = true -> (a < b)%Q.
Proof.
  unfold Qltb. intros Hab. apply negb_true_iff in Hab.
  apply Qnot_le_lt. intros Hle. apply Qle_bool_iff in Hle. congruence.
Qed.

Lemma py_max_list_greatest (rest : list Q) :
  forall v, In (py_max_list v rest) (v :: rest)
            /\ Forall (fun x => (x <= py_max_list v rest)%Q) (v :: rest).
Proof.
  unfold py_max_list.
  induction rest as [|a rest IH]; intros v; cbn [fold_left].
  - split; [now left | repeat constructor; apply Qle_refl].
  - destruct (IH (py_max v a)) as [Hin Hall].
    apply Forall_cons_1 in Hall as [Hhead Hall].
    assert (Hv : (v <= py_max v a)%Q /\ (a <= py_max v a)%Q /\ (py_max v a = v \/ py_max v a = a)).
    { unfold py_max. destruct (Qltb v a) eqn:Hva.
      - apply Qltb_true_lt in Hva. repeat split; [now apply Qlt_le_weak | apply Qle_refl | now right].
      - apply Qltb_false_le in Hva. repeat split; [apply Qle_refl | exact Hva | now left]. }
    destruct Hv as (Hv & Ha & Hor). split.
    + destruct Hin as [Hin|Hin]; [|now right; right].
      rewrite <- Hin. destruct Hor as [-> | ->]; [now left | now right; left].
    + constructor; [eapply Qle_trans; eassumption|].
      constructor; [eapply Qle_trans; eassumption | exact Hall].
Qed.

Lemma py_min_list_least (rest : list Q) :
  forall v, In (py_min_list v rest) (v :: rest)
            /\ Forall (fun x => (py_min_list v rest <= x)%Q) (v :: rest).
Proof.
  unfold py_min_list.
  induction rest as [|a rest IH]; intros v; cbn [fold_left].
  - split; [now left | repeat constructor; apply Qle_refl].
  - destruct (IH (py_min v a)) as [Hin Hall].
    apply Forall_cons_1 in Hall as [Hhead Hall].
    assert (Hv : (py_min v a <= v)%Q /\ (py_min v a <= a)%Q /\ (py_min v a = v \/ py_min v a = a)).
    { unfold py_min. destruct (Qltb a v) eqn:Hva.
      - apply Qltb_true_lt in Hva. repeat split; [now apply Qlt_le_weak | apply Qle_refl | now right].
      - apply Qltb_false_le in Hva. repeat split; [apply Qle_refl | exact Hva | now left]. }
    destruct Hv as (Hv & Ha & Hor). split.
    + destruct Hin as [Hin|Hin]; [|now right; right].
      rewrite <- Hin. destruct Hor as [-> | ->]; [now left | now right; left].
    + constructor; [eapply Qle_trans; eassumption|].
      constructor; [eapply Qle_trans; eassumption | exact Hall].
Qed.

(** X7: [get_fitness_metrics] fails (the [ValueError] of [min]/[max])
    exactly when the named populations of all bins are empty.  Otherwise the
    top fitness it returns is the composite fitness of an archived solution
    of that population: the smallest one for [pop == 'infeasible'] with no
    estimator, which is when [_step] asks [create_new_pool] to minimise, and
    the largest one in every other case; the mean is what [numpy.average]
    gives for the collected fitnesses, in the order of the bins. *)
Theorem get_fitness_metrics_top (np_average : list Q -> Q) (self : MAPElites)
        (pop : String.string) :
  let fs := collected_fitnesses self pop in
  (forall first, is_feasible first = false ->
                 takes_minimum self "infeasible" = minimize_flag self first)
  /\ (get_fitness_metrics np_average self pop = None <-> fs = [])
  /\ match get_fitness_metrics np_average self pop with
     | None => fs = []
     | Some (top, mean) =>
         In top fs
         /\ mean = np_average fs
         /\ (if takes_minimum self pop
             then Forall (fun v => (top <= v)%Q) fs
             else Forall (fun v => (v <= top)%Q) fs)
     end.
Proof.
  intros fs. split; [|split].
  - intros first Hfirst. unfold takes_minimum, minimize_flag. rewrite Hfirst.
    cbn. now destruct (estimator self).
  - unfold get_fitness_metrics. fold fs. destruct fs; split; congruence.
  - unfold get_fitness_metrics. fold fs. destruct fs as [|v rest] eqn:Hfs; [reflexivity|].
    destruct (py_min_list_least rest v) as [Hmin_in Hmin].
    destruct (py_max_list_greatest rest v) as [Hmax_in Hmax].
    destruct (takes_minimum self pop).
    + split; [exact Hmin_in|]. split; [reflexivity | exact Hmin].
    + split; [exact Hmax_in|]. split; [reflexivity | exact Hmax].
Qed.

End WithCollaborators.
End MetricFacts.

(** ** Resolution trigger *)

Module TriggerFacts.
Import MAPElites MethodFacts GridFacts.
Section WithCollaborators.
Context `{Config} `{Collaborators}.

(** On a consistent archive with bounded behavior descriptors,
    [subdivide_range] at a bin of the grid returns, adds one bin on each
    axis and keeps the archive consistent. *)
Lemma subdivide_range_returns (s : MAPElites) (i j : nat) :
  grid_ok s -> i < fst (bin_qnt s) -> j < snd (bin_qnt s) ->
  bc_bounds (fst (behavior_descriptors s)) <> None ->
  bc_bounds (snd (behavior_descriptors s)) <> None ->
  exists s',
    subdivide_range (i, j) s = (s', Return tt)
    /\ grid_ok s'
    /\ bin_qnt s' = (fst (bin_qnt s) + 1, snd (bin_qnt s) + 1)
    /\ behavior_descriptors s' = behavior_descriptors s.
Proof.
  intros Hok Hi Hj Hb0 Hb1.
  pose proof Hok as (Hshape & Hlen0 & Hlen1 & Hfull).
  destruct (lookup_lt_is_Some_2 (fst (bin_sizes s)) i) as [v_i Hvi]; [lia|].
  destruct (lookup_lt_is_Some_2 (snd (bin_sizes s)) j) as [v_j Hvj]; [lia|].
  destruct (new_bins_built s i j v_i v_j Hok Hi Hj) as (cells & Hcells & Hlen & _).
  rewrite (subdivide_range_reaches s i j v_i v_j cells Hvi Hvj Hcells).
  set (sizes := (split_sizes (fst (bin_sizes s)) i v_i,
                 split_sizes (snd (bin_sizes s)) j v_j)).
  set (qnt := (fst (bin_qnt s) + 1, snd (bin_qnt s) + 1)).
  assert (Hregrid : geometry_is sizes qnt (regridded s i j v_i v_j cells)).
  { unfold geometry_is, grid_ok, grid_full, regridded. cbn.
    rewrite !length_split_sizes, Hlen0, Hlen1, Hlen. repeat split. }
  pose proof Hregrid as (Hokr & _ & Hqntr).
  destruct (update_bins_returns (all_solutions (bins s))
              (regridded s i j v_i v_j cells) Hokr) as (g' & Hupd & Hlike);
    try (rewrite Hqntr; cbn; lia); try assumption.
  pose proof (geometric_bins (geometric_geometry_is sizes qnt) _ g' Hregrid Hlike)
    as Hupdated.
  unfold bind. rewrite Hupd.
  unfold increase_preferences, bind, get, modify, ret.
  destruct (emitter (set_bins (regridded s i j v_i v_j cells) g')) as [em|] eqn:Hem.
  - destruct (is_HumanPrefMatrixEmitter em).
    + eexists. split; [reflexivity|].
      pose proof (geometric_emitter (geometric_geometry_is sizes qnt) _
                    (Some (_increase_preferences_res em (i, j))) Hupdated)
        as (Hok' & _ & Hqnt').
      split; [exact Hok'|]. split; [exact Hqnt' | reflexivity].
    + eexists. split; [reflexivity|].
      destruct Hupdated as (Hok' & _ & Hqnt'). split; [exact Hok'|]. split; [exact Hqnt' | reflexivity].
  - eexists. split; [reflexivity|].
    destruct Hupdated as (Hok' & _ & Hqnt'). split; [exact Hok'|]. split; [exact Hqnt' | reflexivity].
Qed.

Lemma subdivide_all_returns (idxs : list (nat * nat)) :
  forall s,
    grid_ok s ->
    bc_bounds (fst (behavior_descriptors s)) <> None ->
    bc_bounds (snd (behavior_descriptors s)) <> None ->
    Forall (fun idx => fst idx < fst (bin_qnt s) /\ snd idx < snd (bin_qnt s)) idxs ->
    exists s',
      for_each idxs subdivide_range s = (s', Return tt)
      /\ grid_ok s'
      /\ bin_qnt s' = (fst (bin_qnt s) + length idxs, snd (bin_qnt s) + length idxs).
Proof.
  induction idxs as [|[i j] idxs IH]; intros s Hok Hb0 Hb1 Hin.
  - exists s. cbn [for_each length]. rewrite !Nat.add_0_r.
    split; [reflexivity|]. split; [exact Hok|]. now destruct (bin_qnt s).
  - apply Forall_cons_1 in Hin as [[Hi Hj] Hin]. cbn [fst snd] in Hi, Hj.
    destruct (subdivide_range_returns s i j Hok Hi Hj Hb0 Hb1)
      as (s1 & Hfirst & Hok1 & Hqnt1 & Hbd1).
    destruct (IH s1 Hok1) as (s' & Hrest & Hok' & Hqnt').
    + now rewrite Hbd1.
    + now rewrite Hbd1.
    + eapply List.Forall_impl; [|exact Hin]. intros [a b] [Ha Hb]. rewrite Hqnt1. cbn in *. lia.
    + exists s'. cbn [for_each]. unfold bind. rewrite Hfirst, Hrest.
      split; [reflexivity|]. split; [exact Hok'|].
      rewrite Hqnt', Hqnt1. cbn [fst snd length]. f_equal; lia.
Qed.

(** X8: [_check_res_trigger] on a consistent archive with bounded behavior
    descriptors, whose triggering bins carry an index inside the grid:
    it returns the indices of the bins that are full in both populations
    and subdividable, and the grid has gained one row and one column for
    each of them, the archive staying consistent.  With resolution increase
    switched off it returns the empty list and leaves the archive as it is. *)
Theorem check_res_trigger_grows (self : MAPElites) :
  grid_ok self ->
  bc_bounds (fst (behavior_descriptors self)) <> None ->
  bc_bounds (snd (behavior_descriptors self)) <> None ->
  Forall (fun idx => fst idx < fst (bin_qnt self) /\ snd idx < snd (bin_qnt self))
         (to_increase_res self) ->
  (allow_res_increase self = true ->
   snd (_check_res_trigger self) = Return (to_increase_res self)
   /\ grid_ok (fst (_check_res_trigger self))
   /\ bin_qnt (fst (_check_res_trigger self))
      = (fst (bin_qnt self) + length (to_increase_res self),
         snd (bin_qnt self) + length (to_increase_res self)))
  /\ (allow_res_increase self = false ->
      _check_res_trigger self = (self, Return [])).
Proof.
  intros Hok Hb0 Hb1 Hin. split; intros Hallow.
  - unfold _check_res_trigger, bind, get, ret. rewrite Hallow.
    destruct (subdivide_all_returns (rev (to_increase_res self)) self Hok Hb0 Hb1)
      as (s' & Hrun & Hok' & Hqnt').
    { now apply Forall_rev. }
    rewrite Hrun. cbn [fst snd]. rewrite length_rev in Hqnt'.
    split; [reflexivity|]. split; [exact Hok' | exact Hqnt'].
  - unfold _check_res_trigger, bind, get, ret. now rewrite Hallow.
Qed.

End WithCollaborators.
End TriggerFacts.

(** ** What a generation step hands back *)

Module OffspringFacts.
Import MAPElites MethodFacts StepFacts.
Section WithCollaborators.
Context `{Config} `{Collaborators}.

Lemma on_each_all {S} (m : M S unit) (Q : S -> Prop) :
  (forall a a' u, m a = (a', Return u) -> Q a') ->
  forall l l' u, on_each m l = (l', Return u) -> Forall Q l'.
Proof.
  intros Hm l. induction l as [|a l IH]; intros l' u Hrun; cbn [on_each] in Hrun.
  - injection Hrun as <- _. constructor.
  - destruct (m a) as [a' [ua|e|]] eqn:Ha; try discriminate.
    destruct (on_each m l) as [l0 r] eqn:Hl.
    injection Hrun as <- ->. constructor; eauto.
Qed.

Lemma assign_fitness_age (self : MAPElites) (c c' : CandidateSolution) (u : unit) :
  _assign_fitness self c = (c', Return u) -> age c' = CS_MAX_AGE.
Proof.
  unfold _assign_fitness, _set_behavior_descriptors, bind, modify. intros Hrun.
  destruct (compute_fitness self c) as [c1 [v|e|]]; try discriminate.
  injection Hrun as <- _. reflexivity.
Qed.

(** The attributes a generation leaves alone while it breeds. *)
Lemma generate_from_frame (pop : list CandidateSolution) (gen : nat) (self : MAPElites) :
  let s' := fst (generate_from pop gen self) in
  n_new_solutions s' = n_new_solutions self
  /\ (forall cs, _within_range s' cs = _within_range self cs).
Proof.
  destruct pop as [|first rest]; cbn [generate_from].
  { cbn. now split. }
  unfold try_except_EvoException, call_create_new_pool, with_env, on_each_new,
    bind, get, modify, lift, log_error, ret, raise.
  cbn.
  destruct (create_new_pool _ _ _ _ _) as [env' [pool|e|]]; cbn.
  - destruct (on_each (_prepare_cs_content _ true) _) as [prepared [[]|e|]]; cbn.
    + destruct (on_each (_assign_fitness _) _) as [assigned [[]|e|]]; cbn.
      * now split.
      * destruct e; cbn; now split.
      * now split.
    + destruct e; cbn; now split.
    + now split.
  - destruct e; cbn; now split.
  - now split.
Qed.

Lemma generate_from_ages (pop : list CandidateSolution) (gen : nat) (self s' : MAPElites)
      (new_pool : list CandidateSolution) :
  generate_from pop gen self = (s', Return new_pool) ->
  Forall (fun cs => age cs = CS_MAX_AGE) new_pool.
Proof.
  destruct pop as [|first rest]; cbn [generate_from].
  { unfold ret. intros Hrun. injection Hrun as _ <-. constructor. }
  unfold try_except_EvoException, call_create_new_pool, with_env, on_each_new,
    bind, get, modify, lift, log_error, ret, raise.
  cbn.
  destruct (create_new_pool _ _ _ _ _) as [env' [pool|e|]]; cbn.
  - destruct (on_each (_prepare_cs_content _ true) _) as [prepared [[]|e|]]; cbn.
    + destruct (on_each (_assign_fitness _) _) as [assigned [[]|e|]] eqn:Hassigned; cbn.
      * intros Hrun. injection Hrun as _ <-.
        eapply on_each_all; [|exact Hassigned].
        intros a a' u. apply assign_fitness_age.
      * destruct e; cbn; intros Hrun; try discriminate.
        injection Hrun as _ <-. constructor.
      * discriminate.
    + destruct e; cbn; intros Hrun; try discriminate.
      injection Hrun as _ <-. constructor.
    + discriminate.
  - destruct e; cbn; intros Hrun; try discriminate.
    injection Hrun as _ <-. constructor.
  - discriminate.
Qed.

Lemma generate_all_ages (populations : list (list CandidateSolution)) (gen : nat) :
  forall (generated : list CandidateSolution) (self : MAPElites),
    Forall (fun cs => age cs = CS_MAX_AGE) generated ->
    let after := generate_all populations gen generated self in
    n_new_solutions (fst after) = n_new_solutions self
    /\ (forall cs, _within_range (fst after) cs = _within_range self cs)
    /\ (forall result, snd after = Return result ->
                       Forall (fun cs => age cs = CS_MAX_AGE) result).
Proof.
  induction populations as [|pop rest IH]; intros generated self Hgenerated.
  - cbn. repeat split. intros result Hresult. now injection Hresult as <-.
  - cbn [generate_all]. unfold bind.
    destruct (generate_from_frame pop gen self) as [Hcount Hrange].
    pose proof (generate_from_ages pop gen self) as Hages.
    destruct (generate_from pop gen self) as [s1 [new_pool|e|]]; cbn [fst snd] in *.
    + destruct (IH (generated ++ new_pool) s1) as (Hcount' & Hrange' & Hages').
      { apply Forall_app. split; [exact Hgenerated | now apply (Hages s1)]. }
      split; [congruence|]. split; [|exact Hages'].
      intros cs. now rewrite Hrange', Hrange.
    + repeat split; try assumption. discriminate.
    + repeat split; try assumption. discriminate.
Qed.

(** X9: what [_step] hands back and counts.  Every solution it returns has
    dimensions within the valid ranges of the archive and age [CS_MAX_AGE],
    and [n_new_solutions] has grown by exactly the number of solutions
    returned; a step that ends in an exception leaves [n_new_solutions]
    as it was. *)
Theorem step_returns_fresh_in_range (self : MAPElites)
        (populations : list (list CandidateSolution)) (gen : nat) :
  let after := _step populations gen self in
  match snd after with
  | Return generated =>
      Forall (fun cs => _within_range self cs = true /\ age cs = CS_MAX_AGE) generated
      /\ n_new_solutions (fst after) = n_new_solutions self + length generated
  | _ => n_new_solutions (fst after) = n_new_solutions self
  end.
Proof.
  unfold _step, bind.
  destruct (generate_all_ages populations gen [] self (List.Forall_nil _))
    as (Hcount & Hrange & Hages).
  destruct (generate_all populations gen [] self) as [s1 [generated|e|]];
    cbn [fst snd] in *; try exact Hcount.
  specialize (Hages generated eq_refl).
  unfold finish_step, bind, get, modify, ret.
  set (kept := List.filter (_within_range s1) generated).
  assert (Hkept : Forall (fun cs => _within_range self cs = true /\ age cs = CS_MAX_AGE) kept).
  { apply List.Forall_forall. intros cs Hcs. apply List.filter_In in Hcs as [Hcs Hin].
    rewrite Hrange in Hin. split; [exact Hin|].
    rewrite List.Forall_forall in Hages. now apply Hages. }
  destruct (estimator s1) as [est|].
  - pose proof (preserves_update_estimator
                  (fun s => n_new_solutions s = n_new_solutions s1) est kept gen) as Hframe.
    destruct (update_estimator est kept gen s1) as [s2 [[]|e|]] eqn:Hupdate;
      cbn [fst snd n_new_solutions set_n_new_solutions];
      specialize (Hframe (fun s g' Hs _ => Hs) (fun s b Hs => Hs) (fun s e Hs => Hs)
                         s1 eq_refl);
      rewrite Hupdate in Hframe; cbn [fst] in Hframe.
    + split; [exact Hkept | congruence].
    + congruence.
    + congruence.
  - cbn [fst snd n_new_solutions set_n_new_solutions].
    split; [exact Hkept | congruence].
Qed.

End WithCollaborators.
End OffspringFacts.

(** ** The neighbour search when there is something to find *)

Module SeekFinds.
Import MAPElites MethodFacts SeekFacts Neighbourhood.
Section WithCollaborators.
Context `{Config} `{Collaborators}.

Section Search.
Variable g : Grid.
Variable feasible : bool.
Variable offsets : list (Z * Z).
Hypothesis Hfull : grid_full g.
Hypothesis Hall : forall o, In o offsets8 -> In o offsets.

Lemma seek_offsets_cases (idx : Z * Z) :
  forall offs new_pop to_inspect,
  exists added to_inspect',
    seek_offsets g feasible idx offs new_pop to_inspect
    = Return (new_pop ++ added, to_inspect')
    /\ Forall (pooled g feasible) added
    /\ (added = [] ->
        to_inspect' = to_inspect ++ neighbours g offs idx
        /\ Forall (empty_at g feasible) (neighbours g offs idx)).
Proof.
  induction offs as [|offset rest IH]; intros new_pop to_inspect.
  - exists [], to_inspect. cbn. rewrite !app_nil_r. repeat split; constructor.
  - cbn [seek_offsets]. unfold neighbours. cbn [List.map List.filter].
    fold (shift idx offset).
    destruct (in_shape g (shift idx offset)) eqn:Hin.
    + destruct (grid_get_in_shape g _ Hfull Hin) as (cbin & Hget & Hcbin).
      rewrite Hget.
      destruct (pool_of feasible cbin) as [|c pool] eqn:Hpool.
      * destruct (IH new_pop (to_inspect ++ [shift idx offset]))
          as (added & ti & Hrun & Hpooled & Hnone).
        exists added, ti. split; [exact Hrun|]. split; [exact Hpooled|].
        intros Hadded. destruct (Hnone Hadded) as [-> Hempty].
        split; [now rewrite <- app_assoc|].
        constructor; [|exact Hempty]. now exists cbin.
      * exists (c :: pool), to_inspect. split; [reflexivity|]. split; [|discriminate].
        apply List.Forall_forall. intros cs Hcs. exists cbin.
        split; [exact Hcbin | now rewrite Hpool].
    + apply IH.
Qed.

Lemma seek_inspecting_cases :
  forall inspecting new_pop to_inspect,
  exists added to_inspect',
    seek_inspecting g feasible offsets inspecting new_pop to_inspect
    = Return (new_pop ++ added, to_inspect')
    /\ Forall (pooled g feasible) added
    /\ (added = [] ->
        to_inspect' = to_inspect ++ flat_map (neighbours g offsets) inspecting
        /\ Forall (empty_at g feasible) (flat_map (neighbours g offsets) inspecting)).
Proof.
  induction inspecting as [|idx rest IH]; intros new_pop to_inspect.
  - exists [], to_inspect. cbn. rewrite !app_nil_r. repeat split; constructor.
  - cbn [seek_inspecting flat_map].
    destruct (seek_offsets_cases idx offsets new_pop to_inspect)
      as (added1 & ti1 & Hrun1 & Hpooled1 & Hnone1).
    rewrite Hrun1.
    destruct (IH (new_pop ++ added1) ti1) as (added2 & ti2 & Hrun2 & Hpooled2 & Hnone2).
    exists (added1 ++ added2), ti2.
    split; [now rewrite app_assoc|]. split; [now apply Forall_app|].
    intros Hadded. apply app_eq_nil in Hadded as [Hadded1 Hadded2].
    destruct (Hnone1 Hadded1) as [-> Hempty1].
    destruct (Hnone2 Hadded2) as [-> Hempty2].
    split; [now rewrite <- app_assoc | now apply Forall_app].
Qed.

Lemma offsets8_cases (dx dy : Z) :
  (-1 <= dx <= 1)%Z -> (-1 <= dy <= 1)%Z -> (dx <> 0 \/ dy <> 0)%Z ->
  In (dx, dy) offsets8.
Proof.
  intros Hx Hy Hne.
  assert (Hdx : dx = (-1)%Z \/ dx = 0%Z \/ dx = 1%Z) by lia.
  assert (Hdy : dy = (-1)%Z \/ dy = 0%Z \/ dy = 1%Z) by lia.
  destruct Hdx as [-> | [-> | ->]], Hdy as [-> | [-> | ->]];
    cbn; try tauto; exfalso; lia.
Qed.

Lemma neighbour_by_offset (idx : Z * Z) (dx dy : Z) :
  (-1 <= dx <= 1)%Z -> (-1 <= dy <= 1)%Z -> (dx <> 0 \/ dy <> 0)%Z ->
  in_shape g (shift idx (dx, dy)) = true ->
  In (shift idx (dx, dy)) (neighbours g offsets idx).
Proof.
  intros Hx Hy Hne Hin. unfold neighbours. apply filter_In. split; [|exact Hin].
  apply in_map. apply Hall. now apply offsets8_cases.
Qed.

Lemma adjacent_is_neighbour (idx t : Z * Z) :
  in_shape g t = true -> chebyshev idx t = 1%Z -> In t (neighbours g offsets idx).
Proof.
  intros Ht Hone. destruct idx as [i j], t as [a b].
  unfold chebyshev in Hone. cbn [fst snd] in Hone.
  assert (Heq : (a, b) = shift (i, j) ((a - i)%Z, (b - j)%Z)).
  { unfold shift. cbn [fst snd]. f_equal; lia. }
  rewrite Heq. apply neighbour_by_offset; try lia. now rewrite <- Heq.
Qed.

Lemma step_closer (idx t : Z * Z) :
  in_shape g idx = true -> in_shape g t = true -> (2 <= chebyshev idx t)%Z ->
  exists n, In n (neighbours g offsets idx)
            /\ (1 <= chebyshev n t <= chebyshev idx t - 1)%Z.
Proof.
  intros [Hi Hj]%in_shape_bounds [Ha Hb]%in_shape_bounds Hfar.
  destruct idx as [i j], t as [a b]. unfold chebyshev in *. cbn [fst snd] in *.
  set (dx := Z.sgn (a - i)). set (dy := Z.sgn (b - j)).
  exists (shift (i, j) (dx, dy)). split.
  - apply neighbour_by_offset; unfold dx, dy; try lia.
    apply in_shape_bounds. unfold shift. cbn [fst snd]. lia.
  - unfold shift, dx, dy. cbn [fst snd]. lia.
Qed.

Lemma has_adjacent (t : Z * Z) :
  1 < fst (shape g) * snd (shape g) -> in_shape g t = true ->
  exists n, In n (neighbours g offsets t) /\ chebyshev n t = 1%Z.
Proof.
  intros Hmany [Hi Hj]%in_shape_bounds. destruct t as [a b]. cbn [fst snd] in *.
  assert (Hex : exists dx dy, (-1 <= dx <= 1)%Z /\ (-1 <= dy <= 1)%Z
                              /\ (Z.max (Z.abs dx) (Z.abs dy) = 1)%Z
                              /\ in_shape g (shift (a, b) (dx, dy)) = true).
  { destruct (Z_lt_dec (a + 1) (Z.of_nat (fst (shape g)))) as [Hdown|Hlast].
    { exists 1%Z, 0%Z. repeat split; try lia. apply in_shape_bounds. cbn. lia. }
    destruct (Z_lt_dec 0 a) as [Hup|Hfirst].
    { exists (-1)%Z, 0%Z. repeat split; try lia. apply in_shape_bounds. cbn. lia. }
    destruct (Z_lt_dec (b + 1) (Z.of_nat (snd (shape g)))) as [Hright|Hlastc].
    { exists 0%Z, 1%Z. repeat split; try lia. apply in_shape_bounds. cbn. lia. }
    destruct (Z_lt_dec 0 b) as [Hleft|Hfirstc].
    { exists 0%Z, (-1)%Z. repeat split; try lia. apply in_shape_bounds. cbn. lia. }
    exfalso. nia. }
  destruct Hex as (dx & dy & Hx & Hy & Hone & Hin).
  exists (shift (a, b) (dx, dy)). split.
  - apply neighbour_by_offset; try assumption. lia.
  - unfold chebyshev, shift. cbn [fst snd]. lia.
Qed.

Variable t : Z * Z.
Variable tbin : MAPBin.
Hypothesis Ht : in_shape g t = true.
Hypothesis Htbin : grid_get g t = Return tbin.
Hypothesis Hpool : pool_of feasible tbin <> [].

Lemma target_not_empty : ~ empty_at g feasible t.
Proof. intros (cbin & Hget & Hempty). congruence. Qed.

(** Once something was collected the loop is over. *)
Lemma seek_loop_collected (fuel : nat) (to_inspect : list (Z * Z))
      (c : CandidateSolution) (pop : list CandidateSolution) :
  match to_inspect with
  | [] => Return (c :: pop)
  | _ :: _ => seek_loop fuel g feasible offsets to_inspect (c :: pop)
  end = Return (c :: pop).
Proof. destruct to_inspect; [reflexivity|]. now destruct fuel. Qed.

Lemma seek_loop_approaches (n : nat) :
  forall fuel inspecting,
    n <= fuel ->
    (exists idx, In idx inspecting /\ in_shape g idx = true
                 /\ (1 <= chebyshev idx t <= Z.of_nat n)%Z) ->
    exists pop, seek_loop fuel g feasible offsets inspecting [] = Return pop
                /\ pop <> [] /\ Forall (pooled g feasible) pop.
Proof.
  induction n as [|n IH]; intros fuel inspecting Hfuel (idx & Hidx & Hin & Hdist); [lia|].
  destruct fuel as [|fuel]; [lia|]. cbn [seek_loop].
  destruct (seek_inspecting_cases inspecting [] [])
    as (added & ti & Hrun & Hpooled & Hnone).
  rewrite Hrun. cbn [app].
  destruct added as [|c added].
  - destruct (Hnone eq_refl) as [-> Hempty]. cbn [app] in *.
    rewrite List.Forall_forall in Hempty.
    assert (Hsub : forall n', In n' (neighbours g offsets idx) ->
                              In n' (flat_map (neighbours g offsets) inspecting)).
    { intros n' Hn'. apply in_flat_map. now exists idx. }
    destruct (Z.eq_dec (chebyshev idx t) 1%Z) as [Hone|Hfar].
    { exfalso. apply target_not_empty. apply Hempty, Hsub.
      now apply adjacent_is_neighbour. }
    destruct (step_closer idx t Hin Ht) as (n1 & Hn1 & Hcloser); [lia|].
    destruct (flat_map (neighbours g offsets) inspecting) as [|i1 rest] eqn:Hnext.
    { destruct (Hsub n1 Hn1). }
    rewrite <- Hnext in *. apply IH; [lia|].
    exists n1. split; [now apply Hsub|]. split; [|lia].
    pose proof (neighbours_in_shape g offsets idx) as Hshape.
    rewrite List.Forall_forall in Hshape. now apply Hshape.
  - rewrite seek_loop_collected. exists (c :: added).
    split; [reflexivity|]. split; [discriminate | exact Hpooled].
Qed.

Lemma seek_loop_finds (fuel : nat) (inspecting : list (Z * Z)) :
  1 < fst (shape g) * snd (shape g) ->
  Nat.max (fst (shape g)) (snd (shape g)) <= fuel ->
  (exists idx, In idx inspecting /\ in_shape g idx = true) ->
  exists pop, seek_loop fuel g feasible offsets inspecting [] = Return pop
              /\ pop <> [] /\ Forall (pooled g feasible) pop.
Proof.
  intros Hmany Hfuel (idx & Hidx & Hin).
  pose proof Hin as [Hi Hj]%in_shape_bounds.
  pose proof Ht as [Ha Hb]%in_shape_bounds.
  destruct (Z.eq_dec (chebyshev idx t) 0%Z) as [Hzero|Hapart].
  - assert (idx = t) as ->.
    { destruct idx, t. unfold chebyshev in Hzero. cbn [fst snd] in *. f_equal; lia. }
    destruct fuel as [|fuel]; [lia|]. cbn [seek_loop].
    destruct (seek_inspecting_cases inspecting [] [])
      as (added & ti & Hrun & Hpooled & Hnone).
    rewrite Hrun. cbn [app].
    destruct added as [|c added].
    + destruct (Hnone eq_refl) as [-> _]. cbn [app].
      destruct (has_adjacent t Hmany Ht) as (n1 & Hn1 & Hone).
      assert (Hmem : In n1 (flat_map (neighbours g offsets) inspecting)).
      { apply in_flat_map. now exists t. }
      destruct (flat_map (neighbours g offsets) inspecting) as [|i1 rest] eqn:Hnext.
      { destruct Hmem. }
      rewrite <- Hnext in *. apply (seek_loop_approaches 1).
      { destruct (fst (shape g)) as [|[|m]], (snd (shape g)) as [|[|n]]; cbn in Hmany; lia. }
      exists n1. split; [exact Hmem|]. split; [|lia].
      pose proof (neighbours_in_shape g offsets t) as Hshape.
      rewrite List.Forall_forall in Hshape. now apply Hshape.
    + rewrite seek_loop_collected. exists (c :: added).
      split; [reflexivity|]. split; [discriminate | exact Hpooled].
  - apply (seek_loop_approaches (Z.to_nat (chebyshev idx t))).
    + destruct idx, t. unfold chebyshev in *. cbn [fst snd] in *. lia.
    + exists idx. split; [exact Hidx|]. split; [exact Hin|].
      destruct idx, t. unfold chebyshev in *. cbn [fst snd] in *. lia.
Qed.

End Search.

Lemma In_grid_get (g : Grid) (cbin : MAPBin) :
  grid_full g -> In cbin (flat g) ->
  exists t, in_shape g t = true /\ grid_get g t = Return cbin.
Proof.
  intros Hfull Hin. apply list_elem_of_In in Hin.
  apply list_elem_of_lookup_1 in Hin as [k Hk].
  pose proof (lookup_lt_Some _ _ _ Hk) as Hlt. rewrite Hfull in Hlt.
  set (m := fst (shape g)) in *. set (n := snd (shape g)) in *.
  assert (Hn : n <> 0) by nia.
  assert (Hrow : k / n < m).
  { apply Nat.Div0.div_lt_upper_bound. nia. }
  assert (Hcol : k mod n < n) by now apply Nat.mod_upper_bound.
  exists (Z.of_nat (k / n), Z.of_nat (k mod n)).
  assert (Hshape : in_shape g (Z.of_nat (k / n), Z.of_nat (k mod n)) = true).
  { apply in_shape_bounds. cbn [fst snd]. fold m n. lia. }
  split; [exact Hshape|].
  apply in_shape_bounds in Hshape as [Hi Hj].
  unfold grid_get, grid_position.
  rewrite (axis_index_in_range _ _ Hi), (axis_index_in_range _ _ Hj).
  cbn [fst snd]. rewrite !Nat2Z.id. unfold flat_position. fold n.
  assert (Hpos : k / n * n + k mod n = k).
  { pose proof (Nat.div_mod_eq k n). lia. }
  rewrite Hpos.
  assert (Hltb : (k <? length (flat g)) = true).
  { apply Nat.ltb_lt. rewrite Hfull. exact Hlt. }
  now rewrite Hltb, Hk.
Qed.

(** X10: on a grid of more than one bin in which some bin has a non-empty
    pool of the population asked for, [seek_nearest_valid] started from a
    list holding at least one in-range index returns, within as many rounds
    as the longer side of the grid has bins, a non-empty list of solutions,
    each taken from the pool of a bin of the grid. *)
Theorem seek_nearest_valid_finds_pool (self : MAPElites) (bin_idxs : list (Z * Z))
        (feasible : bool) :
  grid_full (bins self) ->
  1 < bin_count self ->
  Permutation offsets8 (snd (shuffle_offsets offsets8 (env self))) ->
  (exists idx, In idx bin_idxs /\ in_shape (bins self) idx = true) ->
  (exists cbin, In cbin (flat (bins self)) /\ pool_of feasible cbin <> []) ->
  forall fuel,
    Nat.max (fst (shape (bins self))) (snd (shape (bins self))) <= fuel ->
    exists pop,
      snd (seek_nearest_valid fuel bin_idxs feasible self) = Return pop
      /\ pop <> []
      /\ Forall (pooled (bins self) feasible) pop.
Proof.
  intros Hfull Hmany Hperm Hstart (cbin & Hcbin & Hpool) fuel Hfuel.
  destruct (In_grid_get (bins self) cbin Hfull Hcbin) as (t & Ht & Hget).
  unfold seek_nearest_valid, with_env, bind, get, lift.
  destruct (shuffle_offsets offsets8 (env self)) as [env' offsets] eqn:Hshuffle.
  cbn [snd] in *. cbn [bins set_env].
  apply (seek_loop_finds (bins self) feasible offsets Hfull) with (t := t) (tbin := cbin);
    try assumption.
  intros o Ho. eapply Permutation_in; eassumption.
Qed.

End WithCollaborators.
End SeekFinds.

(** ** Guards of the step entry points *)

Module EntryFacts.
Import MAPElites MethodFacts.
Section WithCollaborators.
Context `{Config} `{Collaborators}.

Lemma age_bins_returns (diff : Z) (s : MAPElites) :
  snd (_age_bins diff s) = Return tt
  /\ create_new_pool_calls (fst (_age_bins diff s)) = create_new_pool_calls s
  /\ env (fst (_age_bins diff s)) = env s
  /\ enforce_qnt (fst (_age_bins diff s)) = enforce_qnt s.
Proof.
  unfold _age_bins, bind, get, modify_bins, modify, ret.
  destruct (allow_aging s); repeat split.
Qed.

Lemma collect_chosen_invalid (chosen_bins : list MAPBin) :
  Exists (fun b => _feasible b = []) chosen_bins ->
  forall f_pop i_pop,
  exists msg, collect_chosen true chosen_bins f_pop i_pop = Raise (AssertionError msg).
Proof.
  induction 1 as [b rest Hb | b rest _ IH]; intros f_pop i_pop; cbn [collect_chosen].
  - rewrite Hb. cbn. eexists. reflexivity.
  - destruct (true && negb (0 <? length (_feasible b))); [eexists; reflexivity | apply IH].
Qed.

(** X11: [interactive_step] looks up and validates the chosen bins before
    it generates anything.  An index outside the grid raises the
    [IndexError] of the lookup, and with [enforce_qnt] a chosen bin with no
    feasible solution fails the assertion; in both cases no call to
    [create_new_pool] is made and the archive is left as the first
    [_age_bins()] left it: the aging is not taken back. *)
Theorem interactive_step_checks_bins (fuel : nat) (bin_idxs : list (Z * Z)) (gen : nat)
        (self : MAPElites) :
  let aged := fst (_age_bins (-1) self) in
  create_new_pool_calls aged = create_new_pool_calls self
  /\ (forall e, map_result (grid_get (bins aged)) bin_idxs = Raise e ->
                interactive_step fuel bin_idxs gen self = (aged, Raise e))
  /\ (forall chosen_bins,
         map_result (grid_get (bins aged)) bin_idxs = Return chosen_bins ->
         enforce_qnt self = true ->
         Exists (fun b => _feasible b = []) chosen_bins ->
         exists msg,
           interactive_step fuel bin_idxs gen self = (aged, Raise (AssertionError msg))).
Proof.
  intros aged. destruct (age_bins_returns (-1) self) as (Hret & Hcalls & _ & Henforce).
  fold aged in Hret, Hcalls, Henforce.
  split; [exact Hcalls|].
  assert (Haged : _age_bins (-1) self = (aged, Return tt)).
  { unfold aged. destruct (_age_bins (-1) self) as [s r]. cbn in *. now subst. }
  split.
  - intros e Hlookup. unfold interactive_step.
    unfold bind at 1. rewrite Haged.
    unfold bind at 1. unfold get at 1. cbn iota.
    unfold bind at 1. unfold lift at 1. now rewrite Hlookup.
  - intros chosen_bins Hlookup Hen Hinvalid. unfold interactive_step.
    unfold bind at 1. rewrite Haged.
    unfold bind at 1. unfold get at 1. cbn iota.
    unfold bind at 1. unfold lift at 1. rewrite Hlookup.
    unfold bind at 1. unfold lift at 1. rewrite Henforce, Hen.
    destruct (collect_chosen_invalid chosen_bins Hinvalid [] []) as [msg ->].
    now exists msg.
Qed.

(** X12: the guards of [emitter_step].  With neither an agent nor an
    emitter it fails its assertion and touches nothing.  With an emitter
    and no agent, an empty selection makes it return without aging,
    generating or archiving anything (only the emitter and the outside world
    have moved on), and a selection of an unknown form raises
    [NotImplementedError]. *)
Theorem emitter_step_guards (fuel gen : nat) (self : MAPElites) :
  (agent self = None -> emitter self = None ->
   exists msg, emitter_step fuel gen self = (self, Raise (AssertionError msg)))
  /\ (forall em env' em' selected_bins,
         agent self = None -> emitter self = Some em ->
         pick_bin em (bins self) (env self) = (env', (em', selected_bins)) ->
         let picked := set_emitter (set_env self env') (Some em') in
         (selected_bins = SelectedBins [] ->
          emitter_step fuel gen self = (picked, Return tt))
         /\ (selected_bins = SelectedOther ->
             exists msg,
               emitter_step fuel gen self = (picked, Raise (NotImplementedError msg)))).
Proof.
  split.
  - intros Hagent Hemitter. unfold emitter_step, bind, get. rewrite Hagent, Hemitter.
    eexists. reflexivity.
  - intros em env' em' selected_bins Hagent Hemitter Hpick picked.
    split; intros ->.
    + unfold emitter_step, bind, get, ret, with_env, modify.
      rewrite Hagent, Hemitter. cbn. rewrite Hemitter, Hpick. reflexivity.
    + unfold emitter_step, bind, get, ret, with_env, modify, lift.
      rewrite Hagent, Hemitter. cbn. rewrite Hemitter, Hpick. cbn.
      eexists. reflexivity.
Qed.

Lemma on_each_first_failure {S} (m : M S unit) (e : PyErr) (l : list S) :
  (forall a, is_return (snd (m a)) = true \/ snd (m a) = Raise e) ->
  Exists (fun a => snd (m a) = Raise e) l ->
  snd (on_each m l) = Raise e.
Proof.
  intros Hm. induction 1 as [a rest Ha | a rest _ IH]; cbn [on_each].
  - destruct (m a) as [a' r]. cbn in Ha. now subst r.
  - destruct (Hm a) as [Hreturn | Hraise].
    + destruct (m a) as [a' [u|e'|]]; try discriminate.
      destruct (on_each m rest) as [rest' r]. exact IH.
    + destruct (m a) as [a' r]. cbn in Hraise. now subst r.
Qed.

Lemma select_quantile_outcomes (idx : Z) (cs : CandidateSolution) :
  is_return (snd (select_quantile idx cs)) = true
  \/ snd (select_quantile idx cs) = Raise IndexError.
Proof.
  unfold select_quantile, bind, get, lift, modify, py_index.
  destruct (_ && _)%bool; [|now right].
  destruct (fitness cs !! _); [now left | now right].
Qed.

Lemma select_quantile_bin_outcomes (idx : Z) (cbin : MAPBin) :
  is_return (snd (select_quantile_bin idx cbin)) = true
  \/ snd (select_quantile_bin idx cbin) = Raise IndexError.
Proof.
  unfold select_quantile_bin.
  destruct (on_each (select_quantile idx) (_infeasible cbin)) as [infeas r] eqn:Hrun.
  cbn [snd]. replace r with (snd (on_each (select_quantile idx) (_infeasible cbin)))
    by now rewrite Hrun.
  clear Hrun. induction (_infeasible cbin) as [|cs rest IH]; [now left|].
  cbn [on_each]. destruct (select_quantile_outcomes idx cs) as [Hok | Hfail].
  - destruct (select_quantile idx cs) as [cs' [u|e|]]; try discriminate.
    destruct (on_each (select_quantile idx) rest) as [rest' r']. exact IH.
  - destruct (select_quantile idx cs) as [cs' r']. cbn in Hfail. subst r'. now right.
Qed.

Lemma select_quantile_returns (idx : Z) (cs : CandidateSolution) :
  (0 <= idx < Z.of_nat (length (fitness cs)))%Z ->
  exists v, py_index (fitness cs) idx = Return v
            /\ select_quantile idx cs = (cs_set_c_fitness cs v, Return tt).
Proof.
  intros Hidx. unfold select_quantile, bind, get, lift, modify, py_index.
  assert (Hneg : (idx <? 0)%Z = false) by (apply Z.ltb_ge; lia).
  assert (Hin : ((0 <=? idx) && (idx <? Z.of_nat (length (fitness cs))))%Z = true).
  { apply andb_true_iff. split; [apply Z.leb_le | apply Z.ltb_lt]; lia. }
  rewrite Hneg, Hin.
  destruct (lookup_lt_is_Some_2 (fitness cs) (Z.to_nat idx)) as [v Hv]; [lia|].
  rewrite Hv. now exists v.
Qed.

Lemma select_quantile_all (idx : Z) (pop : list CandidateSolution) :
  Forall (fun cs => (0 <= idx < Z.of_nat (length (fitness cs)))%Z) pop ->
  exists pop',
    on_each (select_quantile idx) pop = (pop', Return tt)
    /\ Forall2 (fun cs cs' => exists v, py_index (fitness cs) idx = Return v
                                        /\ cs' = cs_set_c_fitness cs v) pop pop'.
Proof.
  induction 1 as [|cs pop Hcs _ (pop' & Hrest & Hall)]; cbn [on_each].
  - exists []. split; [reflexivity | constructor].
  - destruct (select_quantile_returns idx cs Hcs) as (v & Hv & ->). rewrite Hrest.
    eexists. split; [reflexivity|]. constructor; [now exists v | exact Hall].
Qed.

Lemma select_quantile_bins (idx : Z) (cells : list MAPBin) :
  Forall (fun cbin => Forall (fun cs => (0 <= idx < Z.of_nat (length (fitness cs)))%Z)
                             (_infeasible cbin)) cells ->
  exists cells',
    on_each (select_quantile_bin idx) cells = (cells', Return tt)
    /\ Forall2 (rescored_bin idx) cells cells'.
Proof.
  induction 1 as [|cbin cells Hcbin _ (cells' & Hrest & Hall)]; cbn [on_each].
  - exists []. split; [reflexivity | constructor].
  - unfold select_quantile_bin at 1.
    destruct (select_quantile_all idx (_infeasible cbin) Hcbin) as (pop' & -> & Hpop).
    rewrite Hrest. eexists. split; [reflexivity|].
    constructor; [|exact Hall]. split; [reflexivity | exact Hpop].
Qed.

(** X13: with a bandit agent whose action names the merge method max,
    median or min, [emitter_step] sets [infeas_fitness_idx] to 0, 1 or 2 and
    re-scores every archived infeasible solution as
    [cs.fitness[infeas_fitness_idx]] before it picks a bin.  If some
    archived infeasible solution has an empty [fitness] list (the value
    [__init__] gives it, which [compute_fitness] replaces for an infeasible
    solution only under a quantile estimator), the step raises
    [IndexError].  If every archived infeasible solution has an entry at
    that index, the emitter named by the action is shown the bins with
    every infeasible solution re-scored and everything else as it was, and
    the re-scoring stays when the emitter selects nothing. *)
Theorem emitter_step_bandit_needs_quantiles (fuel gen : nat) (self : MAPElites)
        (ag : Agent) (env' : Env) (emitter_str method_str : String.string) (idx : Z) :
  agent self = Some ag ->
  choose_bandit ag (env self) = (env', (emitter_str, method_str)) ->
  In (method_str, idx) [("max"%string, 0%Z); ("median"%string, 1%Z); ("min"%string, 2%Z)] ->
  (Exists (fun cbin => Exists (fun cs => fitness cs = []) (_infeasible cbin))
          (flat (bins self)) ->
   snd (emitter_step fuel gen self) = Raise IndexError)
  /\ (Forall (fun cbin => Forall (fun cs => (0 <= idx < Z.of_nat (length (fitness cs)))%Z)
                                 (_infeasible cbin))
             (flat (bins self)) ->
      exists cells,
        let rescored :=
          set_bins (set_infeas_fitness_idx
                      (set_emitter (set_env self env')
                                   (Some (get_emitter_by_str emitter_str))) idx)
                   {| shape := shape (bins self); flat := cells |} in
        Forall2 (rescored_bin idx) (flat (bins self)) cells
        /\ apply_bandit (emitter_str, method_str) (set_env self env')
           = (rescored, Return tt)
        /\ forall env'' em',
             pick_bin (get_emitter_by_str emitter_str) (bins rescored) env'
             = (env'', (em', SelectedBins [])) ->
             emitter_step fuel gen self
             = (set_emitter (set_env rescored env'') (Some em'), Return tt)).
Proof.
  intros Hagent Hchoose Hmethod. split.
  - intros Hshort.
    assert (Hfail : forall idx,
               Exists (fun cbin => snd (select_quantile_bin idx cbin) = Raise IndexError)
                      (flat (bins self))).
    { intros idx0. eapply List.Exists_impl; [|exact Hshort].
      intros cbin Hcbin. unfold select_quantile_bin.
      pose proof (on_each_first_failure (select_quantile idx0) IndexError (_infeasible cbin)
                    (select_quantile_outcomes idx0)) as Hpop.
      destruct (on_each (select_quantile idx0) (_infeasible cbin)) as [infeas r].
      cbn [snd] in *. apply Hpop.
      eapply List.Exists_impl; [|exact Hcbin].
      intros cs Hcs. unfold select_quantile, bind, get, lift, py_index. rewrite Hcs.
      cbn [length]. destruct (idx0 <? 0)%Z eqn:Hneg.
      - assert (Hout : ((0 <=? idx0 + Z.of_nat 0) && (idx0 + Z.of_nat 0 <? Z.of_nat 0))%Z
                       = false).
        { apply andb_false_iff. left. apply Z.leb_gt. apply Z.ltb_lt in Hneg. lia. }
        now rewrite Hout.
      - assert (Hout : ((0 <=? idx0) && (idx0 <? Z.of_nat 0))%Z = false).
        { apply andb_false_iff. right. apply Z.ltb_ge. apply Z.ltb_ge in Hneg. lia. }
        now rewrite Hout. }
    assert (Hrescore : forall idx0 s,
               bins s = bins self ->
               snd ((fun s => let '(cells, r) :=
                                on_each (select_quantile_bin (infeas_fitness_idx s))
                                        (flat (bins s)) in
                              (set_bins s {| shape := shape (bins s); flat := cells |}, r))
                      (set_infeas_fitness_idx s idx0))
               = Raise IndexError).
    { intros idx0 s Hbins. cbn [infeas_fitness_idx set_infeas_fitness_idx bins].
      pose proof (on_each_first_failure (select_quantile_bin idx0) IndexError (flat (bins s))
                    (select_quantile_bin_outcomes idx0)) as Hcells.
      rewrite Hbins in *.
      destruct (on_each (select_quantile_bin idx0) (flat (bins self))) as [cells r].
      cbn [snd] in *. apply Hcells, Hfail. }
    unfold emitter_step. unfold bind at 1. unfold get at 1. cbn iota.
    rewrite Hagent.
    assert (Hbandit : snd (apply_bandit (emitter_str, method_str) (set_env self env'))
                      = Raise IndexError).
    { unfold apply_bandit, bind, modify, raise.
      cbn in Hmethod.
      destruct Hmethod as [[= <- <-] | [[= <- <-] | [[= <- <-] | []]]];
        cbn [String.eqb Ascii.eqb Bool.eqb];
        apply (Hrescore _ (set_emitter (set_env self env') _)); reflexivity. }
    destruct (emitter self);
      unfold bind at 1; unfold bind at 1; unfold with_env at 1; rewrite Hchoose;
      unfold bind at 1;
      destruct (apply_bandit (emitter_str, method_str) (set_env self env')) as [s1 r1];
      cbn [snd] in Hbandit; subst r1; reflexivity.
  - intros Hlong.
    destruct (select_quantile_bins idx (flat (bins self)) Hlong) as (cells & Hcells & Hall).
    exists cells. cbv zeta.
    assert (Hbandit : apply_bandit (emitter_str, method_str) (set_env self env')
                      = (set_bins (set_infeas_fitness_idx
                                     (set_emitter (set_env self env')
                                                  (Some (get_emitter_by_str emitter_str))) idx)
                                  {| shape := shape (bins self); flat := cells |},
                         Return tt)).
    { unfold apply_bandit, bind, modify, raise.
      cbn in Hmethod.
      destruct Hmethod as [[= <- <-] | [[= <- <-] | [[= <- <-] | []]]];
        cbn [String.eqb Ascii.eqb Bool.eqb];
        cbn [infeas_fitness_idx set_infeas_fitness_idx set_emitter set_env bins];
        rewrite Hcells; reflexivity. }
    split; [exact Hall|]. split; [exact Hbandit|].
    intros env'' em' Hpick.
    unfold emitter_step. unfold bind at 1. unfold get at 1. cbn iota.
    rewrite Hagent.
    assert (Hrest :
              (bandit <- (bandit <- with_env (choose_bandit ag) ;;
                          apply_bandit bandit ;; ret (Some bandit)) ;;
               self0 <- get ;;
               match emitter self0 with
               | None => raise AttributeError
               | Some em =>
                   picked <- with_env (pick_bin em (bins self0)) ;;
                   let '(em', selected_bins) := picked in
                   modify (fun self => set_emitter self (Some em')) ;;
                   if selection_truthy selected_bins then
                     pops <- lift (selected_populations selected_bins) ;;
                     let '(fpop, ipop, seek_from) := pops in
                     ipop <- (match ipop with
                              | [] => seek_nearest_valid fuel seek_from false
                              | _ :: _ => ret ipop
                              end) ;;
                     generated <- _step [fpop; ipop] gen ;;
                     (match generated with
                      | _ :: _ => archive_generated generated ;; ret tt
                      | [] => ret tt
                      end) ;;
                     self <- get ;;
                     (match emitter self with
                      | Some em =>
                          if requires_post em
                          then modify (fun self => set_emitter self
                                                     (Some (post_step em (bins self))))
                          else ret tt
                      | None => ret tt
                      end) ;;
                     self <- get ;;
                     match agent self, bandit with
                     | Some ag, Some b =>
                         reward <- lift (total_reward self) ;;
                         modify (fun self => set_agent self (Some (reward_bandit ag b reward)))
                     | _, _ => ret tt
                     end
                   else ret tt
               end) self
              = (set_emitter
                   (set_env
                      (set_bins (set_infeas_fitness_idx
                                   (set_emitter (set_env self env')
                                                (Some (get_emitter_by_str emitter_str))) idx)
                                {| shape := shape (bins self); flat := cells |})
                      env'') (Some em'),
                 Return tt)).
    { unfold bind at 1. unfold bind at 1. unfold with_env at 1. rewrite Hchoose.
      unfold bind at 1. rewrite Hbandit. unfold ret at 1.
      unfold bind at 1. unfold get at 1. cbn iota.
      cbn [emitter set_bins set_infeas_fitness_idx set_emitter].
      unfold bind at 1. unfold with_env at 1.
      cbn [env bins set_bins set_infeas_fitness_idx set_emitter set_env] in Hpick |- *.
      rewrite Hpick.
      unfold bind at 1. unfold modify at 1. cbn iota. reflexivity. }
    destruct (emitter self); exact Hrest.
Qed.

End WithCollaborators.
End EntryFacts.

(** ** What the initial populations hold *)

Module FirstPopulationFacts.
Import MethodFacts Populations.

Section Solver.
Context `{Collaborators}.
Import FI2PopSolver.

Lemma solver_place_solution_keeps (self : FI2PopSolver) (pops_size : nat)
      (pops : list CandidateSolution * list CandidateSolution) (cs : CandidateSolution) :
  solver_populations_ok self pops_size pops ->
  solver_populations_ok self pops_size (place_solution self pops_size pops cs).
Proof.
  destruct pops as [feasible_pop infeasible_pop]. unfold place_solution.
  intros (Hlenf & Hleni & Hfeas & Hinfeas). cbn [fst snd] in *.
  destruct (is_feasible cs && (length feasible_pop <? pops_size)
            && negb (cs_in cs feasible_pop)) eqn:Htake.
  - apply andb_true_iff in Htake as [Htake _].
    apply andb_true_iff in Htake as [Hcs Hroom]. apply Nat.ltb_lt in Hroom.
    unfold solver_populations_ok. cbn [fst snd].
    split; [rewrite length_app; cbn; lia|]. split; [exact Hleni|].
    split; [|exact Hinfeas].
    apply Forall_app. split; [exact Hfeas|]. constructor; [|constructor].
    split; [exact Hcs | reflexivity].
  - destruct (negb (is_feasible cs) && (length infeasible_pop <? pops_size)
              && negb (cs_in cs feasible_pop)) eqn:Htake'.
    + apply andb_true_iff in Htake' as [Htake' _].
      apply andb_true_iff in Htake' as [Hcs Hroom]. apply Nat.ltb_lt in Hroom.
      apply negb_true_iff in Hcs.
      unfold solver_populations_ok. cbn [fst snd].
      split; [exact Hlenf|]. split; [rewrite length_app; cbn; lia|].
      split; [exact Hfeas|].
      apply Forall_app. split; [exact Hinfeas|]. constructor; [|constructor].
      split; [exact Hcs | reflexivity].
    + repeat split; assumption.
Qed.

Lemma solver_loop_keeps (self : FI2PopSolver) (pops_size : nat) :
  forall n_retries env pops,
    solver_populations_ok self pops_size pops ->
    solver_populations_ok self pops_size
      (snd (initial_populations_loop self pops_size n_retries env pops)).
Proof.
  induction n_retries as [|retries IH]; intros env pops Hok; [exact Hok|].
  cbn [initial_populations_loop].
  destruct (apply_rules false env) as [env' solutions].
  assert (Hfold : forall l p, solver_populations_ok self pops_size p ->
            solver_populations_ok self pops_size
              (fold_left (place_solution self pops_size) l p)).
  { induction l as [|cs l IHl]; intros p Hp; [exact Hp|].
    cbn [fold_left]. apply IHl. now apply solver_place_solution_keeps. }
  specialize (Hfold (subdivide_solutions solutions) pops Hok).
  destruct (_ && _); [exact Hfold | now apply IH].
Qed.

(** X14: whatever the grammar engine produces, the populations built by
    [FI2PopSolver._generate_initial_populations] never exceed [pops_size];
    the feasible one holds only feasible solutions, each scored
    [sum(fitness) + (nsc - ncv)], and no two with the same string; the
    infeasible one holds only infeasible solutions, each scored [ncv]. *)
Theorem solver_initial_populations_ok (self : FI2PopSolver) (pops_size n_retries : nat)
        (env : Env) :
  let pops := snd (_generate_initial_populations self pops_size n_retries env) in
  solver_populations_ok self pops_size pops /\ unique_strings (fst pops).
Proof.
  unfold _generate_initial_populations. split.
  - apply solver_loop_keeps. unfold solver_populations_ok. cbn.
    repeat split; try lia; constructor.
  - apply InitialPopulationFacts.initial_feasible_population_unique. constructor.
Qed.

End Solver.

Section Archive.
Context `{Config} `{Collaborators}.
Import MAPElites.

Ltac keep_step :=
  match goal with
  | |- preserves _ (bind _ _) => apply preserves_bind; [|intros ?]
  | |- preserves _ (ret _) => apply preserves_ret
  | |- preserves _ get => apply preserves_get
  | |- preserves _ (lift _) => apply preserves_lift
  | |- preserves _ (raise _) => apply preserves_raise
  | |- preserves _ (modify _) => apply preserves_modify; intros ? ?; assumption
  | |- preserves _ (if ?b then _ else _) => destruct b
  | |- preserves _ (match ?x with _ => _ end) => destruct x
  end.

Lemma compute_fitness_keeps (self : MAPElites) (b : bool) (s : String.string) :
  preserves (fun c => is_feasible c = b /\ string c = s) (compute_fitness self).
Proof. unfold compute_fitness. repeat keep_step. Qed.

Lemma assign_fitness_keeps (self : MAPElites) (b : bool) (s : String.string) :
  preserves (fun c => is_feasible c = b /\ string c = s) (_assign_fitness self).
Proof.
  unfold _assign_fitness, _set_behavior_descriptors.
  apply preserves_bind; [apply compute_fitness_keeps | intros v].
  repeat keep_step.
Qed.

Lemma prepare_cs_content_keeps (self : MAPElites) (add_hull : bool) (b : bool)
      (s : String.string) :
  preserves (fun c => is_feasible c = b /\ string c = s) (_prepare_cs_content self add_hull).
Proof. unfold _prepare_cs_content. repeat keep_step. Qed.

Lemma assign_fitness_range (self : MAPElites) (cs : CandidateSolution) :
  _within_range self (fst (_assign_fitness self cs)) = _within_range self cs.
Proof.
  assert (Hkeep : preserves (fun c => _content c = _content cs
                                      /\ content_size c = content_size cs)
                            (_assign_fitness self)).
  { unfold _assign_fitness, _set_behavior_descriptors, compute_fitness.
    repeat keep_step. }
  destruct (Hkeep cs (conj eq_refl eq_refl)) as [Hcontent Hsize].
  unfold _within_range. now rewrite Hcontent, Hsize.
Qed.

Lemma place_initial_keeps (self : MAPElites) (pop_size : nat)
      (pops pops' : list CandidateSolution * list CandidateSolution)
      (cs : CandidateSolution) :
  archive_populations_ok self pop_size pops ->
  place_initial self pop_size pops cs = Return pops' ->
  archive_populations_ok self pop_size pops'.
Proof.
  destruct pops as [feasible_pop infeasible_pop]. unfold place_initial.
  intros Hok Hplace. pose proof Hok as (Hlenf & Hleni & Hfeas & Hinfeas & Huniq).
  cbn [fst snd] in *.
  pose proof (prepare_cs_content_keeps self false (is_feasible cs) (string cs) cs
                (conj eq_refl eq_refl)) as [Hprep_f Hprep_s].
  destruct (_prepare_cs_content self false cs) as [cs1 [[]|e|]]; try discriminate.
  cbn [fst] in *.
  destruct (_within_range self cs1) eqn:Hrange; [|now injection Hplace as <-].
  destruct (is_feasible cs1 && (length feasible_pop <? pop_size)
            && negb (cs_in cs1 feasible_pop)) eqn:Htake.
  - apply andb_true_iff in Htake as [Htake Hnew].
    apply andb_true_iff in Htake as [Hcs Hroom]. apply Nat.ltb_lt in Hroom.
    apply negb_true_iff in Hnew.
    set (hulled := if hull_builder self
                   then cs_set_content cs1 (option_map add_external_hull (_content cs1))
                   else cs1) in *.
    assert (Hhulled : is_feasible hulled = true /\ string hulled = string cs1).
    { unfold hulled. destruct (hull_builder self); now split. }
    destruct Hhulled as [Hhf Hhs].
    pose proof (assign_fitness_keeps self true (string cs1) hulled (conj Hhf Hhs))
      as [Hassigned_f Hassigned_s].
    pose proof (OffspringFacts.assign_fitness_age self hulled) as Hage.
    destruct (_assign_fitness self hulled) as [cs2 [[]|e|]]; try discriminate.
    injection Hplace as <-. cbn [fst snd] in *.
    unfold archive_populations_ok. cbn [fst snd].
    split; [rewrite length_app; cbn; lia|]. split; [exact Hleni|].
    split; [|split; [exact Hinfeas|]].
    + apply Forall_app. split; [exact Hfeas|]. constructor; [|constructor].
      split; [exact Hassigned_f | now apply (Hage cs2 tt)].
    + unfold unique_strings in *. rewrite map_app. cbn [List.map].
      apply NoDup_app. split; [exact Huniq|]. split; [|apply NoDup_singleton].
      intros s Hs Hin. apply list_elem_of_In in Hs, Hin. destruct Hin as [<-|[]].
      rewrite Hassigned_s in Hs.
      now apply (InitialPopulationFacts.cs_in_false cs1 feasible_pop).
  - destruct (negb (is_feasible cs1) && (length infeasible_pop <? pop_size)
              && negb (cs_in cs1 feasible_pop)) eqn:Htake'.
    + apply andb_true_iff in Htake' as [Htake' _].
      apply andb_true_iff in Htake' as [Hcs Hroom]. apply Nat.ltb_lt in Hroom.
      apply negb_true_iff in Hcs.
      pose proof (assign_fitness_keeps self false (string cs1) cs1 (conj Hcs eq_refl))
        as [Hassigned_f _].
      pose proof (OffspringFacts.assign_fitness_age self cs1) as Hage.
      pose proof (assign_fitness_range self cs1) as Hkept.
      destruct (_assign_fitness self cs1) as [cs2 [[]|e|]]; try discriminate.
      injection Hplace as <-. cbn [fst snd] in *.
      unfold archive_populations_ok. cbn [fst snd].
      split; [exact Hlenf|]. split; [rewrite length_app; cbn; lia|].
      split; [exact Hfeas|]. split; [|exact Huniq].
      apply Forall_app. split; [exact Hinfeas|]. constructor; [|constructor].
      split; [exact Hassigned_f|]. split; [now apply (Hage cs2 tt) | congruence].
    + now injection Hplace as <-.
Qed.

Lemma place_all_initial_keeps (self : MAPElites) (pop_size : nat)
      (solutions : list CandidateSolution) :
  forall pops pops',
    archive_populations_ok self pop_size pops ->
    place_all_initial self pop_size solutions pops = Return pops' ->
    archive_populations_ok self pop_size pops'.
Proof.
  induction solutions as [|cs rest IH]; intros pops pops' Hok Hrun;
    cbn [place_all_initial] in Hrun.
  - now injection Hrun as <-.
  - destruct (place_initial self pop_size pops cs) as [pops1|e|] eqn:Hplace;
      try discriminate.
    eapply IH; [|exact Hrun]. eapply place_initial_keeps; eassumption.
Qed.

Lemma archive_populations_ok_env (self : MAPElites) (env' : Env) (pop_size : nat)
      (pops : list CandidateSolution * list CandidateSolution) :
  archive_populations_ok self pop_size pops ->
  archive_populations_ok (set_env self env') pop_size pops.
Proof. exact (fun Hok => Hok). Qed.

Lemma initial_populations_loop_keeps (pop_size : nat) :
  forall retries self pops s' pops',
    archive_populations_ok self pop_size pops ->
    initial_populations_loop pop_size retries pops self = (s', Return pops') ->
    archive_populations_ok self pop_size pops'
    /\ (forall cs, _within_range s' cs = _within_range self cs)
    /\ bins s' = bins self.
Proof.
  induction retries as [|retries IH]; intros self pops s' pops' Hok Hrun.
  - cbn in Hrun. injection Hrun as <- <-. split; [exact Hok|]. now split.
  - cbn [initial_populations_loop] in Hrun.
    unfold bind, with_env, get, lift, ret in Hrun.
    destruct (apply_rules true (env self)) as [env' solutions].
    destruct (place_all_initial (set_env self env') pop_size
                                (subdivide_solutions solutions) pops)
      as [pops1|e|] eqn:Hplace; try discriminate.
    pose proof (place_all_initial_keeps _ _ _ _ _
                  (archive_populations_ok_env self env' pop_size pops Hok) Hplace) as Hok1.
    destruct ((length (fst pops1) =? pop_size) && (length (snd pops1) =? pop_size)).
    + injection Hrun as <- <-. split; [exact Hok1|]. now split.
    + destruct (IH _ _ _ _ Hok1 Hrun) as (Hok' & Hrange & Hbins).
      split; [exact Hok'|]. split; [exact Hrange | exact Hbins].
Qed.

(** X15: when [MAPElites.generate_initial_populations] gets its two
    populations built, neither exceeds [pop_size]; the feasible one holds
    only feasible solutions of age [CS_MAX_AGE], no two with the same
    string; the infeasible one holds only infeasible solutions of age
    [CS_MAX_AGE] whose dimensions are within the valid ranges; and the bins
    have not been touched yet. *)
Theorem archive_initial_populations_ok (pop_size n_retries : nat) (self s' : MAPElites)
        (pops : list CandidateSolution * list CandidateSolution) :
  initial_populations pop_size n_retries self = (s', Return pops) ->
  archive_populations_ok self pop_size pops /\ bins s' = bins self.
Proof.
  unfold initial_populations. intros Hrun.
  destruct (initial_populations_loop_keeps pop_size n_retries self ([], []) s' pops)
    as (Hok & _ & Hbins); [|exact Hrun|now split].
  unfold archive_populations_ok, unique_strings. cbn.
  repeat split; try lia; constructor.
Qed.

End Archive.
End FirstPopulationFacts.

(** ** Serialisation and merging of solutions *)

Module LineageFacts.
Import Lineage.

(** X16: [from_json(to_json(cs))].  For a solution without parents it gives
    back the solution with every serialised slot as it was and the slots
    [to_json] leaves out at their initial values (no content, no blocks,
    zero size).  For a solution with parents it raises [TypeError]: the
    recursive call passes its argument by the name [args], which
    [from_json] does not have. *)
Theorem from_json_to_json (cs : Solution) :
  match parents cs with
  | [] =>
      from_json (to_json cs)
      = Return {| slots := cs_set_content_size
                             (cs_set_n_blocks (cs_set_content (slots cs) None) 0)
                             (0, 0, 0)%Z;
                  hls_mod := hls_mod cs; n_feas_offspring := n_feas_offspring cs;
                  n_offspring := n_offspring cs; parents := [] |}
  | _ :: _ => from_json (to_json cs) = Raise TypeError
  end.
Proof. destruct cs as [body mods feas_offspring offspring [|p ps]]; reflexivity. Qed.

Lemma dict_set_fresh {V} (d : list (String.string * V)) (k : String.string) (v : V) :
  ~ In k (List.map fst d) -> dict_set d k v = d ++ [(k, v)].
Proof.
  induction d as [|[k' v'] d IH]; intros Hfresh; [reflexivity|].
  cbn [dict_set]. cbn in Hfresh.
  destruct (String.eqb k' k) eqn:Hk.
  - apply String.eqb_eq in Hk. tauto.
  - cbn. f_equal. apply IH. tauto.
Qed.

(** The entry [merge_solutions] writes for a module. *)
Lemma record_modules_returns (modules_names : list String.string) :
  forall pairs i mods,
    i + length pairs <= length modules_names ->
    exists mods', record_modules i pairs modules_names mods = Return mods'.
Proof.
  induction pairs as [|[cs default_m] pairs IH]; intros i mods Hlen.
  - now exists mods.
  - cbn [record_modules]. rewrite GridFacts.py_index_nat.
    destruct (lookup_lt_is_Some_2 modules_names i) as [module_name ->].
    { cbn in Hlen. lia. }
    apply IH. cbn in Hlen. lia.
Qed.

Lemma record_modules_distinct (modules_names : list String.string) :
  NoDup modules_names ->
  forall pairs i mods,
    List.map fst mods = take i modules_names ->
    i + length pairs <= length modules_names ->
    record_modules i pairs modules_names mods
    = Return (mods ++ List.map (fun '(module_name, (cs, default_m)) =>
                                  (module_name, (string cs, default_m)))
                               (combine (drop i modules_names) pairs)).
Proof.
  intros Hdistinct.
  induction pairs as [|[cs default_m] pairs IH]; intros i mods Hkeys Hlen.
  - cbn. destruct (drop i modules_names); cbn; now rewrite app_nil_r.
  - cbn [record_modules]. rewrite GridFacts.py_index_nat.
    destruct (lookup_lt_is_Some_2 modules_names i) as [module_name Hname].
    { cbn in Hlen. lia. }
    rewrite Hname.
    assert (Hfresh : ~ In module_name (List.map fst mods)).
    { rewrite Hkeys. intros Hin.
      rewrite <- (take_drop_middle modules_names i module_name Hname) in Hdistinct.
      apply NoDup_app in Hdistinct as (_ & Hsep & _).
      apply (Hsep module_name); [now apply list_elem_of_In | left]. }
    rewrite (dict_set_fresh mods _ _ Hfresh).
    rewrite IH.
    + rewrite (drop_S modules_names module_name i Hname). cbn [combine List.map].
      now rewrite <- app_assoc.
    + rewrite map_app, Hkeys. cbn [List.map fst].
      now rewrite (take_S_r modules_names i module_name Hname).
    + cbn in Hlen. lia.
Qed.

Lemma recorded_strings (lcs : list CandidateSolution) :
  forall (modules_names : list String.string) (modules_active : list bool),
    length lcs = length modules_names ->
    length lcs <= length modules_active ->
    List.map (fun entry => fst (snd entry))
             (List.map (fun '(module_name, (cs, default_m)) =>
                          (module_name, (string cs, default_m)))
                       (combine modules_names (combine lcs modules_active)))
    = List.map string lcs.
Proof.
  induction lcs as [|cs lcs IH]; intros [|n names] [|a actives] Hnames Hactive;
    cbn in *; try reflexivity; try lia.
  f_equal. apply IH; lia.
Qed.

(** X17: [merge_solutions] fails its assertion exactly when the numbers of
    solutions and of module names differ.  Otherwise it returns a fresh
    solution (no content, no parents) whose string is the concatenation of
    the given strings; when the module names are distinct, [hls_mod] has one
    entry per solution paired with a mutability flag, in order, under the
    name of its module, and if there is a flag for every solution the
    merged string is the concatenation of the strings kept in [hls_mod]. *)
Theorem merge_solutions_keeps_modules (lcs : list CandidateSolution)
        (modules_names : list String.string) (modules_active : list bool) :
  (length lcs <> length modules_names ->
   exists msg, merge_solutions lcs modules_names modules_active
               = Raise (AssertionError msg))
  /\ (length lcs = length modules_names ->
      exists merged,
        merge_solutions lcs modules_names modules_active = Return merged
        /\ slots merged
           = CandidateSolution_init (string_merging (List.map string lcs)) None
        /\ parents merged = []
        /\ (NoDup modules_names ->
            hls_mod merged
            = List.map (fun '(module_name, (cs, default_m)) =>
                          (module_name, (string cs, default_m)))
                       (combine modules_names (combine lcs modules_active))
            /\ (length lcs <= length modules_active ->
                string_merging (List.map (fun entry => fst (snd entry)) (hls_mod merged))
                = string (slots merged)))).
Proof.
  unfold merge_solutions. split; intros Hlen.
  - apply Nat.eqb_neq in Hlen. rewrite Hlen. eexists. reflexivity.
  - assert (Hpairs : 0 + length (combine lcs modules_active) <= length modules_names).
    { rewrite length_combine. lia. }
    destruct (record_modules_returns modules_names _ 0 [] Hpairs) as [mods Hmods].
    apply Nat.eqb_eq in Hlen as Heqb. rewrite Heqb, Hmods.
    eexists. split; [reflexivity|]. cbn [slots parents hls_mod].
    split; [reflexivity|]. split; [reflexivity|].
    intros Hdistinct.
    rewrite (record_modules_distinct modules_names Hdistinct _ 0 [] eq_refl Hpairs) in Hmods.
    injection Hmods as <-. cbn [app drop]. split; [reflexivity|].
    intros Hactive. cbn [string CandidateSolution_init].
    now rewrite recorded_strings.
Qed.

End LineageFacts.

(** ** The solver's first tracking entries *)

Module TrackingFacts.
Import SolverTracking.
Section WithCollaborators.
Context `{Collaborators}.

(** X18: [FI2PopSolver.initialize] raises the [ValueError] of [max]/[min]
    exactly when one of the two initial populations came out empty.  When
    only the infeasible one is empty, [ftop] and [fmean] have already
    received their entry while [itop], [imean], [ffs] and [ifs] have not;
    when the feasible one is empty nothing was recorded.  Otherwise the
    populations are returned and each tracking list has one more entry,
    the top feasible fitness being the largest and the top infeasible
    fitness the smallest composite fitness of its population. *)
Theorem initialize_needs_both_populations (self : FI2PopSolver.FI2PopSolver)
        (t : Tracking) (pops_size n_retries : nat) (env : Env) :
  let pops := snd (FI2PopSolver._generate_initial_populations self pops_size n_retries env) in
  let t' := snd (fst (initialize self t pops_size n_retries env)) in
  let outcome := snd (initialize self t pops_size n_retries env) in
  (outcome = ValueError <-> fst pops = [] \/ snd pops = [])
  /\ (fst pops = [] -> t' = t)
  /\ (fst pops <> [] -> snd pops = [] ->
      length (ftop t') = S (length (ftop t)) /\ length (fmean t') = S (length (fmean t))
      /\ itop t' = itop t /\ imean t' = imean t /\ ffs t' = ffs t /\ ifs t' = ifs t)
  /\ (fst pops <> [] -> snd pops <> [] ->
      outcome = Populations (fst pops) (snd pops)
      /\ exists top_f top_i,
           ftop t' = ftop t ++ [top_f] /\ itop t' = itop t ++ [top_i]
           /\ fmean t' = fmean t ++ [mean_of (List.map c_fitness (fst pops))]
           /\ imean t' = imean t ++ [mean_of (List.map c_fitness (snd pops))]
           /\ ffs t' = ffs t ++ [(top_f, mean_of (List.map c_fitness (fst pops)))]
           /\ ifs t' = ifs t ++ [(top_i, mean_of (List.map c_fitness (snd pops)))]
           /\ In top_f (List.map c_fitness (fst pops))
           /\ Forall (fun cs => (c_fitness cs <= top_f)%Q) (fst pops)
           /\ In top_i (List.map c_fitness (snd pops))
           /\ Forall (fun cs => (top_i <= c_fitness cs)%Q) (snd pops)).
Proof.
  unfold initialize.
  destruct (FI2PopSolver._generate_initial_populations self pops_size n_retries env)
    as [env' [f_pop i_pop]].
  cbn [fst snd]. unfold track_populations.
  destruct f_pop as [|f f_pop].
  { cbn. split; [split; [now left | reflexivity]|]. split; [reflexivity|].
    split; intros Hne; congruence. }
  destruct i_pop as [|i i_pop].
  { cbn. rewrite !length_app. cbn.
    split; [split; [now right | reflexivity]|]. split; [discriminate|].
    split; [intros _ _; repeat split; lia|]. intros _ Hne. congruence. }
  cbn [List.map py_max_of py_min_of fst snd ftop itop fmean imean ffs ifs].
  split.
  { split; [discriminate | intros [Hnil | Hnil]; discriminate]. }
  split; [discriminate|]. split; [intros _ Hnil; discriminate|].
  intros _ _. split; [reflexivity|].
  destruct (MetricFacts.py_max_list_greatest (List.map c_fitness f_pop) (c_fitness f))
    as [Hmax_in Hmax].
  destruct (MetricFacts.py_min_list_least (List.map c_fitness i_pop) (c_fitness i))
    as [Hmin_in Hmin].
  unfold Maintenance.py_max_list, Maintenance.py_min_list in *.
  eexists. eexists. repeat (split; [reflexivity|]).
  rewrite List.Forall_forall in Hmax, Hmin.
  split; [exact Hmax_in|]. split.
  - apply List.Forall_forall. intros cs Hcs.
    apply Hmax. now apply (in_map c_fitness) in Hcs.
  - split; [exact Hmin_in|].
    apply List.Forall_forall. intros cs Hcs.
    apply Hmin. now apply (in_map c_fitness) in Hcs.
Qed.

End WithCollaborators.
End TrackingFacts.

(** ** Placement checks of the hull builder *)

Module PlacementFacts.
Import HullBuilder HullPlacement.

Lemma mountpoint_valid_true (l1 : Limit) (mp2 : list Limit) :
  forall b, mountpoint_valid l1 mp2 true = Return b -> b = true.
Proof.
  assert (Hgen : forall mp_valid b,
             mp_valid = true -> mountpoint_valid l1 mp2 mp_valid = Return b -> b = true).
  { induction mp2 as [|l2 rest IH]; intros mp_valid b Hvalid Hrun; cbn in Hrun.
    - congruence.
    - destruct (Qeq_bool (plane l2) 0); [discriminate|].
      eapply IH; [|exact Hrun]. now rewrite Hvalid. }
  intros b. now apply Hgen.
Qed.

Lemma mountpoints_valid_true (mp2 : list Limit) :
  forall mp1 all_valid,
    mountpoints_valid mp1 mp2 = Return all_valid ->
    forallb (fun v => v) all_valid = true /\ length all_valid = length mp1
    /\ Forall (fun l1 => Qeq_bool (plane l1) 0 = false) mp1.
Proof.
  induction mp1 as [|l1 rest IH]; intros all_valid Hrun; cbn in Hrun.
  - injection Hrun as <-. repeat split. constructor.
  - destruct (Qeq_bool (plane l1) 0) eqn:Hplane; [discriminate|].
    destruct (mountpoint_valid l1 mp2 true) as [b|e|] eqn:Hone; try discriminate.
    destruct (mountpoints_valid rest mp2) as [flags|e|] eqn:Hrest; try discriminate.
    injection Hrun as <-. apply mountpoint_valid_true in Hone as ->.
    destruct (IH flags eq_refl) as (Hall & Hlen & Hplanes).
    cbn. repeat split; try assumption; try lia. now constructor.
Qed.

(** X19: next to another block, [_check_valid_placement] reports an
    invalid placement only when one of the two facing sides has no
    mountpoint (with area 0).  When both sides have mountpoints and the call
    returns, the flag is [True] whatever the positions of the mountpoints
    are, since every [mp_valid] starts at [True] and is only or-ed with the
    overlap test; the area returned is then positive, the reciprocal of the
    overlap computed by [intersect_planes], and every mountpoint of the
    block has a non-empty face. *)
Theorem check_valid_placement_never_rejects (mp1 mp_opposite mp2 : list Limit)
        (valid : bool) (area : Q) :
  _check_valid_placement mp1 mp_opposite (Some mp2) = Return (valid, area) ->
  (valid = false <-> mp1 = [] \/ mp2 = [])
  /\ (valid = false -> area = 0%Q)
  /\ (valid = true ->
      (0 < area)%Q
      /\ intersect_planes (List.map start mp1) (List.map end_ mp1)
                          (List.map start mp2) (List.map end_ mp2) = Return area
      /\ Forall (fun l1 => Qeq_bool (plane l1) 0 = false) mp1).
Proof.
  unfold _check_valid_placement. intros Hrun.
  destruct mp1 as [|l1 mp1].
  { injection Hrun as <- <-. split; [split; [now left | reflexivity]|].
    split; [reflexivity | discriminate]. }
  destruct mp2 as [|l2 mp2].
  { injection Hrun as <- <-. split; [split; [now right | reflexivity]|].
    split; [reflexivity | discriminate]. }
  destruct (mountpoints_valid (l1 :: mp1) (l2 :: mp2)) as [all_valid|e|] eqn:Hflags;
    try discriminate.
  destruct (mountpoints_valid_true _ _ _ Hflags) as (Hall & _ & Hplanes).
  destruct (intersect_planes _ _ _ _) as [a|e|] eqn:Harea; try discriminate.
  injection Hrun as <- <-. rewrite Hall.
  split; [split; [discriminate | intros [Hnil | Hnil]; discriminate]|].
  split; [discriminate|]. intros _. split; [|split; [reflexivity | exact Hplanes]].
  unfold intersect_planes, py_div in Harea.
  pose proof (HullFacts.intersect_bbox_nonneg
                (List.map start (l1 :: mp1)) (List.map end_ (l1 :: mp1))
                (List.map start (l2 :: mp2)) (List.map end_ (l2 :: mp2))) as Hnonneg.
  destruct (Qeq_bool _ 0) eqn:Hzero; [discriminate|].
  injection Harea as <-.
  apply Qeq_bool_neq in Hzero.
  apply Qlt_shift_div_l; [|lra].
  apply Qle_lteq in Hnonneg as [Hpos | Heq]; [exact Hpos|].
  exfalso. apply Hzero. now symmetry.
Qed.

Lemma check_directions_visits (placement : Orientation -> PyResult (bool * Q)) :
  forall directions area_err delta_area valid area delta,
    check_directions placement directions true area_err delta_area
    = Return (valid, area, delta) ->
    (directions = [] /\ valid = true /\ delta = delta_area)
    \/ exists visited last rest last_area,
         directions = visited ++ last :: rest
         /\ Forall (fun d => exists a, placement d = Return (true, a)) visited
         /\ placement last = Return (valid, last_area)
         /\ delta = Some last_area
         /\ (valid = true -> rest = []).
Proof.
  induction directions as [|d directions IH];
    intros area_err delta_area valid area delta Hrun; cbn [check_directions] in Hrun.
  - left. injection Hrun as <- _ <-. now repeat split.
  - right. destruct (placement d) as [[res da]|e|] eqn:Hd; try discriminate.
    cbn [andb] in Hrun. destruct res; cbn [negb] in Hrun.
    + destruct (IH _ _ _ _ _ Hrun) as [(-> & -> & ->) | Hmore].
      * exists [], d, [], da. repeat split; try assumption. constructor.
      * destruct Hmore as (visited & last & rest & last_area & -> & Hvisited & Hlast & -> & Hend).
        exists (d :: visited), last, rest, last_area.
        repeat split; try assumption. constructor; [now exists da | exact Hvisited].
    + injection Hrun as <- _ <-.
      exists [], d, directions, da. repeat split; try assumption; try discriminate.
      constructor.
Qed.

(** X20: the pair [_check_valid_position] returns.  The directions are
    tried in the order of [_orientations] up to the first one that is
    rejected; the flag is that of the last direction tried, all earlier ones
    having been accepted; and the number returned is the [delta_area] of that
    last direction alone (of [RIGHT] when every direction is accepted), not
    the accumulated [area_err]. *)
Theorem check_valid_position_returns_last (placement : Orientation -> PyResult (bool * Q))
        (valid : bool) (area : Q) :
  _check_valid_position placement = Return (valid, area) ->
  exists visited last rest,
    _orientations = visited ++ last :: rest
    /\ Forall (fun d => exists a, placement d = Return (true, a)) visited
    /\ placement last = Return (valid, area)
    /\ (valid = true -> last = RIGHT /\ rest = []).
Proof.
  unfold _check_valid_position. intros Hrun.
  destruct (check_directions placement _orientations true 0 None)
    as [[[v a] [d|]]|e|] eqn:Hloop; try discriminate.
  injection Hrun as -> ->.
  destruct (check_directions_visits placement _ _ _ _ _ _ Hloop)
    as [(Hnil & _) | (visited & last & rest & last_area & Hsplit & Hvisited & Hlast & Hd & Hend)].
  { discriminate Hnil. }
  injection Hd as ->.
  exists visited, last, rest.
  split; [exact Hsplit|]. split; [exact Hvisited|]. split; [exact Hlast|].
  intros Hvalid. specialize (Hend Hvalid). subst rest. split; [|reflexivity].
  unfold _orientations in Hsplit.
  assert (Hrev : rev [FORWARD; BACKWARD; UP; DOWN; LEFT; RIGHT] = rev (visited ++ [last]))
    by now rewrite Hsplit.
  rewrite rev_app_distr in Hrev. cbn in Hrev. now injection Hrev as <-.
Qed.

End PlacementFacts.

(** ** Where a behavior descriptor is binned *)

Module BinningFacts.
Import MAPElites.
Section WithCollaborators.
Context `{Config} `{Collaborators}.

Lemma cumsum_from_sorted (l : list Q) :
  forall acc,
    Forall (fun s => (0 <= s)%Q) l ->
    StronglySorted Qle (cumsum_from acc l)
    /\ Forall (fun c => (acc <= c)%Q) (cumsum_from acc l).
Proof.
  induction l as [|a l IH]; intros acc Hl; cbn [cumsum_from].
  - split; constructor.
  - apply Forall_cons_1 in Hl as [Ha Hl].
    destruct (IH (acc + a)%Q Hl) as [Hsorted Hbound].
    split.
    + constructor; [exact Hsorted | exact Hbound].
    + constructor; [lra|].
      eapply List.Forall_impl; [|exact Hbound]. cbn. intros c Hc. lra.
Qed.

Lemma removelast_nonneg (l : list Q) :
  Forall (fun s => (0 <= s)%Q) l -> Forall (fun s => (0 <= s)%Q) (removelast l).
Proof.
  intros Hl. apply List.Forall_forall. intros s Hs.
  rewrite List.Forall_forall in Hl. apply Hl.
  clear Hl. induction l as [|a [|b l] IH]; cbn in *; [tauto | tauto |].
  destruct Hs as [<- | Hs]; [now left | right; now apply IH].
Qed.

Lemma boundaries_sorted (sizes : list Q) (lower : Q) :
  Forall (fun s => (0 <= s)%Q) sizes ->
  StronglySorted Qle (boundaries sizes lower)
  /\ Forall (fun c => (lower <= c)%Q) (boundaries sizes lower)
  /\ exists first, boundaries sizes lower !! 0 = Some first /\ (first == lower)%Q.
Proof.
  intros Hsizes. unfold boundaries, cumsum.
  destruct (cumsum_from_sorted (0%Q :: removelast sizes) 0) as [Hsorted Hbound].
  { constructor; [lra | now apply removelast_nonneg]. }
  split; [|split].
  - clear Hbound. induction Hsorted as [|c l Hl IH Hc]; cbn [List.map]; constructor.
    + exact IH.
    + apply List.Forall_forall. intros d Hd. apply in_map_iff in Hd as (d' & <- & Hd').
      rewrite List.Forall_forall in Hc. specialize (Hc d' Hd'). lra.
  - apply List.Forall_forall. intros d Hd. apply in_map_iff in Hd as (d' & <- & Hd').
    rewrite List.Forall_forall in Hbound. specialize (Hbound d' Hd'). lra.
  - cbn [cumsum_from List.map]. eexists. split; [reflexivity|]. lra.
Qed.

Lemma filter_none {A} (p : A -> bool) (l : list A) :
  Forall (fun a => p a = false) l -> List.filter p l = [].
Proof.
  induction 1 as [|a l Ha _ IH]; [reflexivity|]. cbn [List.filter]. now rewrite Ha.
Qed.

Lemma Qle_bool_false (c v : Q) : (v < c)%Q -> Qle_bool c v = false.
Proof.
  intros Hlt. destruct (Qle_bool c v) eqn:Hle; [|reflexivity].
  apply Qle_bool_iff in Hle. lra.
Qed.

Lemma digitize_sorted (bc : list Q) (v : Q) :
  StronglySorted Qle bc ->
  forall i lo,
    bc !! i = Some lo -> (lo <= v)%Q ->
    (forall hi, bc !! S i = Some hi -> (v < hi)%Q) ->
    digitize v bc = S i.
Proof.
  unfold digitize.
  induction 1 as [|c l Hl IH Hc]; intros i lo Hlo Hle Hhi; [discriminate|].
  rewrite List.Forall_forall in Hc.
  destruct i as [|i]; cbn in Hlo.
  - injection Hlo as ->. cbn [List.filter].
    assert (Hkeep : Qle_bool lo v = true) by now apply Qle_bool_iff.
    rewrite Hkeep. cbn [length]. f_equal.
    rewrite filter_none; [reflexivity|].
    destruct l as [|h l]; [constructor|].
    specialize (Hhi h eq_refl).
    apply StronglySorted_inv in Hl as [_ Hh]. rewrite List.Forall_forall in Hh.
    constructor; [now apply Qle_bool_false|].
    apply List.Forall_forall. intros d Hd. apply Qle_bool_false.
    specialize (Hh d Hd). lra.
  - cbn [List.filter].
    assert (Hin : In lo l).
    { apply list_elem_of_In. eapply list_elem_of_lookup_2. exact Hlo. }
    assert (Hkeep : Qle_bool c v = true).
    { apply Qle_bool_iff. specialize (Hc lo Hin). lra. }
    rewrite Hkeep. cbn [length]. f_equal. now apply (IH i lo).
Qed.

(** X21: the bin [_update_bins] computes on one axis, for non-negative bin
    sizes.  A descriptor that lies between a boundary and the next one (or
    at or beyond the last boundary) gets the index of that boundary, so
    everything from the last boundary upwards goes to the last bin; a
    descriptor below the lower bound gets index -1, which the array lookup
    reads as the last bin too. *)
Theorem bin_index_places (sizes : list Q) (lower v : Q) :
  Forall (fun s => (0 <= s)%Q) sizes ->
  sizes <> [] ->
  let bc := boundaries sizes lower in
  (exists first, bc !! 0 = Some first /\ (first == lower)%Q)
  /\ (forall i lo,
         bc !! i = Some lo -> (lo <= v)%Q ->
         (forall hi, bc !! S i = Some hi -> (v < hi)%Q) ->
         bin_index v bc = Z.of_nat i
         /\ axis_index (length sizes) (bin_index v bc) = Return i)
  /\ ((v < lower)%Q ->
      bin_index v bc = (-1)%Z
      /\ axis_index (length sizes) (bin_index v bc) = Return (length sizes - 1)).
Proof.
  intros Hsizes Hne bc.
  destruct (boundaries_sorted sizes lower Hsizes) as (Hsorted & Hbound & Hfirst).
  assert (Hlen : length bc = length sizes).
  { apply GridFacts.length_boundaries. destruct sizes; [congruence | cbn; lia]. }
  split; [exact Hfirst|]. split.
  - intros i lo Hlo Hle Hhi. unfold bin_index.
    rewrite (digitize_sorted bc v Hsorted i lo Hlo Hle Hhi).
    assert (Hi : i < length sizes).
    { rewrite <- Hlen. eapply lookup_lt_Some. exact Hlo. }
    split; [lia|].
    replace (Z.of_nat (S i) - 1)%Z with (Z.of_nat i) by lia.
    rewrite SeekFacts.axis_index_in_range; [now rewrite Nat2Z.id | lia].
  - intros Hbelow. unfold bin_index, digitize.
    rewrite filter_none.
    + cbn [length]. change (Z.of_nat 0 - 1)%Z with (-1)%Z. split; [reflexivity|].
      assert (Hpos : 0 < length sizes) by (destruct sizes; [congruence | cbn; lia]).
      unfold axis_index. change (-1 <? 0)%Z with true. cbv iota.
      assert (Hin : ((0 <=? -1 + Z.of_nat (length sizes))
                     && (-1 + Z.of_nat (length sizes) <? Z.of_nat (length sizes)))%Z = true).
      { apply andb_true_iff. split; [apply Z.leb_le | apply Z.ltb_lt]; lia. }
      rewrite Hin. f_equal. lia.
    + eapply List.Forall_impl; [|exact Hbound]. cbn. intros c Hc.
      apply Qle_bool_false. lra.
Qed.

(** X22: [compute_fitness] on a feasible solution.  It first overwrites
    [fitness] with the values of the objectives and [representation] with a
    copy of them; if the solution has no content it then raises
    [NotImplementedError], leaving those two assignments in place;
    otherwise, the size constants being non-zero, it appends the three
    normalised dimensions to [representation] and returns the weighted sum
    of the fitness values. *)
Theorem compute_fitness_feasible (self : MAPElites) (cs : CandidateSolution) :
  is_feasible cs = true ->
  let values := List.map (fun fit => f fit cs) (feasible_fitnesses self) in
  let scored := cs_set_representation (cs_set_fitness cs values) values in
  (_content cs = None ->
   exists msg, compute_fitness self cs = (scored, Raise (NotImplementedError msg)))
  /\ (forall s x y z,
         _content cs = Some s -> _max_dims s = (x, y, z) ->
         Qeq_bool MAX_X_SIZE 0 = false -> Qeq_bool MAX_Y_SIZE 0 = false ->
         Qeq_bool MAX_Z_SIZE 0 = false ->
         compute_fitness self cs
         = (cs_set_representation scored
              (values ++ [(inject_Z x / MAX_X_SIZE)%Q; (inject_Z y / MAX_Y_SIZE)%Q;
                          (inject_Z z / MAX_Z_SIZE)%Q]),
            Return (py_sum (List.map (fun '(fit, value) => (weight fit * value)%Q)
                                     (combine (feasible_fitnesses self) values)))))
  /\ (forall s, _content cs = Some s ->
                Qeq_bool MAX_X_SIZE 0 = true ->
                snd (compute_fitness self cs) = Raise ZeroDivisionError).
Proof.
  intros Hfeasible values scored.
  unfold compute_fitness, bind, get, modify, lift, ret, content, py_div.
  rewrite Hfeasible. cbn [fitness cs_set_fitness representation cs_set_representation].
  split; [|split].
  - intros ->. eexists. reflexivity.
  - intros s x y z -> Hdims Hx Hy Hz. rewrite Hdims, Hx, Hy, Hz. reflexivity.
  - intros s -> Hx. destruct (_max_dims s) as [[x y] z]. now rewrite Hx.
Qed.

End WithCollaborators.
End BinningFacts.

(** ** The fitness reward without newcomers *)

Module StaleRewardFacts.
Import MAPElites.
Section WithCollaborators.
Context `{Config} `{Collaborators}.

Lemma bests_without_newcomers (pop : list CandidateSolution) :
  Forall (fun cs => age cs <> CS_MAX_AGE) pop ->
  forall bests, snd (fold_left fitness_reward_visit pop bests) = snd bests.
Proof.
  induction 1 as [|cs pop Hcs _ IH]; intros bests; [reflexivity|].
  cbn [fold_left]. rewrite IH. destruct bests as [prev cur].
  unfold fitness_reward_visit.
  apply Z.eqb_neq in Hcs. rewrite Hcs. cbn [andb negb].
  now destruct (Qltb prev (c_fitness cs)).
Qed.

(** X23: when no feasible solution of the archive is of the current
    generation and some archived feasible solution has a positive composite
    fitness, [fitness_reward] returns -1: [current_best] is still the
    literal 0 at the end, whatever the best fitness was before. *)
Theorem fitness_reward_without_newcomers (self : MAPElites) :
  Forall (fun cs => age cs <> CS_MAX_AGE) (all_feasible (bins self)) ->
  Exists (fun cs => (0 < c_fitness cs)%Q) (all_feasible (bins self)) ->
  exists r, fitness_reward self = Return r /\ (r == -1)%Q.
Proof.
  intros Hstale Hpositive.
  assert (Hsome : no_previous_best self = false).
  { unfold no_previous_best. apply not_true_is_false. intros Hall.
    rewrite forallb_forall in Hall.
    apply List.Exists_exists in Hpositive as (cs & Hin & Hpos).
    rewrite List.Forall_forall in Hstale. specialize (Hstale cs Hin).
    specialize (Hall cs Hin). apply orb_true_iff in Hall as [Hage | Hle].
    - apply Z.eqb_eq in Hage. contradiction.
    - apply Qle_bool_iff in Hle. lra. }
  destruct (RewardFacts.bests_positive (all_feasible (bins self)) (0%Q, 0%Q) (Qle_refl 0))
    as [_ Hpos].
  unfold no_previous_best in Hsome. specialize (Hpos Hsome).
  pose proof (bests_without_newcomers _ Hstale (0%Q, 0%Q)) as Hcur.
  unfold fitness_reward, fitness_reward_bests.
  destruct (fold_left fitness_reward_visit (all_feasible (bins self)) (0%Q, 0%Q))
    as [prev cur].
  cbn [fst snd] in *. subst cur. unfold py_div.
  destruct (Qeq_bool prev 0) eqn:Hzero.
  - apply Qeq_bool_iff in Hzero. lra.
  - eexists. split; [reflexivity|]. field. lra.
Qed.

End WithCollaborators.
End StaleRewardFacts.

(** ** Opposite rotations *)

Module SymmetryFacts.
Import Ascii Symmetry.

Lemma insert_c_at_first (rot : list ascii) :
  forall i,
    index_c rot = Some i ->
    remove_first_c (take i rot ++ letter_c :: drop i rot) = rot
    /\ count_c (take i rot ++ letter_c :: drop i rot) = S (count_c rot)
    /\ index_c (take i rot ++ letter_c :: drop i rot) = Some i.
Proof.
  unfold count_c.
  induction rot as [|a rot IH]; intros i Hi; cbn [index_c] in Hi; [discriminate|].
  destruct (Ascii.eqb letter_c a) eqn:Ha.
  - injection Hi as <-. cbn [take drop app remove_first_c List.filter index_c].
    rewrite Ascii.eqb_refl. cbn [length]. repeat split.
  - destruct (index_c rot) as [k|] eqn:Hk; [|discriminate].
    injection Hi as <-. destruct (IH k eq_refl) as (Hremove & Hcount & Hindex).
    cbn [take drop app remove_first_c List.filter index_c]. rewrite Ha.
    rewrite Hremove, Hcount, Hindex. repeat split.
Qed.

Lemma index_c_present (rot : list ascii) :
  0 < count_c rot -> exists i, index_c rot = Some i.
Proof.
  unfold count_c. induction rot as [|a rot IH]; cbn [List.filter index_c]; [cbn; lia|].
  destruct (Ascii.eqb letter_c a); [now exists 0|].
  intros Hpos. destruct (IH Hpos) as [i ->]. now exists (S i).
Qed.

Lemma split_at_index_c (rot : list ascii) :
  forall i,
    index_c rot = Some i ->
    exists after,
      drop i rot = letter_c :: after
      /\ ~ In letter_c (take i rot)
      /\ count_c rot = S (count_c after).
Proof.
  unfold count_c.
  induction rot as [|a rot IH]; intros i Hi; cbn [index_c] in Hi; [discriminate|].
  destruct (Ascii.eqb letter_c a) eqn:Ha.
  - injection Hi as <-. apply Ascii.eqb_eq in Ha as <-.
    exists rot. cbn [take drop List.filter]. rewrite Ascii.eqb_refl.
    split; [reflexivity|]. split; [intros [] | reflexivity].
  - destruct (index_c rot) as [k|] eqn:Hk; [|discriminate].
    injection Hi as <-. destruct (IH k eq_refl) as (after & Hdrop & Hbefore & Hcount).
    exists after. cbn [take drop List.filter]. rewrite Ha.
    split; [exact Hdrop|]. split; [|exact Hcount].
    intros [-> | Hin]; [|now apply Hbefore].
    now rewrite Ascii.eqb_refl in Ha.
Qed.

Lemma count_c_none (rot : list ascii) : count_c rot = 0 -> ~ In letter_c rot.
Proof.
  unfold count_c. induction rot as [|a rot IH]; cbn [List.filter]; [intros _ []|].
  destruct (Ascii.eqb letter_c a) eqn:Ha; [discriminate|].
  intros Hnone [-> | Hin]; [now rewrite Ascii.eqb_refl in Ha | now apply IH].
Qed.

(** X24: on a rotation name with exactly one letter c, [__inverse] returns
    the name with that letter doubled where it stands, and applied to the
    result it gives the original name back. *)
Theorem inverse_round_trip (rot : list ascii) :
  count_c rot = 1 ->
  exists before after,
    rot = before ++ letter_c :: after
    /\ ~ In letter_c before
    /\ ~ In letter_c after
    /\ __inverse rot = Some (before ++ letter_c :: letter_c :: after)
    /\ __inverse (before ++ letter_c :: letter_c :: after) = Some rot.
Proof.
  intros Hone. unfold __inverse at 1. rewrite Hone. cbn [Nat.eqb].
  destruct (index_c_present rot) as [i Hi]; [lia|]. rewrite Hi.
  destruct (split_at_index_c rot i Hi) as (after & Hdrop & Hbefore & Hcount).
  destruct (insert_c_at_first rot i Hi) as (Hremove & Hdoubled & _).
  exists (take i rot), after.
  assert (Hsplit : rot = take i rot ++ letter_c :: after).
  { rewrite <- Hdrop. symmetry. apply take_drop. }
  split; [exact Hsplit|]. split; [exact Hbefore|].
  split; [apply count_c_none; lia|].
  rewrite Hdrop in Hremove, Hdoubled |- *. split; [reflexivity|].
  unfold __inverse. rewrite Hdoubled, Hone. cbn [Nat.eqb]. now rewrite Hremove.
Qed.

End SymmetryFacts.

(** ** The further properties on the scripted world *)

Module MoreWitnesses.
Import MAPElites Maintenance Neighbourhood Populations Scenario Cases.
Import HullBuilder HullPlacement Symmetry.
#[local] Existing Instance Scenario.config.
#[local] Existing Instance Scenario.world.

(** One bin out of four has a solution of the current generation. *)
Lemma coverage_reward_range_witness :
  grid_full (bins fresh)
  /\ match coverage_reward fresh with
     | Return r => 0 < bin_count fresh /\ (0 <= r)%Q /\ (r <= 1)%Q
     | Raise e => e = ZeroDivisionError /\ bin_count fresh = 0
     | OutOfFuel => False
     end.
Proof.
  assert (Hfull : grid_full (bins fresh)) by reflexivity.
  split; [exact Hfull|].
  exact (MaintenanceFacts.coverage_reward_range fresh Hfull).
Defined.

(** Ranges that every archived solution fits leave the populations alone. *)
Lemma update_valid_ranges_keeps_valid_witness :
  all_archived
    (fun cs => _within_range
                 (fst (update_valid_ranges (0, 1000)%Z (0, 1000)%Z (0, 1000)%Z fresh)) cs
               = true)
    (bins fresh)
  /\ List.map _feasible
       (flat (bins (fst (update_valid_ranges (0, 1000)%Z (0, 1000)%Z (0, 1000)%Z fresh))))
     = List.map _feasible (flat (bins fresh)).
Proof.
  assert (Hall : all_archived
            (fun cs => _within_range
                         (fst (update_valid_ranges (0, 1000)%Z (0, 1000)%Z (0, 1000)%Z fresh))
                         cs = true)
            (bins fresh)).
  { repeat constructor. }
  split; [exact Hall|].
  exact (proj1 (ReweightFacts.update_valid_ranges_keeps_valid
                  (0, 1000)%Z (0, 1000)%Z (0, 1000)%Z fresh Hall)).
Defined.

(** The full first bin of the crowded archive triggers one subdivision. *)
Lemma check_res_trigger_grows_witness :
  grid_ok crowded
  /\ bc_bounds (fst (behavior_descriptors crowded)) <> None
  /\ bc_bounds (snd (behavior_descriptors crowded)) <> None
  /\ to_increase_res crowded = [(0, 0)]
  /\ snd (_check_res_trigger crowded) = Return (to_increase_res crowded)
  /\ bin_qnt (fst (_check_res_trigger crowded))
     = (fst (bin_qnt crowded) + length (to_increase_res crowded),
        snd (bin_qnt crowded) + length (to_increase_res crowded)).
Proof.
  assert (Hok : grid_ok crowded) by (repeat split).
  assert (Hb0 : bc_bounds (fst (behavior_descriptors crowded)) <> None) by discriminate.
  assert (Hb1 : bc_bounds (snd (behavior_descriptors crowded)) <> None) by discriminate.
  assert (Htriggered : to_increase_res crowded = [(0, 0)]) by reflexivity.
  assert (Hin : Forall (fun idx => fst idx < fst (bin_qnt crowded)
                                   /\ snd idx < snd (bin_qnt crowded))
                       (to_increase_res crowded)).
  { rewrite Htriggered. constructor; [cbn; lia | constructor]. }
  do 4 (split; [assumption|]).
  destruct (TriggerFacts.check_res_trigger_grows crowded Hok Hb0 Hb1 Hin) as [Hon _].
  destruct (Hon eq_refl) as (Hret & _ & Hqnt).
  split; [exact Hret | exact Hqnt].
Defined.

(** From the far corner of the seeded archive the search reaches the
    infeasible solution of the first bin. *)
Lemma seek_nearest_valid_finds_pool_witness :
  grid_full (bins (seeded None silence))
  /\ 1 < bin_count (seeded None silence)
  /\ Permutation offsets8 (snd (shuffle_offsets offsets8 (env (seeded None silence))))
  /\ (exists idx, In idx [(1, 1)%Z] /\ in_shape (bins (seeded None silence)) idx = true)
  /\ (exists cbin, In cbin (flat (bins (seeded None silence)))
                   /\ pool_of false cbin <> [])
  /\ exists pop,
       snd (seek_nearest_valid 2 [(1, 1)%Z] false (seeded None silence)) = Return pop
       /\ pop <> []
       /\ Forall (pooled (bins (seeded None silence)) false) pop.
Proof.
  assert (Hfull : grid_full (bins (seeded None silence))) by reflexivity.
  assert (Hmany : 1 < bin_count (seeded None silence)) by (cbn; lia).
  assert (Hperm : Permutation offsets8
            (snd (shuffle_offsets offsets8 (env (seeded None silence)))))
    by apply Permutation_refl.
  assert (Hstart : exists idx, In idx [(1, 1)%Z]
                               /\ in_shape (bins (seeded None silence)) idx = true).
  { exists (1, 1)%Z. split; [now left | reflexivity]. }
  assert (Hpool : exists cbin, In cbin (flat (bins (seeded None silence)))
                               /\ pool_of false cbin <> []).
  { eexists. split; [exact (in_eq _ _) | discriminate]. }
  do 5 (split; [assumption|]).
  apply (SeekFinds.seek_nearest_valid_finds_pool (seeded None silence) [(1, 1)%Z] false
           Hfull Hmany Hperm Hstart Hpool 2).
  cbn. lia.
Defined.

(** The infeasible solution of the seeded archive was scored without a
    quantile estimator: a bandit step fails on it.  Once it carries its
    three quantiles, the action [median] re-scores it with the second. *)
Lemma emitter_step_bandit_needs_quantiles_witness :
  agent with_bandit = Some tt
  /\ choose_bandit tt (env with_bandit)
     = (silence, ("random-emitter"%string, "median"%string))
  /\ snd (emitter_step 2 0 with_bandit) = Raise IndexError
  /\ exists cells,
       Forall2 (rescored_bin 1) (flat (bins with_quantiles)) cells
       /\ bins (fst (apply_bandit ("random-emitter"%string, "median"%string)
                                  (set_env with_quantiles silence)))
          = {| shape := (2, 2); flat := cells |}
       /\ infeas_fitness_idx (fst (apply_bandit ("random-emitter"%string, "median"%string)
                                                (set_env with_quantiles silence)))
          = 1%Z.
Proof.
  assert (Hmethod : In ("median"%string, 1%Z)
                       [("max"%string, 0%Z); ("median"%string, 1%Z); ("min"%string, 2%Z)])
    by (right; now left).
  split; [reflexivity|]. split; [reflexivity|]. split.
  - apply (EntryFacts.emitter_step_bandit_needs_quantiles 2 0 with_bandit tt silence
             "random-emitter"%string "median"%string 1%Z eq_refl eq_refl Hmethod).
    apply Exists_cons_hd. apply Exists_cons_hd. reflexivity.
  - destruct (EntryFacts.emitter_step_bandit_needs_quantiles 2 0 with_quantiles tt silence
                "random-emitter"%string "median"%string 1%Z eq_refl eq_refl Hmethod)
      as [_ Hrescored].
    destruct Hrescored as (cells & Hcells & Hbandit & _).
    2:{ exists cells. split; [exact Hcells|]. now rewrite Hbandit. }
    repeat first [apply List.Forall_nil | apply List.Forall_cons]. cbn. lia.
Defined.

(** The populations built from a batch of one feasible and one infeasible
    solution. *)
Lemma archive_initial_populations_ok_witness :
  match initial_populations 2 1 (archive 2 2 None first_batch) with
  | (s', Return pops) =>
      archive_populations_ok (archive 2 2 None first_batch) 2 pops
      /\ bins s' = bins (archive 2 2 None first_batch)
  | _ => False
  end.
Proof.
  destruct (initial_populations 2 1 (archive 2 2 None first_batch))
    as [s' [pops|e|]] eqn:Hrun.
  - exact (FirstPopulationFacts.archive_initial_populations_ok
             2 1 (archive 2 2 None first_batch) s' pops Hrun).
  - vm_compute in Hrun. discriminate Hrun.
  - vm_compute in Hrun. discriminate Hrun.
Defined.

(** Two faces that are apart in z are accepted all the same. *)
Lemma check_valid_placement_never_rejects_witness :
  boxes_touch lower_face upper_face = false
  /\ _check_valid_placement [lower_face] [] (Some [upper_face])
     = Return (true, (1 / (0 + (2 - 1) * (2 - 1)))%Q)
  /\ (0 < 1 / (0 + (2 - 1) * (2 - 1)))%Q.
Proof.
  split; [reflexivity|].
  assert (Hrun : _check_valid_placement [lower_face] [] (Some [upper_face])
                 = Return (true, (1 / (0 + (2 - 1) * (2 - 1)))%Q)) by reflexivity.
  split; [exact Hrun|].
  destruct (PlacementFacts.check_valid_placement_never_rejects
              [lower_face] [] [upper_face] true _ Hrun) as (_ & _ & Hvalid).
  exact (proj1 (Hvalid eq_refl)).
Defined.

(** The rejection upwards ends the loop, and its area is what comes back. *)
Lemma check_valid_position_returns_last_witness :
  _check_valid_position blocked_above = Return (false, 7%Q)
  /\ exists visited last rest,
       _orientations = visited ++ last :: rest
       /\ Forall (fun d => exists a, blocked_above d = Return (true, a)) visited
       /\ blocked_above last = Return (false, 7%Q)
       /\ (false = true -> last = RIGHT /\ rest = []).
Proof.
  assert (Hrun : _check_valid_position blocked_above = Return (false, 7%Q))
    by reflexivity.
  split; [exact Hrun|].
  exact (PlacementFacts.check_valid_position_returns_last blocked_above false 7%Q Hrun).
Defined.

(** Two bins of size 10 from 0: a descriptor of -1 lands in the last bin. *)
Lemma bin_index_places_witness :
  Forall (fun s => (0 <= s)%Q) [10%Q; 10%Q]
  /\ [10%Q; 10%Q] <> []
  /\ bin_index (-1) (boundaries [10%Q; 10%Q] 0) = (-1)%Z
  /\ axis_index 2 (bin_index (-1) (boundaries [10%Q; 10%Q] 0)) = Return 1.
Proof.
  assert (Hsizes : Forall (fun s => (0 <= s)%Q) [10%Q; 10%Q]).
  { repeat constructor; unfold Qle; cbn; lia. }
  assert (Hne : [10%Q; 10%Q] <> []) by discriminate.
  do 2 (split; [assumption|]).
  destruct (BinningFacts.bin_index_places [10%Q; 10%Q] 0 (-1) Hsizes Hne)
    as (_ & _ & Hbelow).
  apply Hbelow. unfold Qlt. cbn. lia.
Defined.

(** A feasible solution with a structure, on the initial archive. *)
Lemma compute_fitness_feasible_witness :
  is_feasible (feasible_cs "cockpit"%string) = true
  /\ snd (compute_fitness (archive 2 2 None silence) (feasible_cs "cockpit"%string))
     = Return (0 + 1 * (1 # 2))%Q.
Proof.
  split; [reflexivity|].
  destruct (BinningFacts.compute_fitness_feasible
              (archive 2 2 None silence) (feasible_cs "cockpit"%string) eq_refl)
    as (_ & Hsome & _).
  rewrite (Hsome one_block 10%Z 10%Z 10%Z eq_refl eq_refl eq_refl eq_refl eq_refl).
  reflexivity.
Defined.

(** The seeded archive holds one feasible solution, of age 3 and fitness
    one half. *)
Lemma fitness_reward_without_newcomers_witness :
  Forall (fun cs => age cs <> CS_MAX_AGE) (all_feasible (bins (seeded None silence)))
  /\ Exists (fun cs => (0 < c_fitness cs)%Q) (all_feasible (bins (seeded None silence)))
  /\ exists r, fitness_reward (seeded None silence) = Return r /\ (r == -1)%Q.
Proof.
  assert (Hstale : Forall (fun cs => age cs <> CS_MAX_AGE)
                          (all_feasible (bins (seeded None silence)))).
  { constructor; [discriminate | constructor]. }
  assert (Hpositive : Exists (fun cs => (0 < c_fitness cs)%Q)
                             (all_feasible (bins (seeded None silence)))).
  { apply Exists_cons_hd. reflexivity. }
  do 2 (split; [assumption|]).
  exact (StaleRewardFacts.fitness_reward_without_newcomers (seeded None silence)
           Hstale Hpositive).
Defined.

(** The clockwise rotation about Y and back: the opposite of [RotYcwZ]
    is [RotYccwZ]. *)
Lemma inverse_round_trip_witness :
  count_c (list_ascii_of_string "RotYcwZ") = 1
  /\ __inverse (list_ascii_of_string "RotYcwZ") = Some (list_ascii_of_string "RotYccwZ")
  /\ __inverse (list_ascii_of_string "RotYccwZ") = Some (list_ascii_of_string "RotYcwZ").
Proof.
  split; [reflexivity|].
  destruct (SymmetryFacts.inverse_round_trip (list_ascii_of_string "RotYcwZ") eq_refl)
    as (before & after & Hsplit & Hbefore & _ & Hopposite & Hback).
  assert (Hdoubled : Some (list_ascii_of_string "RotYccwZ")
                     = Some (before ++ letter_c :: letter_c :: after)).
  { rewrite <- Hopposite. reflexivity. }
  injection Hdoubled as Hdoubled. rewrite <- Hdoubled in Hopposite, Hback.
  split; [exact Hopposite | exact Hback].
Defined.

End MoreWitnesses.
